(** * effect-actor: specification validator, transition executor, actor service

    A shallow embedding of the TypeScript sources

      - spec/types.ts, actor/types.ts, machine/types.ts, audit.ts, errors.ts
      - machine/transition.ts   (executeCommand)
      - spec/validator.ts       (validateSpec and its helpers)
      - spec/registry.ts        (SpecRegistry)
      - providers/storage.ts    (StorageProviderApi)
      - test-utils/mock-providers.ts (createMockStorage)
      - providers/backends/fs-json.ts (FsJsonStorageProvider)
      - actor/service.ts        (ActorService, ActorServiceLive)

    followed by the properties of the natural-language specification that
    concern them.

    Modelling conventions.
      - A JavaScript record whose key order is observable (Object.keys,
        Object.values, iteration) is the list of its own enumerable
        properties in enumeration order.
      - Records used only through lookup (guards, actions, contexts, the
        Map objects of the storage mock) are finite maps.
      - The records of a specification are plain objects: a lookup
        [o[k]] that finds no own property finds the member of
        Object.prototype of that name, if there is one.
      - Strings are sequences of bytes, read as UTF-8.
      - Dates are milliseconds since the epoch; the version counter is an
        integer, counted exactly (a JavaScript number does so below 2^53).
      - Guards, actions and decoders are functions that return.
      - An Effect is the list of observable events it performed together
        with its exit: success, typed failure, or defect (an exception
        thrown inside Effect.gen).  A run that goes on with a value that has
        no counterpart here ends in a fourth exit, of which the properties
        say nothing further. *)

From Stdlib Require Import ZArith Ascii String.
From stdpp Require Import gmap strings list fin_maps sorting.

Open Scope Z_scope.

(** ** JavaScript values and records *)

Inductive JsValue : Type :=
| JNull
| JBool (b : bool)
| JNum (n : Z)
| JStr (s : string)
| JObj (fields : JsFields)
with JsFields : Type :=
| FNil
| FCons (key : string) (value : JsValue) (rest : JsFields).

(** The context of an entity: a record of values, used through lookup and
    object spread only. *)
Abbreviation Context := (gmap string JsValue).

(** A record with observable key order. *)
Definition JsRecord (V : Type) : Type := list (string * V).

(** [o[k]] for an own property. *)
Fixpoint prop {V : Type} (k : string) (o : JsRecord V) : option V :=
  match o with
  | [] => None
  | (k', v) :: rest => if String.eqb k' k then Some v else prop k rest
  end.

Definition Object_keys {V : Type} (o : JsRecord V) : list string := map fst o.

Definition Object_values {V : Type} (o : JsRecord V) : list V := map snd o.

(** [Array.prototype.includes] on an array of strings. *)
Definition includes (l : list string) (x : string) : bool :=
  existsb (String.eqb x) l.

(** The members every object inherits from Object.prototype.  A lookup
    [o[k]] that finds no own property [k] finds one of them when [k] is its
    name: a built-in function or, for [__proto__], the prototype object.
    Each of them is truthy, and none has a property the sources read off
    what they look up ([on], [entry], [exit], [target], [guard],
    [action]). *)
Definition objectPrototypeNames : list string :=
  ["constructor"; "hasOwnProperty"; "isPrototypeOf"; "propertyIsEnumerable";
   "toLocaleString"; "toString"; "valueOf"; "__proto__";
   "__defineGetter__"; "__defineSetter__"; "__lookupGetter__";
   "__lookupSetter__"].

Definition inherited (k : string) : bool := includes objectPrototypeNames k.

(** What such a member does when the sources call it as a guard or as an
    action, [f(context)] without a receiver, on a context that is an
    object: [constructor] is [Object] and returns its argument, [toString]
    returns the string [[object Undefined]], and every other one throws a
    TypeError ([__proto__] is no function, the others convert the missing
    receiver to an object). *)
Inductive MemberCall : Type := ReturnsArgument | ReturnsString | MemberThrows.

Definition callMember (name : string) : MemberCall :=
  if String.eqb name "constructor" then ReturnsArgument
  else if String.eqb name "toString" then ReturnsString
  else MemberThrows.

(** [Array.prototype.join]. *)
Fixpoint join (sep : string) (l : list string) : string :=
  match l with
  | [] => EmptyString
  | [x] => x
  | x :: rest => x +:+ sep +:+ join sep rest
  end.

(** The double-quote character, for template literals that contain it. *)
Definition dquote : string := String (ascii_of_nat 34) EmptyString.

(** Truthiness of an optional string: [undefined] and the empty string are
    falsy.  The result is the string when it is truthy. *)
Definition truthy (o : option string) : option string :=
  match o with
  | Some s => if String.eqb s EmptyString then None else Some s
  | None => None
  end.

(** Object spread: [{...target, ...source}] copies the own properties of
    [source] over those of [target]. *)
Definition objectSpread (target source : Context) : Context := source ∪ target.

(** [String.prototype.trim] strips WhiteSpace and LineTerminator code points
    from both ends, so [s.trim() === ''] holds exactly when [s] consists of
    such code points only.  The code points are U+0009..U+000D, U+0020,
    U+00A0, U+1680, U+2000..U+200A, U+2028, U+2029, U+202F, U+205F, U+3000
    and U+FEFF, matched here in their UTF-8 encoding. *)
Definition asciiWhiteSpace (n : nat) : bool :=
  ((9 <=? n)%nat && (n <=? 13)%nat) || (n =? 32)%nat.

Fixpoint trimIsEmpty (s : string) : bool :=
  match s with
  | EmptyString => true
  | String c rest =>
      let n := nat_of_ascii c in
      if asciiWhiteSpace n then trimIsEmpty rest
      else
        match rest with
        | String c1 rest1 =>
            let n1 := nat_of_ascii c1 in
            if (n =? 194)%nat && (n1 =? 160)%nat then trimIsEmpty rest1
            else
              match rest1 with
              | String c2 rest2 =>
                  let n2 := nat_of_ascii c2 in
                  if ((n =? 225)%nat && (n1 =? 154)%nat && (n2 =? 128)%nat)
                     || ((n =? 226)%nat && (n1 =? 128)%nat
                         && (((128 <=? n2)%nat && (n2 <=? 138)%nat)
                             || (n2 =? 168)%nat || (n2 =? 169)%nat
                             || (n2 =? 175)%nat))
                     || ((n =? 226)%nat && (n1 =? 129)%nat && (n2 =? 159)%nat)
                     || ((n =? 227)%nat && (n1 =? 128)%nat && (n2 =? 128)%nat)
                     || ((n =? 239)%nat && (n1 =? 187)%nat && (n2 =? 191)%nat)
                  then trimIsEmpty rest2
                  else false
              | EmptyString => false
              end
        | EmptyString => false
        end
  end.

(** ** spec/types.ts *)

Abbreviation GuardFn := (Context -> bool).

Abbreviation ActionFn := (Context -> Context).

(** The object form of a transition. *)
Record TransitionObject : Type := {
  target : string;
  guard : option string;
  action : option string;
  t_data : option Context
}.

(** [Transition]: a bare state name or the object form. *)
Inductive Transition : Type :=
| TargetName (name : string)
| TransitionDef (t : TransitionObject).

Record StateDefinition : Type := {
  on : option (JsRecord Transition);
  entry : option string;
  exit : option string
}.

(** A parse failure of [Schema.decodeUnknown]. *)
Definition ParseError : Type := string.

(** A schema, through the one operation the sources use. *)
Record Schema : Type := {
  decodeUnknown : Context -> ParseError + Context
}.

(** [ActorSpec].  The declared type makes [schema] mandatory; validateSpec
    tests for its absence all the same, so the field is optional here. *)
Record ActorSpec : Type := {
  spec_id : string;
  schema : option Schema;
  initial : string;
  states : JsRecord StateDefinition;
  guards : gmap string GuardFn;
  actions : gmap string ActionFn
}.

(** ** actor/types.ts, machine/types.ts, audit.ts *)

Record ExecuteCommand : Type := {
  cmd_actorType : string;
  cmd_actorId : string;
  cmd_event : string;
  cmd_data : option Context;
  cmd_actor : option string
}.

Record ActorState : Type := {
  as_id : string;
  actorType : string;
  state : string;
  context : Context;
  version : Z;
  createdAt : Z;
  updatedAt : Z
}.

(** The third argument of executeCommand. *)
Record Command : Type := {
  event : string;
  data : option Context
}.

Record TransitionResult : Type := {
  r_from : string;
  r_to : string;
  r_event : string;
  oldContext : Context;
  newContext : Context;
  timestamp : Z
}.

Inductive AuditResult : Type := success | failed.

Record AuditEntry : Type := {
  a_id : string;
  a_timestamp : Z;
  a_actorType : string;
  a_actorId : string;
  a_event : string;
  a_from : string;
  a_to : option string;
  a_actor : option string;
  a_data : option Context;
  a_action : option string;
  a_result : AuditResult;
  a_error : option string;
  a_duration : Z
}.

(** ** errors.ts *)

Inductive StorageOperation : Type := op_save | op_load | op_query | op_getHistory.

Inductive TaggedError : Type :=
| GuardFailedError (guard reason : string)
| TransitionNotAllowedError (from event : string) (available : list string)
| ValidationError (reason : string) (cause : ParseError)
| StorageError (backend : string) (operation : StorageOperation)
    (reason : option string)
| SpecError (reason : string)
| SpecNotFoundError (actorType : string) (availableSpecs : list string)
| InvalidStateError (state : string) (validStates : list string)
| GuardNotFoundError (guard : string)
| ActionNotFoundError (action : string)
| PolicyError (reason : string).

(** ** Effects *)

(** An exception thrown while the generator of an Effect runs: a TypeError
    with its message, or the TypeError of calling the member [member] of
    Object.prototype as a guard or an action (with no receiver, or, for
    [__proto__], a value that is no function). *)
Inductive Defect : Type :=
| TypeError (message : string)
| MemberTypeError (member : string).

Definition memberError (name : string) : Defect := MemberTypeError name.

(** How a run ends: with a result, with a typed failure, with a defect, or
    [Beyond]: the run goes on with a value that has no counterpart here (a
    working context that is a string, a target that is [undefined]), and
    nothing is said of what follows. *)
Inductive Exit (E A : Type) : Type :=
| Success (a : A)
| Failure (e : E)
| Die (d : Defect)
| Beyond.

Arguments Success {E A} a.
Arguments Failure {E A} e.
Arguments Die {E A} d.
Arguments Beyond {E A}.

(** What a run lets the outside observe: each call of a guard or action of
    the specification, with its argument and its result, and each console
    warning. *)
Inductive Observed : Type :=
| GuardCall (name : string) (arg : Context) (result : bool)
| ActionCall (name : string) (arg result : Context)
| ConsoleWarn (message : string).

Definition Eff (E A : Type) : Type := list Observed * Exit E A.

Definition succeed {E A : Type} (a : A) : Eff E A := ([], Success a).

Definition fail {E A : Type} (e : E) : Eff E A := ([], Failure e).

Definition die {E A : Type} (d : Defect) : Eff E A := ([], Die d).

Definition beyond {E A : Type} : Eff E A := ([], Beyond).

Definition observe {E : Type} (o : Observed) : Eff E unit := ([o], Success ()).

(** [yield*]: a failure or defect ends the generator. *)
Definition andThen {E A B : Type} (m : Eff E A) (k : A -> Eff E B) : Eff E B :=
  match m with
  | (tr, Success a) => let '(tr', r) := k a in (tr ++ tr', r)
  | (tr, Failure e) => (tr, Failure e)
  | (tr, Die d) => (tr, Die d)
  | (tr, Beyond) => (tr, Beyond)
  end.

#[global] Instance eff_ret {E : Type} : MRet (Eff E) := fun A a => succeed a.

#[global] Instance eff_bind {E : Type} : MBind (Eff E) :=
  fun A B k m => andThen m k.

Definition observed {E A : Type} (m : Eff E A) : list Observed := fst m.

Definition exitOf {E A : Type} (m : Eff E A) : Exit E A := snd m.

(** ** machine/transition.ts *)

(** [typeof transitionDef === 'string' ? { target: transitionDef } :
    transitionDef]. *)
Definition parseTransition (transitionDef : Transition) : TransitionObject :=
  match transitionDef with
  | TargetName name =>
      {| target := name; guard := None; action := None; t_data := None |}
  | TransitionDef t => t
  end.

(** Truthiness of [stateDef.on?.[event]]: absent entries and the empty
    string are falsy, an object is truthy. *)
Definition truthyTransition (o : option Transition) : option Transition :=
  match o with
  | Some (TargetName name) =>
      if String.eqb name EmptyString then None else Some (TargetName name)
  | Some (TransitionDef t) => Some (TransitionDef t)
  | None => None
  end.

(** [{...currentState.context, ...command.data}]; spreading [undefined]
    copies nothing. *)
Definition mergeContext (ctx : Context) (commandData : option Context) : Context :=
  objectSpread (objectSpread ∅ ctx) (default ∅ commandData).

Definition callGuard (name : string) (guardFn : GuardFn) (ctx : Context)
  : Eff TaggedError bool :=
  let guardPassed := guardFn ctx in
  observe (GuardCall name ctx guardPassed);; mret guardPassed.

Definition callAction (name : string) (actionFn : ActionFn) (ctx : Context)
  : Eff TaggedError Context :=
  let result := actionFn ctx in
  observe (ActionCall name ctx result);; mret result.

(** [spec.states[name]], as far as the sources read what it yields: a
    member of Object.prototype found under [name] is truthy and has no
    [on], [entry] or [exit]. *)
Definition stateLookup (spec : ActorSpec) (name : string) : option StateDefinition :=
  match prop name (states spec) with
  | Some stateDef => Some stateDef
  | None =>
      if inherited name
      then Some {| on := None; entry := None; exit := None |}
      else None
  end.

(** What [stateDef.on?.[event]] yields when it is truthy: a declared
    transition, or a member of Object.prototype. *)
Inductive TransitionValue : Type :=
| Declared (transitionDef : Transition)
| Member.

Definition eventLookup (stateDef : StateDefinition) (event0 : string)
  : option TransitionValue :=
  match on stateDef with
  | None => None
  | Some transitions =>
      match prop event0 transitions with
      | Some transitionDef => Declared <$> truthyTransition (Some transitionDef)
      | None => if inherited event0 then Some Member else None
      end
  end.

(** The block executeCommand repeats for the exit, transition and entry
    action: when the name is truthy, look it up in [spec.actions], fail
    with ActionNotFoundError when nothing is found, and replace the working
    context by the result of calling what was found. *)
Definition runAction (spec : ActorSpec) (name : option string) (newContext : Context)
  : Eff TaggedError Context :=
  match truthy name with
  | Some a =>
      match actions spec !! a with
      | Some actionFn => callAction a actionFn newContext
      | None =>
          if inherited a
          then match callMember a with
               | ReturnsArgument => mret newContext
               | ReturnsString => beyond
               | MemberThrows => die (memberError a)
               end
          else fail (ActionNotFoundError a)
      end
  | None => mret newContext
  end.

(** Step 3 of executeCommand: the guard, evaluated on the merged context. *)
Definition evaluateGuard (spec : ActorSpec) (transition : TransitionObject)
    (newContext : Context) : Eff TaggedError unit :=
  match truthy (guard transition) with
  | Some g =>
      match guards spec !! g with
      | Some guardFn =>
          callGuard g guardFn newContext ≫= fun guardPassed : bool =>
          if guardPassed then mret ()
          else fail (GuardFailedError g
                       ("Guard " +:+ dquote +:+ g +:+ dquote +:+ " evaluated to false"))
      | None =>
          if inherited g
          then match callMember g with
               | MemberThrows => die (memberError g)
               | _ => mret ()
               end
          else fail (GuardNotFoundError g)
      end
  | None => mret ()
  end.

(** Step 7 of executeCommand: [Schema.decodeUnknown(spec.schema)(newContext)]
    with its error mapped to ValidationError; the decoded value is dropped.
    A missing schema makes [decodeUnknown] throw. *)
Definition validateNewContext (spec : ActorSpec) (newContext : Context)
  : Eff TaggedError unit :=
  match schema spec with
  | None => die (TypeError "Cannot read properties of undefined (reading 'ast')")
  | Some sch =>
      match decodeUnknown sch newContext with
      | inl e => fail (ValidationError
                         "Context validation failed after action execution" e)
      | inr _ => mret ()
      end
  end.

(** [executeCommand(spec, currentState, command)]; [now] is the value of
    [new Date()] read when the result is built. *)
Definition executeCommand (spec : ActorSpec) (currentState : ActorState)
    (command : Command) (now : Z) : Eff TaggedError TransitionResult :=
  (* 1. Validate current state exists in spec *)
  match stateLookup spec (state currentState) with
  | None =>
      fail (InvalidStateError (state currentState) (Object_keys (states spec)))
  | Some stateDef =>
      (* 2. Get transition definition *)
      match eventLookup stateDef (event command) with
      | None =>
          let available := Object_keys (default [] (on stateDef)) in
          fail (TransitionNotAllowedError (state currentState) (event command)
                  available)
      | Some (Declared transitionDef) =>
          let transition := parseTransition transitionDef in
          let newContext := mergeContext (context currentState) (data command) in
          (* 3. Evaluate guard (if present) *)
          evaluateGuard spec transition newContext;;
          (* 4. Execute exit action (if present on current state) *)
          newContext ← runAction spec (exit stateDef) newContext;
          (* 5. Execute transition action (if present) *)
          newContext ← runAction spec (action transition) newContext;
          (* 6. Execute entry action (if present on new state) *)
          match stateLookup spec (target transition) with
          | None =>
              die (TypeError "Cannot read properties of undefined (reading 'entry')")
          | Some newStateDef =>
              newContext ← runAction spec (entry newStateDef) newContext;
              (* 7. Validate new context against schema *)
              validateNewContext spec newContext;;
              (* 8. Return transition result *)
              mret {| r_from := state currentState;
                      r_to := target transition;
                      r_event := event command;
                      oldContext := context currentState;
                      newContext := newContext;
                      timestamp := now |}
          end
      | Some Member =>
          (* The transition is a member of Object.prototype: its target,
             guard and action are undefined, and [spec.states[undefined]]
             reads the property named undefined. *)
          let newContext := mergeContext (context currentState) (data command) in
          newContext ← runAction spec (exit stateDef) newContext;
          match stateLookup spec "undefined" with
          | None =>
              die (TypeError "Cannot read properties of undefined (reading 'entry')")
          | Some newStateDef =>
              newContext ← runAction spec (entry newStateDef) newContext;
              validateNewContext spec newContext;;
              (* the result has [to: undefined] *)
              beyond
          end
      end
  end.

(** ** spec/validator.ts *)

(** A [for ... of] loop whose body may fail. *)
Fixpoint forEach {A : Type} (body : A -> Eff TaggedError unit) (l : list A)
  : Eff TaggedError unit :=
  match l with
  | [] => mret ()
  | x :: rest => body x;; forEach body rest
  end.

(** [m[k]] is truthy, for a record [m] of functions: [k] is an own
    property or the name of a member of Object.prototype. *)
Definition hasMember {V : Type} (m : gmap string V) (k : string) : bool :=
  bool_decide (is_Some (m !! k)) || inherited k.

Definition validateTransition (spec : ActorSpec) (transitionDef : Transition)
  : Eff TaggedError unit :=
  let transition := parseTransition transitionDef in
  (* Validate target state exists *)
  match truthy (Some (target transition)) with
  | Some t =>
      match stateLookup spec t with
      | None => fail (SpecError ("Transition target '" +:+ t
                                   +:+ "' does not exist in states"))
      | Some _ => mret ()
      end
  | None => mret ()
  end;;
  (* Validate guard exists *)
  match truthy (guard transition) with
  | Some g =>
      if hasMember (guards spec) g then mret ()
      else fail (GuardNotFoundError g)
  | None => mret ()
  end;;
  (* Validate action exists *)
  match truthy (action transition) with
  | Some a =>
      if hasMember (actions spec) a then mret ()
      else fail (ActionNotFoundError a)
  | None => mret ()
  end.

(** The entry and exit checks of validateStateDefinition: the declared type
    of [entry] and [exit] is a string, so the array is always the singleton. *)
Definition validateActionName (spec : ActorSpec) (name : option string)
  : Eff TaggedError unit :=
  match truthy name with
  | Some a =>
      forEach (fun action0 =>
                 if hasMember (actions spec) action0 then mret ()
                 else fail (ActionNotFoundError action0)) [a]
  | None => mret ()
  end.

Definition validateStateDefinition (spec : ActorSpec) (stateName : string)
    (stateDef : StateDefinition) : Eff TaggedError unit :=
  (* Validate entry actions *)
  validateActionName spec (entry stateDef);;
  (* Validate exit actions *)
  validateActionName spec (exit stateDef);;
  (* Validate transitions *)
  match on stateDef with
  | Some transitions => forEach (validateTransition spec) (Object_values transitions)
  | None => mret ()
  end.

Definition transitionTarget (transitionDef : Transition) : string :=
  match transitionDef with
  | TargetName name => name
  | TransitionDef t => target t
  end.

(** The targets one iteration of the reachability loop pushes on the queue. *)
Definition pushedTargets (spec : ActorSpec) (stateNames : list string)
    (reachableStates : gset string) (currentState : string) : list string :=
  match prop currentState (states spec) ≫= on with
  | Some transitions =>
      filter (fun t => (t ≠ EmptyString) ∧ (t ∉ reachableStates)
                       ∧ (includes stateNames t = true))
             (map transitionTarget (Object_values transitions))
  | None => []
  end.

(** The [while (queue.length > 0)] loop of step 5, run for at most [fuel]
    iterations. *)
Fixpoint reachabilityScan (fuel : nat) (spec : ActorSpec) (stateNames : list string)
    (queue : list string) (reachableStates : gset string) : gset string :=
  match fuel with
  | O => reachableStates
  | S fuel' =>
      match queue with
      | [] => reachableStates
      | currentState :: queue' =>
          if bool_decide (currentState ∈ reachableStates)
          then reachabilityScan fuel' spec stateNames queue' reachableStates
          else
            let reachableStates' := {[currentState]} ∪ reachableStates in
            reachabilityScan fuel' spec stateNames
              (queue' ++ pushedTargets spec stateNames reachableStates' currentState)
              reachableStates'
      end
  end.

(** Number of outgoing transitions of a named state. *)
Definition outDegree (spec : ActorSpec) (stateName : string) : nat :=
  match prop stateName (states spec) ≫= on with
  | Some transitions => length transitions
  | None => O
  end.

(** Enough iterations for the loop to empty its queue (lemma
    [reachabilityScan_fuel]). *)
Definition scanFuel (spec : ActorSpec) (stateNames : list string) : nat :=
  S (sum_list_with (fun name => S (outDegree spec name)) stateNames).

Definition validateSpec (spec : ActorSpec) : Eff TaggedError unit :=
  (* 1. Validate ID *)
  if String.eqb (spec_id spec) EmptyString || trimIsEmpty (spec_id spec)
  then fail (SpecError "Actor spec must have a non-empty string ID")
  else
    (* 2. Validate schema exists *)
    match schema spec with
    | None => fail (SpecError "Actor spec must have a schema")
    | Some _ =>
        (* 3. Validate initial state exists *)
        let stateNames := Object_keys (states spec) in
        if negb (includes stateNames (initial spec))
        then fail (InvalidStateError (initial spec) stateNames)
        else
          (* 4. Validate all state definitions *)
          forEach (fun stateName =>
                     match prop stateName (states spec) with
                     | None => mret ()
                     | Some stateDef =>
                         validateStateDefinition spec stateName stateDef
                     end) stateNames;;
          (* 5. Check for unreachable states *)
          let reachableStates :=
            reachabilityScan (scanFuel spec stateNames) spec stateNames
              [initial spec] ∅ in
          let unreachableStates :=
            filter (fun name => name ∉ reachableStates) stateNames in
          match unreachableStates with
          | [] => mret ()
          | _ :: _ =>
              observe (ConsoleWarn ("Warning: Unreachable states found: "
                                      +:+ join ", " unreachableStates))
          end
    end.

(** ** spec/registry.ts *)

(** [Map.prototype.set] on an insertion-ordered map: an existing key keeps
    its position. *)
Fixpoint mapSet {V : Type} (k : string) (v : V) (m : JsRecord V) : JsRecord V :=
  match m with
  | [] => [(k, v)]
  | (k', v') :: rest =>
      if String.eqb k' k then (k, v) :: rest else (k', v') :: mapSet k v rest
  end.

Module SpecRegistry.

Definition register (spec : ActorSpec) (specs : JsRecord ActorSpec)
  : JsRecord ActorSpec :=
  mapSet (spec_id spec) spec specs.

Definition get (specs : JsRecord ActorSpec) (id : string)
  : Exit TaggedError ActorSpec :=
  match prop id specs with
  | Some spec => Success spec
  | None => Failure (SpecNotFoundError id (Object_keys specs))
  end.

Definition has (specs : JsRecord ActorSpec) (id : string) : bool :=
  bool_decide (is_Some (prop id specs)).

Definition all (specs : JsRecord ActorSpec) : list ActorSpec :=
  Object_values specs.

End SpecRegistry.

(** ** providers/storage.ts *)

(** A computation over a store: the store it leaves and its exit. *)
Definition Stored (S A : Type) : Type := S -> S * Exit TaggedError A.

#[global] Instance stored_ret {S : Type} : MRet (Stored S) :=
  fun A a s => (s, Success a).

#[global] Instance stored_bind {S : Type} : MBind (Stored S) :=
  fun A B k m s =>
    match m s with
    | (s', Success a) => k a s'
    | (s', Failure e) => (s', Failure e)
    | (s', Die d) => (s', Die d)
    | (s', Beyond) => (s', Beyond)
    end.

(** The part of [StorageProviderApi] the service's execute, query and
    canTransition use.  [load] reads; [save] may replace the store. *)
Class StorageProviderApi (S : Type) : Type := {
  save : string -> string -> ActorState -> AuditEntry -> Stored S unit;
  load : string -> string -> S -> Exit TaggedError ActorState
}.

(** ** test-utils/mock-providers.ts *)

Record MockStorage : Type := {
  actors : gmap string ActorState;
  audits : gmap string (list AuditEntry)
}.

Definition getKey (actorType0 actorId : string) : string :=
  actorType0 +:+ ":" +:+ actorId.

Definition mockSave (actorType0 actorId : string) (st : ActorState)
    (audit : AuditEntry) : Stored MockStorage unit :=
  fun s =>
    let key := getKey actorType0 actorId in
    let existing := default [] (audits s !! key) in
    ({| actors := <[key := st]> (actors s);
        audits := <[key := audit :: existing]> (audits s) |}, Success ()).

Definition mockLoad (actorType0 actorId : string) (s : MockStorage)
  : Exit TaggedError ActorState :=
  let key := getKey actorType0 actorId in
  match actors s !! key with
  | None => Failure (StorageError "mock" op_load (Some ("Actor not found: " +:+ key)))
  | Some st => Success st
  end.

#[global] Instance createMockStorage : StorageProviderApi MockStorage := {
  save := mockSave;
  load := mockLoad
}.

(** ** actor/service.ts *)

Record TransitionCheck : Type := {
  allowed : bool;
  reason : option string;
  tc_target : option string
}.

(** What one call of execute reads from its environment: [new Date()] at its
    start, [new Date()] inside executeCommand, [crypto.randomUUID()] and
    [Date.now()] when the audit entry is built. *)
Record Readings : Type := {
  startTime : Z;
  resultTime : Z;
  randomUUID : string;
  endTime : Z
}.

Section Service.

Context {S : Type} `{StorageProviderApi S}.

(** The registered specifications. *)
Variable specs : JsRecord ActorSpec.

Definition fromExit {A : Type} (r : Exit TaggedError A) : Stored S A :=
  fun s => (s, r).

(** [storage.load] as a step of a service method. *)
Definition storageLoad (actorType0 actorId : string) : Stored S ActorState :=
  fun s => (s, load actorType0 actorId s).

(** [Effect.orElse]: a typed failure is replaced by the alternative; a
    defect is not caught. *)
Definition orElse {A : Type} (m : Stored S A) (that : unit -> Stored S A)
  : Stored S A :=
  fun s =>
    match m s with
    | (s', Failure _) => that () s'
    | r => r
    end.

(** [Effect.catchAll]: as orElse, the handler receiving the error. *)
Definition catchAll {A : Type} (m : Stored S A) (handler : TaggedError -> Stored S A)
  : Stored S A :=
  fun s =>
    match m s with
    | (s', Failure e) => handler e s'
    | r => r
    end.

(** The state execute synthesizes for an entity it cannot load. *)
Definition initialState (command : ExecuteCommand) (spec : ActorSpec)
    (startTime0 : Z) : ActorState :=
  {| as_id := cmd_actorId command;
     actorType := cmd_actorType command;
     state := initial spec;
     context := ∅;
     version := 0;
     createdAt := startTime0;
     updatedAt := startTime0 |}.

Definition buildNewState (currentState : ActorState) (result : TransitionResult)
    (startTime0 : Z) : ActorState :=
  {| as_id := as_id currentState;
     actorType := actorType currentState;
     state := r_to result;
     context := newContext result;
     version := version currentState + 1;
     createdAt := createdAt currentState;
     updatedAt := startTime0 |}.

Definition buildAuditEntry (command : ExecuteCommand) (currentState : ActorState)
    (result : TransitionResult) (env : Readings) : AuditEntry :=
  {| a_id := randomUUID env;
     a_timestamp := startTime env;
     a_actorType := cmd_actorType command;
     a_actorId := cmd_actorId command;
     a_event := cmd_event command;
     a_from := state currentState;
     a_to := Some (r_to result);
     a_actor := cmd_actor command;
     a_data := cmd_data command;
     a_action := None;
     a_result := success;
     a_error := None;
     a_duration := endTime env - startTime env |}.

(** [ActorService.execute]. *)
Definition execute (command : ExecuteCommand) (env : Readings)
  : Stored S TransitionResult :=
  let startTime0 := startTime env in
  (* 1. Get spec *)
  spec ← fromExit (SpecRegistry.get specs (cmd_actorType command));
  (* 2. Load or initialize state *)
  currentState ←
    orElse (storageLoad (cmd_actorType command) (cmd_actorId command))
           (fun _ => mret (initialState command spec startTime0));
  (* 3. Execute transition *)
  result ← fromExit (exitOf (executeCommand spec currentState
                               {| event := cmd_event command;
                                  data := cmd_data command |}
                               (resultTime env)));
  (* 4. Persist new state *)
  let newState := buildNewState currentState result startTime0 in
  let auditEntry := buildAuditEntry command currentState result env in
  save (cmd_actorType command) (cmd_actorId command) newState auditEntry;;
  mret result.

(** [ActorServiceLive.execute]: the initial state is built before the
    load and substituted by catchAll; its console logging is left out. *)
Definition executeLive (command : ExecuteCommand) (env : Readings)
  : Stored S TransitionResult :=
  let startTime0 := startTime env in
  spec ← fromExit (SpecRegistry.get specs (cmd_actorType command));
  let initialState0 := initialState command spec startTime0 in
  currentState ←
    catchAll (storageLoad (cmd_actorType command) (cmd_actorId command))
             (fun _ => mret initialState0);
  result ← fromExit (exitOf (executeCommand spec currentState
                               {| event := cmd_event command;
                                  data := cmd_data command |}
                               (resultTime env)));
  let newState := buildNewState currentState result startTime0 in
  let auditEntry := buildAuditEntry command currentState result env in
  save (cmd_actorType command) (cmd_actorId command) newState auditEntry;;
  mret result.

(** [query]. *)
Definition query (actorType0 actorId : string) : Stored S ActorState :=
  spec ← fromExit (SpecRegistry.get specs actorType0);
  st ← storageLoad actorType0 actorId;
  let validStates := Object_keys (states spec) in
  if negb (includes validStates (state st))
  then fromExit (Failure (InvalidStateError (state st) validStates))
  else mret st.

(** [canTransition], the same text in ActorService and ActorServiceLive. *)
Definition canTransition (actorType0 actorId event0 : string)
  : Stored S TransitionCheck :=
  spec ← fromExit (SpecRegistry.get specs actorType0);
  st ← storageLoad actorType0 actorId;
  let transition0 :=
    match stateLookup spec (state st) with
    | Some stateDef => eventLookup stateDef event0
    | None => None
    end in
  match transition0 with
  | None =>
      mret {| allowed := false;
              reason := Some ("Event " +:+ dquote +:+ event0 +:+ dquote
                              +:+ " not allowed from state " +:+ dquote
                              +:+ state st +:+ dquote);
              tc_target := None |}
  | Some Member =>
      (* a member of Object.prototype: no guard, and no target *)
      mret {| allowed := true; reason := None; tc_target := None |}
  | Some (Declared transition) =>
      (* Handle string transitions *)
      let transitionDef := parseTransition transition in
      let isAllowed : Stored S TransitionCheck :=
        mret {| allowed := true;
                reason := None;
                tc_target := Some (target transitionDef) |} in
      (* Check guard if present *)
      match truthy (guard transitionDef) with
      | Some g =>
          match guards spec !! g with
          | Some guardFn =>
              if negb (guardFn (context st))
              then mret {| allowed := false;
                           reason := Some ("Guard " +:+ dquote +:+ g +:+ dquote
                                           +:+ " fails");
                           tc_target := None |}
              else isAllowed
          | None =>
              if inherited g
              then match callMember g with
                   | MemberThrows => fromExit (Die (memberError g))
                   | _ => isAllowed
                   end
              else isAllowed
          end
      | None => isAllowed
      end
  end.

End Service.

(** Record update on a specification: [{ ...spec, field: value }]. *)
Definition withStates (spec : ActorSpec) (sts : JsRecord StateDefinition) : ActorSpec :=
  {| spec_id := spec_id spec; schema := schema spec; initial := initial spec;
     states := sts; guards := guards spec; actions := actions spec |}.

Definition withActions (spec : ActorSpec) (acts : gmap string ActionFn) : ActorSpec :=
  {| spec_id := spec_id spec; schema := schema spec; initial := initial spec;
     states := states spec; guards := guards spec; actions := acts |}.

Definition withSchema (spec : ActorSpec) (sch : option Schema) : ActorSpec :=
  {| spec_id := spec_id spec; schema := sch; initial := initial spec;
     states := states spec; guards := guards spec; actions := actions spec |}.

Definition withId (spec : ActorSpec) (id : string) : ActorSpec :=
  {| spec_id := id; schema := schema spec; initial := initial spec;
     states := states spec; guards := guards spec; actions := actions spec |}.

Definition withInitial (spec : ActorSpec) (name : string) : ActorSpec :=
  {| spec_id := spec_id spec; schema := schema spec; initial := name;
     states := states spec; guards := guards spec; actions := actions spec |}.

(** ** Fixtures

    The specification of machine/transition.test.ts (createTestSpec), with
    the variants its tests build from it. *)

Module TestSpec.

(** [Schema.Struct({ count: Schema.Number, message:
    Schema.optional(Schema.String) })]: decoding checks the two fields
    and keeps only them. *)
Definition TestSchema : Schema :=
  {| decodeUnknown := fun ctx =>
       match ctx !! "count" with
       | Some (JNum n) =>
           match ctx !! "message" with
           | None => inr {["count" := JNum n]}
           | Some (JStr s) => inr (<["message" := JStr s]> {["count" := JNum n]})
           | Some _ => inl "message: expected string"
           end
       | _ => inl "count: expected number"
       end |}.

(** [ctx.count > 0] *)
Definition canStart : GuardFn := fun ctx =>
  match ctx !! "count" with
  | Some (JNum n) => 0 <? n
  | _ => false
  end.

(** [{ ...ctx, count: ctx.count + 1 }] on the contexts of its type
    [TestContext], whose count is a number.  The sum of anything else and 1
    is no number of this model; it is written as JSON writes it. *)
Definition increment : ActionFn := fun ctx =>
  match ctx !! "count" with
  | Some (JNum n) => <["count" := JNum (n + 1)]> ctx
  | _ => <["count" := JNull]> ctx
  end.

(** [{ ...ctx, message: 'exited' }] *)
Definition onExit : ActionFn := fun ctx => <["message" := JStr "exited"]> ctx.

(** [{ ...ctx, message: 'entered' }] *)
Definition onEntry : ActionFn := fun ctx => <["message" := JStr "entered"]> ctx.

Definition transitionTo (t : string) (g a : option string) : Transition :=
  TransitionDef {| target := t; guard := g; action := a; t_data := None |}.

Definition createTestSpec : ActorSpec :=
  {| spec_id := "test-spec";
     schema := Some TestSchema;
     initial := "idle";
     states :=
       [ ("idle", {| on := Some [ ("START", TargetName "active");
                                  ("START_WITH_GUARD",
                                   transitionTo "active" (Some "canStart") None);
                                  ("START_WITH_ACTION",
                                   transitionTo "active" None (Some "increment")) ];
                     entry := None; exit := None |});
         ("active", {| on := Some [ ("COMPLETE",
                                     transitionTo "done" None (Some "increment")) ];
                       entry := None; exit := Some "onExit" |});
         ("done", {| on := None; entry := Some "onEntry"; exit := None |}) ];
     guards := {[ "canStart" := canStart ]};
     actions := <["increment" := increment]>
                  (<["onExit" := onExit]> {[ "onEntry" := onEntry ]}) |}.

(** The state the tests start from: [{ id: 'test-1', actorType: 'test',
    state, context: { count }, version: 0, ... }]. *)
Definition stateAt (name : string) (count : Z) : ActorState :=
  {| as_id := "test-1"; actorType := "test"; state := name;
     context := {["count" := JNum count]}; version := 0;
     createdAt := 0; updatedAt := 0 |}.

Definition send (name : string) : Command := {| event := name; data := None |}.

(** The specification of the test of a missing guard. *)
Definition missingGuardSpec : ActorSpec :=
  withStates createTestSpec
    [ ("idle", {| on := Some [ ("START",
                                transitionTo "active" (Some "nonExistentGuard") None) ];
                  entry := None; exit := None |});
      ("active", {| on := None; entry := None; exit := None |}) ].

(** The specification of the test of a missing action. *)
Definition missingActionSpec : ActorSpec :=
  withStates createTestSpec
    [ ("idle", {| on := Some [ ("START",
                                transitionTo "active" None (Some "nonExistentAction")) ];
                  entry := None; exit := None |});
      ("active", {| on := None; entry := None; exit := None |}) ].

(** A transition to a state the specification does not declare. *)
Definition danglingTargetSpec : ActorSpec :=
  withStates createTestSpec
    [ ("idle", {| on := Some [ ("START", TargetName "nowhere") ];
                  entry := None; exit := None |}) ].

(** The specification of the test of an action that breaks the schema:
    increment returns [{ count: 'invalid' }]. *)
Definition invalidContextSpec : ActorSpec :=
  withActions createTestSpec
    (<["increment" := fun _ => {["count" := JStr "invalid"]}]>
       (actions createTestSpec)).

(** A guarded transition that also carries an action. *)
Definition guardedActionSpec : ActorSpec :=
  withStates createTestSpec
    [ ("idle", {| on := Some [ ("GO", transitionTo "active" (Some "canStart")
                                        (Some "increment")) ];
                  entry := None; exit := Some "onExit" |});
      ("active", {| on := None; entry := Some "onEntry"; exit := None |}) ].

End TestSpec.

(** ** Vocabulary of the properties *)

(** The optional action name [name] stands for the transformer [f]: the
    action it resolves to in [spec.actions], or the identity when the name
    is absent or empty. *)
Definition ActionResolves (spec : ActorSpec) (name : option string) (f : ActionFn)
  : Prop :=
  match truthy name with
  | Some a => actions spec !! a = Some f
  | None => f = (fun ctx => ctx)
  end.

(** What running the optional action [name] lets observe. *)
Definition actionObserved (name : option string) (f : ActionFn) (ctx : Context)
  : list Observed :=
  match truthy name with
  | Some a => [ActionCall a ctx (f ctx)]
  | None => []
  end.

(** The transition has no guard, or its guard resolves and holds of [ctx]. *)
Definition GuardPasses (spec : ActorSpec) (transition : TransitionObject)
    (ctx : Context) : Prop :=
  match truthy (guard transition) with
  | Some g => exists guardFn, guards spec !! g = Some guardFn /\ guardFn ctx = true
  | None => True
  end.

Definition guardObserved (transition : TransitionObject) (ctx : Context)
  : list Observed :=
  match truthy (guard transition) with
  | Some g => [GuardCall g ctx true]
  | None => []
  end.

(** The transition has no guard, or its guard resolves in [spec.guards]. *)
Definition GuardResolves (spec : ActorSpec) (transition : TransitionObject) : Prop :=
  match truthy (guard transition) with
  | Some g => is_Some (guards spec !! g)
  | None => True
  end.

(** The transition executeCommand selects for an event in a state. *)
Definition selectedTransition (spec : ActorSpec) (stateName event0 : string)
  : option TransitionObject :=
  stateDef ← prop stateName (states spec);
  parseTransition <$> truthyTransition (on stateDef ≫= prop event0).




(** An exit that got past steps 1 to 5 of the executor: it is none of the
    failures those steps raise. *)
Definition passedGuardSteps {A : Type} (r : Exit TaggedError A) : bool :=
  match r with
  | Failure (InvalidStateError _ _) => false
  | Failure (TransitionNotAllowedError _ _ _) => false
  | Failure (GuardNotFoundError _) => false
  | Failure (GuardFailedError _ _) => false
  | _ => true
  end.

(** The working context a run ended with, read off what it let observe: the
    result of the last action called, or [start] when none was. *)
Definition lastActionResult (start : Context) (obs : list Observed) : Context :=
  fold_left (fun acc o =>
               match o with
               | ActionCall _ _ result => result
               | _ => acc
               end) obs start.

(** The actions a run called, in order. *)
Definition actionCalls (obs : list Observed) : list string :=
  omap (fun o => match o with ActionCall name _ _ => Some name | _ => None end) obs.

(** The run ends with neither a value nor a typed failure. *)
Definition isDefect {E A : Type} (r : Exit E A) : bool :=
  match r with
  | Success _ | Failure _ => false
  | _ => true
  end.

(** A storage whose every load fails for a reason other than absence, and
    which records what is saved. *)
Definition corruptLoad : TaggedError :=
  StorageError "fs-json" op_load (Some "Failed to parse JSON: SyntaxError").

Definition CorruptStorage : StorageProviderApi (list (ActorState * AuditEntry)) :=
  {| save := fun _ _ st audit s => (s ++ [(st, audit)], Success ());
     load := fun _ _ _ => Failure corruptLoad |}.

(** A schema that rejects every context. *)
Definition rejectAll : Schema := {| decodeUnknown := fun _ => inl "rejected" |}.

(** A schema whose decoding fills in a default for a missing message. *)
Definition defaultingSchema : Schema :=
  {| decodeUnknown := fun ctx =>
       match ctx !! "message" with
       | Some _ => inr ctx
       | None => inr (<["message" := JStr "none"]> ctx)
       end |}.

(** The test specification with a schema that accepts nothing. *)
Definition rejectingSpec : ActorSpec :=
  withSchema TestSpec.createTestSpec (Some rejectAll).

(** How a step stops a run: with a typed failure, with a defect, or by
    leaving the values represented here. *)
Inductive Stop : Type :=
| StopFailure (e : TaggedError)
| StopDie (d : Defect)
| StopBeyond.

Definition stopExit {A : Type} (stop : Stop) : Exit TaggedError A :=
  match stop with
  | StopFailure e => Failure e
  | StopDie d => Die d
  | StopBeyond => Beyond
  end.

(** How the guard step stops the run on [ctx], if it does: the guard is
    declared and false of [ctx], its name finds nothing, or it finds a
    member of Object.prototype whose call throws. *)
Definition guardStop (spec : ActorSpec) (transition : TransitionObject)
    (ctx : Context) : option Stop :=
  match truthy (guard transition) with
  | Some g =>
      match guards spec !! g with
      | Some guardFn =>
          if negb (guardFn ctx)
          then Some (StopFailure
                       (GuardFailedError g
                          ("Guard " +:+ dquote +:+ g +:+ dquote
                           +:+ " evaluated to false")))
          else None
      | None =>
          if inherited g
          then match callMember g with
               | MemberThrows => Some (StopDie (memberError g))
               | _ => None
               end
          else Some (StopFailure (GuardNotFoundError g))
      end
  | None => None
  end.

(** The call of a declared guard, as the run lets it observe. *)
Definition guardCalls (spec : ActorSpec) (transition : TransitionObject)
    (ctx : Context) : list Observed :=
  match truthy (guard transition) with
  | Some g =>
      match guards spec !! g with
      | Some guardFn => [GuardCall g ctx (guardFn ctx)]
      | None => []
      end
  | None => []
  end.

(** How the step of the optional action [name] stops the run, if it does:
    the name finds nothing, or it finds a member of Object.prototype whose
    call throws or returns a string. *)
Definition actionStop (spec : ActorSpec) (name : option string) : option Stop :=
  match truthy name with
  | Some a =>
      match actions spec !! a with
      | Some _ => None
      | None =>
          if inherited a
          then match callMember a with
               | ReturnsArgument => None
               | ReturnsString => Some StopBeyond
               | MemberThrows => Some (StopDie (memberError a))
               end
          else Some (StopFailure (ActionNotFoundError a))
      end
  | None => None
  end.

(** The transformer the optional action [name] runs as when its step does
    not stop the run: the declared action, or the identity (no name, or
    [Object]). *)
Definition actionOf (spec : ActorSpec) (name : option string) : ActionFn :=
  match truthy name with
  | Some a =>
      match actions spec !! a with
      | Some actionFn => actionFn
      | None => fun ctx => ctx
      end
  | None => fun ctx => ctx
  end.

(** The call of a declared action, as the run lets it observe. *)
Definition actionCallsOf (spec : ActorSpec) (name : option string) (ctx : Context)
  : list Observed :=
  match truthy name with
  | Some a =>
      match actions spec !! a with
      | Some actionFn => [ActionCall a ctx (actionFn ctx)]
      | None => []
      end
  | None => []
  end.

(** The exit of a run that got through all its steps with the working
    context [final]: the schema decides. *)
Definition gateExit (spec : ActorSpec) (final : Context)
    (through : Exit TaggedError TransitionResult) : Exit TaggedError TransitionResult :=
  match schema spec with
  | None => Die (TypeError "Cannot read properties of undefined (reading 'ast')")
  | Some sch =>
      match decodeUnknown sch final with
      | inl e => Failure (ValidationError
                            "Context validation failed after action execution" e)
      | inr _ => through
      end
  end.

(** The ways a run of executeCommand can go, one constructor for each place
    where the function returns, fails or throws; the last four are the runs
    on an event that finds a member of Object.prototype. *)
Inductive ExecutionCase (spec : ActorSpec) (currentState : ActorState)
    (command : Command) (now : Z) : Eff TaggedError TransitionResult -> Prop :=
| InvalidStateCase :
    stateLookup spec (state currentState) = None ->
    ExecutionCase spec currentState command now
      ([], Failure (InvalidStateError (state currentState)
                      (Object_keys (states spec))))
| NotAllowedCase (stateDef : StateDefinition) :
    stateLookup spec (state currentState) = Some stateDef ->
    eventLookup stateDef (event command) = None ->
    ExecutionCase spec currentState command now
      ([], Failure (TransitionNotAllowedError (state currentState) (event command)
                      (Object_keys (default [] (on stateDef)))))
| GuardStopsCase (stateDef : StateDefinition) (transitionDef : Transition)
    (stop : Stop) :
    let transition := parseTransition transitionDef in
    let merged := mergeContext (context currentState) (data command) in
    stateLookup spec (state currentState) = Some stateDef ->
    eventLookup stateDef (event command) = Some (Declared transitionDef) ->
    guardStop spec transition merged = Some stop ->
    ExecutionCase spec currentState command now
      (guardCalls spec transition merged, stopExit stop)
| ExitStopsCase (stateDef : StateDefinition) (transitionDef : Transition)
    (stop : Stop) :
    let transition := parseTransition transitionDef in
    let merged := mergeContext (context currentState) (data command) in
    stateLookup spec (state currentState) = Some stateDef ->
    eventLookup stateDef (event command) = Some (Declared transitionDef) ->
    guardStop spec transition merged = None ->
    actionStop spec (exit stateDef) = Some stop ->
    ExecutionCase spec currentState command now
      (guardCalls spec transition merged, stopExit stop)
| ActionStopsCase (stateDef : StateDefinition) (transitionDef : Transition)
    (stop : Stop) :
    let transition := parseTransition transitionDef in
    let merged := mergeContext (context currentState) (data command) in
    stateLookup spec (state currentState) = Some stateDef ->
    eventLookup stateDef (event command) = Some (Declared transitionDef) ->
    guardStop spec transition merged = None ->
    actionStop spec (exit stateDef) = None ->
    actionStop spec (action transition) = Some stop ->
    ExecutionCase spec currentState command now
      (guardCalls spec transition merged
       ++ actionCallsOf spec (exit stateDef) merged,
       stopExit stop)
| TargetMissingCase (stateDef : StateDefinition) (transitionDef : Transition) :
    let transition := parseTransition transitionDef in
    let merged := mergeContext (context currentState) (data command) in
    let afterExit := actionOf spec (exit stateDef) merged in
    stateLookup spec (state currentState) = Some stateDef ->
    eventLookup stateDef (event command) = Some (Declared transitionDef) ->
    guardStop spec transition merged = None ->
    actionStop spec (exit stateDef) = None ->
    actionStop spec (action transition) = None ->
    stateLookup spec (target transition) = None ->
    ExecutionCase spec currentState command now
      (guardCalls spec transition merged
       ++ actionCallsOf spec (exit stateDef) merged
       ++ actionCallsOf spec (action transition) afterExit,
       Die (TypeError "Cannot read properties of undefined (reading 'entry')"))
| EntryStopsCase (stateDef newStateDef : StateDefinition)
    (transitionDef : Transition) (stop : Stop) :
    let transition := parseTransition transitionDef in
    let merged := mergeContext (context currentState) (data command) in
    let afterExit := actionOf spec (exit stateDef) merged in
    stateLookup spec (state currentState) = Some stateDef ->
    eventLookup stateDef (event command) = Some (Declared transitionDef) ->
    guardStop spec transition merged = None ->
    actionStop spec (exit stateDef) = None ->
    actionStop spec (action transition) = None ->
    stateLookup spec (target transition) = Some newStateDef ->
    actionStop spec (entry newStateDef) = Some stop ->
    ExecutionCase spec currentState command now
      (guardCalls spec transition merged
       ++ actionCallsOf spec (exit stateDef) merged
       ++ actionCallsOf spec (action transition) afterExit,
       stopExit stop)
| ValidatedCase (stateDef newStateDef : StateDefinition)
    (transitionDef : Transition) :
    let transition := parseTransition transitionDef in
    let merged := mergeContext (context currentState) (data command) in
    let afterExit := actionOf spec (exit stateDef) merged in
    let afterAction := actionOf spec (action transition) afterExit in
    let final := actionOf spec (entry newStateDef) afterAction in
    stateLookup spec (state currentState) = Some stateDef ->
    eventLookup stateDef (event command) = Some (Declared transitionDef) ->
    guardStop spec transition merged = None ->
    actionStop spec (exit stateDef) = None ->
    actionStop spec (action transition) = None ->
    stateLookup spec (target transition) = Some newStateDef ->
    actionStop spec (entry newStateDef) = None ->
    ExecutionCase spec currentState command now
      (guardCalls spec transition merged
       ++ actionCallsOf spec (exit stateDef) merged
       ++ actionCallsOf spec (action transition) afterExit
       ++ actionCallsOf spec (entry newStateDef) afterAction,
       gateExit spec final
         (Success {| r_from := state currentState;
                     r_to := target transition;
                     r_event := event command;
                     oldContext := context currentState;
                     newContext := final;
                     timestamp := now |}))
| MemberExitStopsCase (stateDef : StateDefinition) (stop : Stop) :
    stateLookup spec (state currentState) = Some stateDef ->
    eventLookup stateDef (event command) = Some Member ->
    actionStop spec (exit stateDef) = Some stop ->
    ExecutionCase spec currentState command now ([], stopExit stop)
| MemberTargetMissingCase (stateDef : StateDefinition) :
    let merged := mergeContext (context currentState) (data command) in
    stateLookup spec (state currentState) = Some stateDef ->
    eventLookup stateDef (event command) = Some Member ->
    actionStop spec (exit stateDef) = None ->
    stateLookup spec "undefined" = None ->
    ExecutionCase spec currentState command now
      (actionCallsOf spec (exit stateDef) merged,
       Die (TypeError "Cannot read properties of undefined (reading 'entry')"))
| MemberEntryStopsCase (stateDef newStateDef : StateDefinition) (stop : Stop) :
    let merged := mergeContext (context currentState) (data command) in
    stateLookup spec (state currentState) = Some stateDef ->
    eventLookup stateDef (event command) = Some Member ->
    actionStop spec (exit stateDef) = None ->
    stateLookup spec "undefined" = Some newStateDef ->
    actionStop spec (entry newStateDef) = Some stop ->
    ExecutionCase spec currentState command now
      (actionCallsOf spec (exit stateDef) merged, stopExit stop)
| MemberValidatedCase (stateDef newStateDef : StateDefinition) :
    let merged := mergeContext (context currentState) (data command) in
    let afterExit := actionOf spec (exit stateDef) merged in
    let final := actionOf spec (entry newStateDef) afterExit in
    stateLookup spec (state currentState) = Some stateDef ->
    eventLookup stateDef (event command) = Some Member ->
    actionStop spec (exit stateDef) = None ->
    stateLookup spec "undefined" = Some newStateDef ->
    actionStop spec (entry newStateDef) = None ->
    ExecutionCase spec currentState command now
      (actionCallsOf spec (exit stateDef) merged
       ++ actionCallsOf spec (entry newStateDef) afterExit,
       gateExit spec final Beyond).


(** The test specification with a missing initial state and an identifier
    made of one space. *)
Definition blankIdSpec : ActorSpec :=
  withId (withInitial TestSpec.createTestSpec "missing") " ".

(** A specification with a missing initial state and a dangling guard. *)
Definition missingInitialSpec : ActorSpec :=
  withInitial TestSpec.missingGuardSpec "missing".

Section ServiceVocabulary.

Context {S : Type} `{StorageProviderApi S}.

(** Steps 3 to 5 of execute from a given current state: run the
    transition, then save the new state with its audit entry. *)
Definition proceedFrom (spec : ActorSpec) (currentState : ActorState)
    (command : ExecuteCommand) (env : Readings) : Stored S TransitionResult :=
  result ← fromExit (exitOf (executeCommand spec currentState
                               {| event := cmd_event command;
                                  data := cmd_data command |}
                               (resultTime env)));
  save (cmd_actorType command) (cmd_actorId command)
    (buildNewState currentState result (startTime env))
    (buildAuditEntry command currentState result env);;
  mret result.

End ServiceVocabulary.

(** A registry holding one specification. *)
Definition registryOf (spec : ActorSpec) : JsRecord ActorSpec :=
  SpecRegistry.register spec [].

Definition startCommand : ExecuteCommand :=
  {| cmd_actorType := "test-spec"; cmd_actorId := "test-1"; cmd_event := "START";
     cmd_data := Some {["count" := JNum 0]}; cmd_actor := None |}.

Definition testReadings : Readings :=
  {| startTime := 1000; resultTime := 1001;
     randomUUID := "mock-uuid-1234-5678-9abc-def012345678"; endTime := 1002 |}.

Definition emptyMock : MockStorage := {| actors := ∅; audits := ∅ |}.

(** A mock storage that holds one entity. *)
Definition mockWith (actorType0 actorId : string) (st : ActorState) : MockStorage :=
  {| actors := {[ getKey actorType0 actorId := st ]}; audits := ∅ |}.

(** What the reachability loop still has to do: the queue to empty, and
    for every state not reached yet one iteration and its pushes. *)
Definition scanMeasure (spec : ActorSpec) (stateNames queue : list string)
    (reachableStates : gset string) : nat :=
  (length queue
   + sum_list_with (fun name => S (outDegree spec name))
       (filter (fun name => name ∉ reachableStates) stateNames))%nat.

(** A sequence of execute calls on the mock, each with its readings. *)
Definition executeAll (specs : JsRecord ActorSpec)
    (calls : list (ExecuteCommand * Readings)) (s : MockStorage) : MockStorage :=
  fold_left (fun s0 call => fst (execute specs (fst call) (snd call) s0)) calls s.

(** No call of the sequence leaves the values represented here. *)
Fixpoint RunsRepresented (specs : JsRecord ActorSpec)
    (calls : list (ExecuteCommand * Readings)) (s : MockStorage) : Prop :=
  match calls with
  | [] => True
  | call :: rest =>
      snd (execute specs (fst call) (snd call) s) <> Beyond
      /\ RunsRepresented specs rest (fst (execute specs (fst call) (snd call) s))
  end.

(** The entity of the tests as stored after five commands. *)
Definition storedAtVersionFive : ActorState :=
  {| as_id := "test-1"; actorType := "test-spec"; state := "active";
     context := {["count" := JNum 0]}; version := 5;
     createdAt := 100; updatedAt := 500 |}.

(** The version under which the mock stores an entity; 0 when it stores
    none. *)
Definition storedVersion (s : MockStorage) (key : string) : Z :=
  match actors s !! key with
  | Some st => version st
  | None => 0
  end.

(** ** Vocabulary of the structural rules *)

(** An optional name is absent or empty, or [found] finds it. *)
Definition NameResolves (name : option string) (found : string -> bool) : Prop :=
  match truthy name with
  | Some n => found n = true
  | None => True
  end.

(** [spec.states[name]] is truthy. *)
Definition stateResolves (spec : ActorSpec) (name : string) : bool :=
  bool_decide (is_Some (stateLookup spec name)).

(** What validateTransition demands of a transition: its target is empty
    or found in the states, its guard and its action are found; a name is
    found when it is declared or names a member of Object.prototype. *)
Definition TransitionOk (spec : ActorSpec) (transitionDef : Transition) : Prop :=
  NameResolves (Some (target (parseTransition transitionDef))) (stateResolves spec)
  /\ NameResolves (guard (parseTransition transitionDef)) (hasMember (guards spec))
  /\ NameResolves (action (parseTransition transitionDef)) (hasMember (actions spec)).

(** What validateStateDefinition demands of a state. *)
Definition StateOk (spec : ActorSpec) (stateDef : StateDefinition) : Prop :=
  NameResolves (entry stateDef) (hasMember (actions spec))
  /\ NameResolves (exit stateDef) (hasMember (actions spec))
  /\ (forall transitionDef,
         transitionDef ∈ Object_values (default [] (on stateDef)) ->
         TransitionOk spec transitionDef).

(** The structural rules of validateSpec. *)
Definition SpecOk (spec : ActorSpec) : Prop :=
  trimIsEmpty (spec_id spec) = false
  /\ is_Some (schema spec)
  /\ initial spec ∈ Object_keys (states spec)
  /\ (forall stateName stateDef,
         prop stateName (states spec) = Some stateDef -> StateOk spec stateDef).

(** The states one transition away from [stateName], as the reachability
    loop sees them: targets that are not empty and are declared. *)
Definition successors (spec : ActorSpec) (stateNames : list string)
    (stateName : string) : list string :=
  match prop stateName (states spec) ≫= on with
  | Some transitions =>
      filter (fun t => (t ≠ EmptyString) ∧ (includes stateNames t = true))
             (map transitionTarget (Object_values transitions))
  | None => []
  end.

(** One step of the transition graph the loop walks. *)
Definition scanStep (spec : ActorSpec) (stateNames : list string)
    (s t : string) : Prop :=
  t ∈ successors spec stateNames s.

(** Reachability from the initial state along such steps. *)
Definition Reachable (spec : ActorSpec) (stateName : string) : Prop :=
  rtc (scanStep spec (Object_keys (states spec))) (initial spec) stateName.

(** A failure that names a guard or an action that was not found. *)
Definition nameNotFound {A : Type} (r : Exit TaggedError A) : bool :=
  match r with
  | Failure (GuardNotFoundError _) | Failure (ActionNotFoundError _) => true
  | _ => false
  end.

(** A check of the validator performs nothing observable and does not
    throw. *)
Definition Silent {A : Type} (m : Eff TaggedError A) : Prop :=
  fst m = [] /\ isDefect (snd m) = false.

(** ** More of test-utils/mock-providers.ts *)

(** [Array.prototype.slice] with integer arguments: a negative index counts
    from the end, and both are clamped to the array. *)
Definition jsSlice {A : Type} (l : list A) (start finish : Z) : list A :=
  let len := Z.of_nat (length l) in
  let k := if start <? 0 then Z.max (len + start) 0 else Z.min start len in
  let final := if finish <? 0 then Z.max (len + finish) 0 else Z.min finish len in
  take (Z.to_nat (final - k)) (drop (Z.to_nat k) l).

(** [getHistory] of the mock: [history.slice(offset ?? 0, (offset ?? 0) +
    (limit ?? 100))]. *)
Definition mockGetHistory (actorType0 actorId : string) (limit offset : option Z)
    (s : MockStorage) : Exit TaggedError (list AuditEntry) :=
  let key := getKey actorType0 actorId in
  let history := default [] (audits s !! key) in
  Success (jsSlice history (default 0 offset) (default 0 offset + default 100 limit)).

(** A string contains a colon. *)
Fixpoint hasColon (s : string) : bool :=
  match s with
  | EmptyString => false
  | String c rest => Ascii.eqb c ":"%char || hasColon rest
  end.

(** The audit entries the mock holds under a key, newest first. *)
Definition historyOf (s : MockStorage) (key : string) : list AuditEntry :=
  default [] (audits s !! key).

(** ** More of spec/validator.ts *)

(** [validateContext(spec, context)]: the decoder's error is mapped to
    SpecError, its message after the prefix. *)
Definition validateContext (spec : ActorSpec) (ctx : Context) : Eff TaggedError unit :=
  match schema spec with
  | None => die (TypeError "Cannot read properties of undefined (reading 'ast')")
  | Some sch =>
      match decodeUnknown sch ctx with
      | inl parseError => fail (SpecError ("Context validation failed: " +:+ parseError))
      | inr _ => mret ()
      end
  end.

(** ** More vocabulary of the executor *)

(** [{ ...state, context }] *)
Definition withContext (st : ActorState) (ctx : Context) : ActorState :=
  {| as_id := as_id st; actorType := actorType st; state := state st;
     context := ctx; version := version st; createdAt := createdAt st;
     updatedAt := updatedAt st |}.

(** [{ ...result, oldContext }] *)
Definition withOldContext (result : TransitionResult) (ctx : Context)
  : TransitionResult :=
  {| r_from := r_from result; r_to := r_to result; r_event := r_event result;
     oldContext := ctx; newContext := newContext result;
     timestamp := timestamp result |}.

(** The same run with its result, if any, transformed. *)
Definition mapSuccess {E A B : Type} (f : A -> B) (m : Eff E A) : Eff E B :=
  (fst m, match snd m with
          | Success a => Success (f a)
          | Failure e => Failure e
          | Die d => Die d
          | Beyond => Beyond
          end).

(** [{ ...entry, data: undefined }] *)
Definition withoutData (a : AuditEntry) : AuditEntry :=
  {| a_id := a_id a; a_timestamp := a_timestamp a; a_actorType := a_actorType a;
     a_actorId := a_actorId a; a_event := a_event a; a_from := a_from a;
     a_to := a_to a; a_actor := a_actor a; a_data := None; a_action := a_action a;
     a_result := a_result a; a_error := a_error a; a_duration := a_duration a |}.

(** The calls a run lets observe thread one working context: every guard
    and action is called on the context as it then stands, an action
    replaces it by its result, and nothing else is observed. *)
Fixpoint Chained (ctx : Context) (obs : list Observed) : Prop :=
  match obs with
  | [] => True
  | GuardCall _ arg _ :: rest => arg = ctx /\ Chained ctx rest
  | ActionCall _ arg result :: rest => arg = ctx /\ Chained result rest
  | ConsoleWarn _ :: _ => False
  end.

Definition isGuardCall (o : Observed) : bool :=
  match o with
  | GuardCall _ _ _ => true
  | _ => false
  end.

(** ** providers/backends/fs-json.ts *)

(** The file format. *)
Record ActorFile : Type := {
  file_state : ActorState;
  file_audit : list AuditEntry;
  savedAt : Z
}.

(** What a path holds: a file whose text parses into an [ActorFile], or a
    file on which [JSON.parse], or the reading of the parsed value that
    follows it, throws [error] (the thrown value as a string).  Contexts
    hold JSON values only, and dates are written and read back to the
    millisecond, so a parsed file is the value that was written. *)
Inductive FileContent : Type :=
| Parses (content : ActorFile)
| Throws (error : string).

(** The files of the store, by path; directories are implicit. *)
Abbreviation FsStore := (gmap string FileContent).

Record QueryFilter : Type := {
  q_status : option string;
  q_limit : option Z;
  q_offset : option Z;
  q_createdAfter : option Z;
  q_createdBefore : option Z;
  q_updatedAfter : option Z;
  q_updatedBefore : option Z
}.

(** A sort by [(a, b) => b.timestamp - a.timestamp]: newest first, entries
    of equal timestamp in their given order ([Array.prototype.sort] is
    stable, which together with the order determines the result). *)
Fixpoint insertNewestFirst (x : AuditEntry) (l : list AuditEntry) : list AuditEntry :=
  match l with
  | [] => [x]
  | y :: rest =>
      if a_timestamp y <=? a_timestamp x
      then x :: y :: rest
      else y :: insertNewestFirst x rest
  end.

Definition sortNewestFirst (l : list AuditEntry) : list AuditEntry :=
  foldr insertNewestFirst [] l.

(** The filters and the pagination of [query]. *)
Definition applyQueryFilter (filter0 : option QueryFilter) (states0 : list ActorState)
  : list ActorState :=
  let filtered := states0 in
  let filtered :=
    match truthy (filter0 ≫= q_status) with
    | Some wanted => filter (fun s => state s = wanted) filtered
    | None => filtered
    end in
  let filtered :=
    match filter0 ≫= q_createdAfter with
    | Some bound => filter (fun s => bound <= createdAt s) filtered
    | None => filtered
    end in
  let filtered :=
    match filter0 ≫= q_createdBefore with
    | Some bound => filter (fun s => createdAt s <= bound) filtered
    | None => filtered
    end in
  let filtered :=
    match filter0 ≫= q_updatedAfter with
    | Some bound => filter (fun s => bound <= updatedAt s) filtered
    | None => filtered
    end in
  let filtered :=
    match filter0 ≫= q_updatedBefore with
    | Some bound => filter (fun s => updatedAt s <= bound) filtered
    | None => filtered
    end in
  let offset := default 0 (filter0 ≫= q_offset) in
  let limit := default (Z.of_nat (length filtered)) (filter0 ≫= q_limit) in
  jsSlice filtered offset (offset + limit).

Section FsJson.

(** [path.join] and [path.basename] of node:path. *)
Variable path_join : list string -> string.
Variable path_basename : string -> string -> string.

(** The time a save on a given store reads for [savedAt]. *)
Variable clock : FsStore -> Z.

(** The file names the scan of a directory yields in [query] ([[]] when
    the directory is reported missing). *)
Variable scanned : FsStore -> string -> list string.

Definition getFilePath (basePath actorType0 actorId : string) : string :=
  path_join [basePath; actorType0; actorId +:+ ".jsonc"].

(** [loadFile]: the file is missing, parses, or makes the [try] block
    throw.  Failures of the file system itself (they would be defects) are
    not part of the store. *)
Definition loadFile (filePath : string) (fs : FsStore) : Exit TaggedError ActorFile :=
  match fs !! filePath with
  | None =>
      Failure (StorageError "fs-json" op_load
                 (Some ("Actor not found: " +:+ filePath)))
  | Some (Parses content) => Success content
  | Some (Throws e) =>
      Failure (StorageError "fs-json" op_load
                 (Some ("Failed to parse JSON: " +:+ e)))
  end.

(** [save]: the directory is made, the existing file is loaded to append
    to its audit (any failure to load it gives an empty audit), and the
    file is written. *)
Definition fsSave (basePath actorType0 actorId : string) (st : ActorState)
    (audit : AuditEntry) : Stored FsStore unit :=
  fun fs =>
    let filePath := getFilePath basePath actorType0 actorId in
    let write (existingData : ActorFile) : FsStore * Exit TaggedError unit :=
      let updatedData :=
        {| file_state := st;
           file_audit := file_audit existingData ++ [audit];
           savedAt := clock fs |} in
      (<[filePath := Parses updatedData]> fs, Success ()) in
    match loadFile filePath fs with
    | Success content => write content
    | Failure _ => write {| file_state := st; file_audit := []; savedAt := clock fs |}
    | Die d => (fs, Die d)
    | Beyond => (fs, Beyond)
    end.

Definition fsLoad (basePath actorType0 actorId : string) (fs : FsStore)
  : Exit TaggedError ActorState :=
  match loadFile (getFilePath basePath actorType0 actorId) fs with
  | Success content => Success (file_state content)
  | Failure e => Failure e
  | Die d => Die d
  | Beyond => Beyond
  end.

(** [getHistory]: [limit ? start + limit : sorted.length] treats a limit of
    0 like a missing one. *)
Definition fsGetHistory (basePath actorType0 actorId : string)
    (limit offset : option Z) (fs : FsStore) : Exit TaggedError (list AuditEntry) :=
  match loadFile (getFilePath basePath actorType0 actorId) fs with
  | Success content =>
      let sorted := sortNewestFirst (file_audit content) in
      let start := default 0 offset in
      let finish :=
        match limit with
        | Some n => if n =? 0 then Z.of_nat (length sorted) else start + n
        | None => Z.of_nat (length sorted)
        end in
      Success (jsSlice sorted start finish)
  | Failure e => Failure e
  | Die d => Die d
  | Beyond => Beyond
  end.

(** The loop of [query] over the scanned files: the state of each file
    that loads is pushed, a file that fails to load is skipped. *)
Fixpoint loadStates (basePath actorType0 : string) (fs : FsStore)
    (files : list string) (states0 : list ActorState)
  : Exit TaggedError (list ActorState) :=
  match files with
  | [] => Success states0
  | file :: rest =>
      let actorId := path_basename file ".jsonc" in
      match loadFile (getFilePath basePath actorType0 actorId) fs with
      | Success content =>
          loadStates basePath actorType0 fs rest (states0 ++ [file_state content])
      | Failure _ => loadStates basePath actorType0 fs rest states0
      | Die d => Die d
      | Beyond => Beyond
      end
  end.

Definition fsQuery (basePath actorType0 : string) (filter0 : option QueryFilter)
    (fs : FsStore) : Exit TaggedError (list ActorState) :=
  let dirPath := path_join [basePath; actorType0] in
  let files := scanned fs dirPath in
  match loadStates basePath actorType0 fs files [] with
  | Success states0 => Success (applyQueryFilter filter0 states0)
  | Failure e => Failure e
  | Die d => Die d
  | Beyond => Beyond
  end.

(** [makeFsJsonStorageProvider(basePath)], as far as the service uses it. *)
Definition makeFsJsonStorageProvider (basePath : string)
  : StorageProviderApi FsStore :=
  {| save := fsSave basePath; load := fsLoad basePath |}.

End FsJson.

(** Every file of the store parses, and holds as many audit entries as
    the version of its state says. *)
Definition FsConsistent (fs : FsStore) : Prop :=
  forall (filePath : string) (c : FileContent),
    fs !! filePath = Some c ->
    exists content,
      c = Parses content
      /\ version (file_state content) = Z.of_nat (length (file_audit content)).

(** [path.join] on segments that need no normalising. *)
Definition joinSegments (segments : list string) : string := join "/" segments.

(** ** Sample inputs of the further properties *)

(** An event mapped to the empty string. *)
Definition emptyNameSpec : ActorSpec :=
  withStates TestSpec.createTestSpec
    [ ("idle", {| on := Some [ ("GO", TargetName EmptyString) ];
                  entry := None; exit := None |}) ].

(** A transition object whose target is the empty string. *)
Definition emptyTargetSpec : ActorSpec :=
  withStates TestSpec.createTestSpec
    [ ("idle", {| on := Some [ ("GO", TestSpec.transitionTo EmptyString None None) ];
                  entry := None; exit := None |}) ].

(** The test specification with a state no transition leads to. *)
Definition orphanSpec : ActorSpec :=
  withStates TestSpec.createTestSpec
    (states TestSpec.createTestSpec
       ++ [("orphan", {| on := None; entry := None; exit := None |})]).

(** The test specification with two states that nothing reachable leads
    to, one declared first and one declared last. *)
Definition orphansSpec : ActorSpec :=
  withStates TestSpec.createTestSpec
    ([("lost", {| on := None; entry := None; exit := None |})]
       ++ states TestSpec.createTestSpec
       ++ [("orphan", {| on := Some [ ("LOSE", TargetName "lost") ];
                         entry := None; exit := None |})]).

(** A command the initial state does not allow. *)
Definition completeCommand : ExecuteCommand :=
  {| cmd_actorType := "test-spec"; cmd_actorId := "test-1"; cmd_event := "COMPLETE";
     cmd_data := None; cmd_actor := None |}.

Definition auditAt (time : Z) (event0 : string) : AuditEntry :=
  {| a_id := event0; a_timestamp := time; a_actorType := "test-spec";
     a_actorId := "test-1"; a_event := event0; a_from := "idle";
     a_to := Some "active"; a_actor := None; a_data := None; a_action := None;
     a_result := success; a_error := None; a_duration := 0 |}.

(** A mock that holds three audit entries of one entity, newest first. *)
Definition mockWithHistory : MockStorage :=
  {| actors := ∅;
     audits := {[ getKey "test-spec" "test-1"
                  := [auditAt 30 "C"; auditAt 20 "B"; auditAt 10 "A"] ]} |}.

(** A file after two saves. *)
Definition sampleFile : ActorFile :=
  {| file_state := {| as_id := "test-1"; actorType := "test-spec"; state := "idle";
                      context := {["count" := JNum 0]}; version := 2;
                      createdAt := 10; updatedAt := 20 |};
     file_audit := [auditAt 10 "A"; auditAt 20 "B"];
     savedAt := 20 |}.

Definition sampleStore : FsStore :=
  {[ "data/test-spec/test-1.jsonc" := Parses sampleFile ]}.

(** A store whose one file does not parse. *)
Definition unreadableStore : FsStore :=
  {[ "data/test-spec/test-1.jsonc" := Throws "SyntaxError: Unexpected end of JSON input" ]}.

(** ** Effects: basic facts *)

Lemma andThen_success {E A B : Type} (tr : list Observed) (a : A) (k : A -> Eff E B) :
  (tr, Success a) ≫= k = (tr ++ fst (k a), snd (k a)).
Proof. unfold mbind, eff_bind, andThen. by destruct (k a). Qed.

Lemma andThen_failure {E A B : Type} (tr : list Observed) (e : E) (k : A -> Eff E B) :
  (tr, Failure e) ≫= k = (tr, Failure e).
Proof. reflexivity. Qed.

Lemma andThen_die {E A B : Type} (tr : list Observed) (d : Defect) (k : A -> Eff E B) :
  (tr, Die d) ≫= k = (tr, Die d).
Proof. reflexivity. Qed.

Lemma andThen_stop {A B : Type} (tr : list Observed) (stop : Stop)
    (k : A -> Eff TaggedError B) :
  (tr, stopExit stop) ≫= k = (tr, stopExit stop).
Proof. by destruct stop. Qed.

(** ** Records and merging *)

Lemma prop_None_keys {V : Type} (k : string) (o : JsRecord V) :
  prop k o = None <-> k ∉ Object_keys o.
Proof.
  induction o as [|[k' v] rest IH]; simpl.
  - split; [intros _; apply not_elem_of_nil | done].
  - destruct (String.eqb_spec k' k) as [->|Hne].
    + split; [done | intros Hn; exfalso; apply Hn; left].
    + rewrite IH, not_elem_of_cons. split; [intros Hk; split; [congruence | exact Hk] | intros [_ Hk]; exact Hk].
Qed.

Lemma includes_elem_of (l : list string) (x : string) :
  includes l x = true <-> x ∈ l.
Proof.
  unfold includes. rewrite existsb_exists. split.
  - intros (y & Hin & Heq). apply String.eqb_eq in Heq. subst.
    by apply list_elem_of_In.
  - intros Hin. exists x. split; [by apply list_elem_of_In | apply String.eqb_refl].
Qed.

(** The merge is shallow and right-biased: a field of the command data
    overrides the field of the same name, whole; every other field of the
    context is kept. *)
Lemma mergeContext_lookup (ctx : Context) (commandData : option Context) (k : string) :
  mergeContext ctx commandData !! k =
    match commandData ≫= (fun d => d !! k) with
    | Some v => Some v
    | None => ctx !! k
    end.
Proof.
  unfold mergeContext, objectSpread.
  rewrite lookup_union. rewrite lookup_union. rewrite lookup_empty.
  destruct commandData as [d|]; simpl.
  - destruct (d !! k), (ctx !! k); reflexivity.
  - rewrite lookup_empty. destruct (ctx !! k); reflexivity.
Qed.

Lemma mergeContext_None (ctx : Context) : mergeContext ctx None = ctx.
Proof.
  apply map_eq. intros k. rewrite mergeContext_lookup. reflexivity.
Qed.

(** ** Lookups *)

Lemma stateLookup_own (spec : ActorSpec) (name : string) (stateDef : StateDefinition) :
  prop name (states spec) = Some stateDef -> stateLookup spec name = Some stateDef.
Proof. unfold stateLookup. by intros ->. Qed.

Lemma stateLookup_None (spec : ActorSpec) (name : string) :
  stateLookup spec name = None
  <-> prop name (states spec) = None /\ inherited name = false.
Proof.
  unfold stateLookup. destruct (prop name (states spec)); [by split; [|intros []]|].
  destruct (inherited name); by split; [|intros []].
Qed.

Lemma eventLookup_declared (stateDef : StateDefinition) (event0 : string)
    (transitionDef : Transition) :
  eventLookup stateDef event0 = Some (Declared transitionDef)
  <-> truthyTransition (on stateDef ≫= prop event0) = Some transitionDef.
Proof.
  unfold eventLookup. destruct (on stateDef) as [transitions|]; [|done].
  cbn [mbind option_bind].
  destruct (prop event0 transitions) as [t|].
  - destruct (truthyTransition (Some t)) as [t'|]; cbn [fmap option_fmap option_map];
      [|done].
    split; by intros [= ->].
  - cbn [truthyTransition]. by destruct (inherited event0).
Qed.

Lemma eventLookup_None (stateDef : StateDefinition) (event0 : string) :
  eventLookup stateDef event0 = None
  <-> truthyTransition (on stateDef ≫= prop event0) = None
      /\ (inherited event0 = true ->
          on stateDef = None
          \/ event0 ∈ Object_keys (default [] (on stateDef))).
Proof.
  unfold eventLookup. destruct (on stateDef) as [transitions|];
    cbn [mbind option_bind default].
  2:{ split; [|done]. intros _. split; [done|]. by left. }
  destruct (prop event0 transitions) as [t|] eqn:Hp.
  - assert (event0 ∈ Object_keys transitions) as Hin.
    { destruct (decide (event0 ∈ Object_keys transitions)) as [|Hn]; [done|].
      apply prop_None_keys in Hn. congruence. }
    destruct (truthyTransition (Some t)) as [t'|];
      cbn [fmap option_fmap option_map].
    + split; [done|]. by intros [? _].
    + split; [|done]. intros _. split; [done|]. by right.
  - apply prop_None_keys in Hp. cbn [truthyTransition].
    destruct (inherited event0).
    + split; [done|]. intros [_ Hor]. by destruct (Hor eq_refl) as [|].
    + split; [|done]. intros _. by split.
Qed.

(** ** The steps of executeCommand *)

Lemma callAction_run (name : string) (f : ActionFn) (ctx : Context) :
  callAction name f ctx = ([ActionCall name ctx (f ctx)], Success (f ctx)).
Proof. reflexivity. Qed.

(** An action step, by what the name finds. *)
Lemma runAction_eq (spec : ActorSpec) (name : option string) (ctx : Context) :
  runAction spec name ctx
  = match actionStop spec name with
    | Some stop => ([], stopExit stop)
    | None => (actionCallsOf spec name ctx, Success (actionOf spec name ctx))
    end.
Proof.
  unfold runAction, actionStop, actionCallsOf, actionOf.
  destruct (truthy name) as [a|]; [|done].
  destruct (actions spec !! a) as [f|]; [done|].
  destruct (inherited a); [|done]. by destruct (callMember a).
Qed.

(** The guard step, by what the name finds. *)
Lemma evaluateGuard_eq (spec : ActorSpec) (transition : TransitionObject)
    (ctx : Context) :
  evaluateGuard spec transition ctx
  = (guardCalls spec transition ctx,
     match guardStop spec transition ctx with
     | Some stop => stopExit stop
     | None => Success ()
     end).
Proof.
  unfold evaluateGuard, guardStop, guardCalls.
  destruct (truthy (guard transition)) as [g|]; [|done].
  destruct (guards spec !! g) as [guardFn|].
  - unfold callGuard. by destruct (guardFn ctx).
  - destruct (inherited g); [|done]. by destruct (callMember g).
Qed.

Lemma ActionResolves_runs (spec : ActorSpec) (name : option string) (f : ActionFn) :
  ActionResolves spec name f ->
  actionStop spec name = None
  /\ actionOf spec name = f
  /\ (forall ctx, actionCallsOf spec name ctx = actionObserved name f ctx).
Proof.
  unfold ActionResolves, actionStop, actionOf, actionCallsOf, actionObserved.
  destruct (truthy name) as [a|]; [by intros ->|by intros ->].
Qed.

Lemma GuardPasses_admits (spec : ActorSpec) (transition : TransitionObject)
    (ctx : Context) :
  GuardPasses spec transition ctx ->
  guardStop spec transition ctx = None
  /\ guardCalls spec transition ctx = guardObserved transition ctx.
Proof.
  unfold GuardPasses, guardStop, guardCalls, guardObserved.
  destruct (truthy (guard transition)) as [g|]; [|done].
  intros (guardFn & -> & ->). done.
Qed.

Lemma runAction_resolves (spec : ActorSpec) (name : option string) (f : ActionFn)
    (ctx : Context) :
  ActionResolves spec name f ->
  runAction spec name ctx = (actionObserved name f ctx, Success (f ctx)).
Proof.
  intros (Hstop & Hf & Hcalls)%ActionResolves_runs.
  by rewrite runAction_eq, Hstop, Hcalls, Hf.
Qed.


Lemma evaluateGuard_passes (spec : ActorSpec) (transition : TransitionObject)
    (ctx : Context) :
  GuardPasses spec transition ctx ->
  evaluateGuard spec transition ctx = (guardObserved transition ctx, Success ()).
Proof.
  intros [Hstop Hcalls]%GuardPasses_admits.
  by rewrite evaluateGuard_eq, Hstop, Hcalls.
Qed.

Lemma evaluateGuard_false (spec : ActorSpec) (transition : TransitionObject)
    (ctx : Context) (g : string) (guardFn : GuardFn) :
  truthy (guard transition) = Some g ->
  guards spec !! g = Some guardFn ->
  guardFn ctx = false ->
  evaluateGuard spec transition ctx =
    ([GuardCall g ctx false],
     Failure (GuardFailedError g
                ("Guard " +:+ dquote +:+ g +:+ dquote +:+ " evaluated to false"))).
Proof.
  unfold evaluateGuard. intros -> Hl Hg. cbv beta iota. rewrite Hl.
  unfold callGuard. rewrite Hg. reflexivity.
Qed.


(** The run of executeCommand on a declared transition, step by step. *)
Lemma executeCommand_declared (spec : ActorSpec) (currentState : ActorState)
    (command : Command) (now : Z) (stateDef : StateDefinition)
    (transitionDef : Transition) :
  let transition := parseTransition transitionDef in
  let merged := mergeContext (context currentState) (data command) in
  stateLookup spec (state currentState) = Some stateDef ->
  eventLookup stateDef (event command) = Some (Declared transitionDef) ->
  executeCommand spec currentState command now
  = (evaluateGuard spec transition merged;;
     afterExit ← runAction spec (exit stateDef) merged;
     afterAction ← runAction spec (action transition) afterExit;
     match stateLookup spec (target transition) with
     | None =>
         die (TypeError "Cannot read properties of undefined (reading 'entry')")
     | Some newStateDef =>
         final ← runAction spec (entry newStateDef) afterAction;
         validateNewContext spec final;;
         mret {| r_from := state currentState;
                 r_to := target transition;
                 r_event := event command;
                 oldContext := context currentState;
                 newContext := final;
                 timestamp := now |}
     end).
Proof. intros transition merged Hs Ht. unfold executeCommand. by rewrite Hs, Ht. Qed.

Lemma executeCommand_member (spec : ActorSpec) (currentState : ActorState)
    (command : Command) (now : Z) (stateDef : StateDefinition) :
  let merged := mergeContext (context currentState) (data command) in
  stateLookup spec (state currentState) = Some stateDef ->
  eventLookup stateDef (event command) = Some Member ->
  executeCommand spec currentState command now
  = (afterExit ← runAction spec (exit stateDef) merged;
     match stateLookup spec "undefined" with
     | None =>
         die (TypeError "Cannot read properties of undefined (reading 'entry')")
     | Some newStateDef =>
         final ← runAction spec (entry newStateDef) afterExit;
         validateNewContext spec final;;
         beyond
     end).
Proof. intros merged Hs Ht. unfold executeCommand. by rewrite Hs, Ht. Qed.

Lemma validateNewContext_gate (spec : ActorSpec) (final : Context)
    (tr : list Observed) (k : Context -> TransitionResult) :
  (tr, Success final) ≫= (fun ctx => validateNewContext spec ctx;; mret (k ctx))
  = (tr, gateExit spec final (Success (k final))).
Proof.
  rewrite andThen_success. unfold validateNewContext, gateExit.
  destruct (schema spec) as [sch|]; simpl; [|by rewrite app_nil_r].
  destruct (decodeUnknown sch final); simpl; by rewrite app_nil_r.
Qed.

Lemma validateNewContext_gate_beyond (spec : ActorSpec) (final : Context)
    (tr : list Observed) :
  (tr, Success final)
    ≫= (fun ctx => validateNewContext spec ctx;; @beyond TaggedError TransitionResult)
  = (tr, gateExit spec final Beyond).
Proof.
  rewrite andThen_success. unfold validateNewContext, gateExit.
  destruct (schema spec) as [sch|]; simpl; [|by rewrite app_nil_r].
  destruct (decodeUnknown sch final); simpl; by rewrite app_nil_r.
Qed.

(** The run of executeCommand on a transition whose guard passes, whose
    actions resolve and whose target is declared: the guard, then the exit,
    transition and entry actions, each on the result of the one before,
    then the schema as the last gate. *)
Lemma executeCommand_run (spec : ActorSpec) (currentState : ActorState)
    (command : Command) (now : Z) (stateDef newStateDef : StateDefinition)
    (transitionDef : Transition) (Ex Tx En : ActionFn) :
  let transition := parseTransition transitionDef in
  let merged := mergeContext (context currentState) (data command) in
  prop (state currentState) (states spec) = Some stateDef ->
  truthyTransition (on stateDef ≫= prop (event command)) = Some transitionDef ->
  GuardPasses spec transition merged ->
  ActionResolves spec (exit stateDef) Ex ->
  ActionResolves spec (action transition) Tx ->
  prop (target transition) (states spec) = Some newStateDef ->
  ActionResolves spec (entry newStateDef) En ->
  executeCommand spec currentState command now =
    (guardObserved transition merged
       ++ actionObserved (exit stateDef) Ex merged
       ++ actionObserved (action transition) Tx (Ex merged)
       ++ actionObserved (entry newStateDef) En (Tx (Ex merged)),
     match schema spec with
     | None => Die (TypeError "Cannot read properties of undefined (reading 'ast')")
     | Some sch =>
         match decodeUnknown sch (En (Tx (Ex merged))) with
         | inl e => Failure (ValidationError
                               "Context validation failed after action execution" e)
         | inr _ => Success {| r_from := state currentState;
                               r_to := target transition;
                               r_event := event command;
                               oldContext := context currentState;
                               newContext := En (Tx (Ex merged));
                               timestamp := now |}
         end
     end).
Proof.
  intros transition merged Hs Ht Hg Hex Htx Hn Hen.
  rewrite (executeCommand_declared spec currentState command now stateDef
             transitionDef (stateLookup_own _ _ _ Hs)
             (proj2 (eventLookup_declared _ _ _) Ht)).
  fold transition. fold merged.
  rewrite (evaluateGuard_passes _ _ _ Hg), andThen_success.
  rewrite (runAction_resolves _ _ _ _ Hex), andThen_success.
  rewrite (runAction_resolves _ _ _ _ Htx), andThen_success.
  rewrite (stateLookup_own _ _ _ Hn).
  rewrite (runAction_resolves _ _ _ _ Hen), andThen_success.
  unfold validateNewContext.
  destruct (schema spec) as [sch|]; simpl.
  - destruct (decodeUnknown sch (En (Tx (Ex merged)))); simpl;
      rewrite ?app_nil_r; reflexivity.
  - rewrite ?app_nil_r. reflexivity.
Qed.

(** ** Transition executor: properties *)

(** C1, as amended.  For a transition from state A with exit action Ex, by
    an event whose transition carries action Tx, to state B with entry
    action En, whose guard passes on the merged context and whose final
    context decodes against the schema, executeCommand returns a
    TransitionResult whose newContext is En (Tx (Ex (merge (context, data)))).
    The run calls the exit, the transition and the entry action in this
    order, each on the result of the one before, and the merge is shallow:
    a field of the command data overrides the field of the same name. *)
Theorem executeCommand_action_order (spec : ActorSpec) (currentState : ActorState)
    (command : Command) (now : Z) (stateDef newStateDef : StateDefinition)
    (transitionDef : Transition) (ex tx en : string) (Ex Tx En : ActionFn)
    (sch : Schema) (decoded : Context) :
  let transition := parseTransition transitionDef in
  let merged := mergeContext (context currentState) (data command) in
  prop (state currentState) (states spec) = Some stateDef ->
  truthyTransition (on stateDef ≫= prop (event command)) = Some transitionDef ->
  GuardPasses spec transition merged ->
  truthy (exit stateDef) = Some ex -> actions spec !! ex = Some Ex ->
  truthy (action transition) = Some tx -> actions spec !! tx = Some Tx ->
  prop (target transition) (states spec) = Some newStateDef ->
  truthy (entry newStateDef) = Some en -> actions spec !! en = Some En ->
  schema spec = Some sch ->
  decodeUnknown sch (En (Tx (Ex merged))) = inr decoded ->
  executeCommand spec currentState command now =
    (guardObserved transition merged
       ++ [ActionCall ex merged (Ex merged);
           ActionCall tx (Ex merged) (Tx (Ex merged));
           ActionCall en (Tx (Ex merged)) (En (Tx (Ex merged)))],
     Success {| r_from := state currentState;
                r_to := target transition;
                r_event := event command;
                oldContext := context currentState;
                newContext := En (Tx (Ex merged));
                timestamp := now |})
  /\ (forall k : string,
        merged !! k = match data command ≫= (fun d => d !! k) with
                      | Some v => Some v
                      | None => context currentState !! k
                      end).
Proof.
  intros transition merged Hs Ht Hg Hex HEx Htx HTx Hn Hen HEn Hsch Hdec.
  split; [|intros k; apply mergeContext_lookup].
  rewrite (executeCommand_run spec currentState command now stateDef newStateDef
             transitionDef Ex Tx En Hs Ht Hg).
  - fold transition merged. rewrite Hsch, Hdec.
    unfold actionObserved. rewrite Hex, Htx, Hen. reflexivity.
  - unfold ActionResolves. by rewrite Hex.
  - unfold ActionResolves. fold transition. by rewrite Htx.
  - exact Hn.
  - unfold ActionResolves. by rewrite Hen.
Qed.

(** C4.  When the guard of the selected transition evaluates to false on the
    merged context, executeCommand fails with GuardFailedError naming that
    guard; the guard was called once, on the merged context, and no action
    was called, whatever exit, transition or entry action is declared.
    executeCommand takes the state by value and the failure carries no
    context: nothing of the input is changed (for the stored state, see
    [execute_guard_false_keeps_store]). *)
Theorem executeCommand_guard_false (spec : ActorSpec) (currentState : ActorState)
    (command : Command) (now : Z) (stateDef : StateDefinition)
    (transitionDef : Transition) (g : string) (guardFn : GuardFn) :
  let transition := parseTransition transitionDef in
  let merged := mergeContext (context currentState) (data command) in
  prop (state currentState) (states spec) = Some stateDef ->
  truthyTransition (on stateDef ≫= prop (event command)) = Some transitionDef ->
  truthy (guard transition) = Some g ->
  guards spec !! g = Some guardFn ->
  guardFn merged = false ->
  executeCommand spec currentState command now =
    ([GuardCall g merged false],
     Failure (GuardFailedError g
                ("Guard " +:+ dquote +:+ g +:+ dquote +:+ " evaluated to false")))
  /\ actionCalls (observed (executeCommand spec currentState command now)) = [].
Proof.
  intros transition merged Hs Ht Hg Hl Hf.
  assert (executeCommand spec currentState command now =
            ([GuardCall g merged false],
             Failure (GuardFailedError g
                        ("Guard " +:+ dquote +:+ g +:+ dquote
                         +:+ " evaluated to false")))) as Hrun.
  { rewrite (executeCommand_declared spec currentState command now stateDef
               transitionDef (stateLookup_own _ _ _ Hs)
               (proj2 (eventLookup_declared _ _ _) Ht)).
    fold transition merged.
    by rewrite (evaluateGuard_false spec transition merged g guardFn Hg Hl Hf). }
  split; [exact Hrun | by rewrite Hrun].
Qed.

(** C5.  When the context the exit, transition and entry actions produce
    fails to decode against the schema, executeCommand fails with
    ValidationError carrying the parse error, and returns no
    TransitionResult.  The validation comes last: the guard and every
    declared action have run before it. *)
Theorem executeCommand_invalid_context (spec : ActorSpec) (currentState : ActorState)
    (command : Command) (now : Z) (stateDef newStateDef : StateDefinition)
    (transitionDef : Transition) (Ex Tx En : ActionFn) (sch : Schema)
    (e : ParseError) :
  let transition := parseTransition transitionDef in
  let merged := mergeContext (context currentState) (data command) in
  prop (state currentState) (states spec) = Some stateDef ->
  truthyTransition (on stateDef ≫= prop (event command)) = Some transitionDef ->
  GuardPasses spec transition merged ->
  ActionResolves spec (exit stateDef) Ex ->
  ActionResolves spec (action transition) Tx ->
  prop (target transition) (states spec) = Some newStateDef ->
  ActionResolves spec (entry newStateDef) En ->
  schema spec = Some sch ->
  decodeUnknown sch (En (Tx (Ex merged))) = inl e ->
  executeCommand spec currentState command now =
    (guardObserved transition merged
       ++ actionObserved (exit stateDef) Ex merged
       ++ actionObserved (action transition) Tx (Ex merged)
       ++ actionObserved (entry newStateDef) En (Tx (Ex merged)),
     Failure (ValidationError "Context validation failed after action execution" e)).
Proof.
  intros transition merged Hs Ht Hg Hex Htx Hn Hen Hsch Hdec.
  rewrite (executeCommand_run spec currentState command now stateDef newStateDef
             transitionDef Ex Tx En Hs Ht Hg Hex Htx Hn Hen).
  fold transition merged. by rewrite Hsch, Hdec.
Qed.

(** C7.  The claim holds of every event but those named like a member of
    Object.prototype, where the code misses it.  On the test specification
    in state idle, the event toString is no key of the outgoing map;
    [stateDef.on?.[command.event]] all the same finds the function
    Object.prototype.toString, which is truthy, so the branch that fails
    with TransitionNotAllowedError is skipped; the function is taken for
    the transition, its target is undefined, and reading the entry action
    of [spec.states[undefined]] throws.  executeCommand ends in a defect,
    where the claim has TransitionNotAllowedError with the available
    events START, START_WITH_GUARD and START_WITH_ACTION. *)
Theorem executeCommand_transition_not_allowed :
  exists stateDef : StateDefinition,
    prop "idle" (states TestSpec.createTestSpec) = Some stateDef
    /\ ("toString" ∉ Object_keys (default [] (on stateDef)))
    /\ Object_keys (default [] (on stateDef))
       = ["START"; "START_WITH_GUARD"; "START_WITH_ACTION"]
    /\ forall now : Z,
         executeCommand TestSpec.createTestSpec (TestSpec.stateAt "idle" 0)
           (TestSpec.send "toString") now
         = ([], Die (TypeError
                       "Cannot read properties of undefined (reading 'entry')")).
Proof.
  eexists. split; [reflexivity|]. split; [|split; [reflexivity|]].
  - refine (bool_decide_unpack _ _). vm_compute. exact I.
  - intros now. reflexivity.
Qed.

(** Scenario C of the specification: from [{count: 0}] in state active,
    COMPLETE ends in [{count: 1, message: 'entered'}]. *)
Lemma executeCommand_action_order_witness :
  executeCommand TestSpec.createTestSpec (TestSpec.stateAt "active" 0)
    (TestSpec.send "COMPLETE") 5 =
    ([ActionCall "onExit" {["count" := JNum 0]}
        (<["message" := JStr "exited"]> {["count" := JNum 0]});
      ActionCall "increment" (<["message" := JStr "exited"]> {["count" := JNum 0]})
        (<["message" := JStr "exited"]> {["count" := JNum 1]});
      ActionCall "onEntry" (<["message" := JStr "exited"]> {["count" := JNum 1]})
        (<["message" := JStr "entered"]> {["count" := JNum 1]})],
     Success {| r_from := "active"; r_to := "done"; r_event := "COMPLETE";
                oldContext := {["count" := JNum 0]};
                newContext := <["message" := JStr "entered"]> {["count" := JNum 1]};
                timestamp := 5 |}).
Proof.
  edestruct (executeCommand_action_order TestSpec.createTestSpec
               (TestSpec.stateAt "active" 0) (TestSpec.send "COMPLETE") 5)
    as [Hrun _]; [reflexivity | reflexivity | exact I | reflexivity..|].
  rewrite Hrun. vm_compute. reflexivity.
Defined.

(** The claim of C1 as first stated, without the condition on the schema,
    fails: on the test specification with a schema that accepts nothing,
    the transition of Scenario C has a passing guard and resolving exit,
    transition and entry actions, and executeCommand returns no
    TransitionResult. *)
Lemma executeCommand_action_order_counterexample :
  (exists stateDef newStateDef transitionDef,
      prop "active" (states rejectingSpec) = Some stateDef
      /\ truthyTransition (on stateDef ≫= prop "COMPLETE") = Some transitionDef
      /\ GuardPasses rejectingSpec (parseTransition transitionDef)
           (mergeContext {["count" := JNum 0]} None)
      /\ truthy (exit stateDef) = Some "onExit"
      /\ actions rejectingSpec !! "onExit" = Some TestSpec.onExit
      /\ truthy (action (parseTransition transitionDef)) = Some "increment"
      /\ actions rejectingSpec !! "increment" = Some TestSpec.increment
      /\ prop (target (parseTransition transitionDef)) (states rejectingSpec)
         = Some newStateDef
      /\ truthy (entry newStateDef) = Some "onEntry"
      /\ actions rejectingSpec !! "onEntry" = Some TestSpec.onEntry)
  /\ exitOf (executeCommand rejectingSpec (TestSpec.stateAt "active" 0)
               (TestSpec.send "COMPLETE") 5)
     = Failure (ValidationError "Context validation failed after action execution"
                  "rejected")
  /\ ~ (exists result,
           exitOf (executeCommand rejectingSpec (TestSpec.stateAt "active" 0)
                     (TestSpec.send "COMPLETE") 5) = Success result).
Proof.
  assert (exitOf (executeCommand rejectingSpec (TestSpec.stateAt "active" 0)
                    (TestSpec.send "COMPLETE") 5)
          = Failure (ValidationError
                       "Context validation failed after action execution"
                       "rejected")) as Hrun by (vm_compute; reflexivity).
  split; [|split; [exact Hrun | intros [result Hr]; congruence]].
  eexists _, _, _. repeat split; try reflexivity.
Qed.

(** The guard of Scenario B on [{count: 0}], on a transition that also
    carries an action. *)
Lemma executeCommand_guard_false_witness :
  executeCommand TestSpec.guardedActionSpec (TestSpec.stateAt "idle" 0)
    (TestSpec.send "GO") 5 =
    ([GuardCall "canStart" (mergeContext {["count" := JNum 0]} None) false],
     Failure (GuardFailedError "canStart"
                ("Guard " +:+ dquote +:+ "canStart" +:+ dquote
                 +:+ " evaluated to false")))
  /\ actionCalls (observed (executeCommand TestSpec.guardedActionSpec
                              (TestSpec.stateAt "idle" 0) (TestSpec.send "GO") 5))
     = [].
Proof.
  eapply (executeCommand_guard_false TestSpec.guardedActionSpec
            (TestSpec.stateAt "idle" 0) (TestSpec.send "GO") 5);
    reflexivity.
Defined.

(** The test of an action that produces an invalid context. *)
Lemma executeCommand_invalid_context_witness :
  exitOf (executeCommand TestSpec.invalidContextSpec (TestSpec.stateAt "idle" 0)
            (TestSpec.send "START_WITH_ACTION") 5)
  = Failure (ValidationError "Context validation failed after action execution"
               "count: expected number").
Proof.
  erewrite (executeCommand_invalid_context TestSpec.invalidContextSpec
              (TestSpec.stateAt "idle" 0) (TestSpec.send "START_WITH_ACTION") 5
              _ _ _ (fun ctx => ctx) (fun _ => {["count" := JStr "invalid"]})
              (fun ctx => ctx) TestSpec.TestSchema "count: expected number");
    [reflexivity | reflexivity | reflexivity | exact I | reflexivity..].
Defined.

(** Every run of executeCommand is one of the cases of [ExecutionCase]. *)
Lemma executeCommand_case (spec : ActorSpec) (currentState : ActorState)
    (command : Command) (now : Z) :
  ExecutionCase spec currentState command now
    (executeCommand spec currentState command now).
Proof.
  destruct (stateLookup spec (state currentState)) as [stateDef|] eqn:Hs.
  2:{ unfold executeCommand. rewrite Hs. by constructor. }
  destruct (eventLookup stateDef (event command)) as [[transitionDef|]|] eqn:Ht.
  3:{ unfold executeCommand. rewrite Hs, Ht. by econstructor. }
  - rewrite (executeCommand_declared _ _ _ now _ _ Hs Ht).
    set (transition := parseTransition transitionDef).
    set (merged := mergeContext (context currentState) (data command)).
    rewrite evaluateGuard_eq.
    destruct (guardStop spec transition merged) as [stop|] eqn:Hg.
    { rewrite andThen_stop. by eapply GuardStopsCase. }
    rewrite andThen_success, runAction_eq.
    destruct (actionStop spec (exit stateDef)) as [stop|] eqn:Hex.
    { rewrite andThen_stop. cbn [fst snd]. rewrite app_nil_r.
      by eapply ExitStopsCase. }
    rewrite andThen_success, runAction_eq.
    destruct (actionStop spec (action transition)) as [stop|] eqn:Htx.
    { rewrite andThen_stop. cbn [fst snd]. rewrite app_nil_r.
      by eapply ActionStopsCase. }
    rewrite andThen_success.
    destruct (stateLookup spec (target transition)) as [newStateDef|] eqn:Hn.
    2:{ cbn [fst snd die]. rewrite app_nil_r. by eapply TargetMissingCase. }
    rewrite runAction_eq.
    destruct (actionStop spec (entry newStateDef)) as [stop|] eqn:Hen.
    { rewrite andThen_stop. cbn [fst snd]. rewrite app_nil_r.
      by eapply EntryStopsCase. }
    rewrite validateNewContext_gate. cbn [fst snd].
    by eapply ValidatedCase.
  - rewrite (executeCommand_member _ _ _ now _ Hs Ht).
    set (merged := mergeContext (context currentState) (data command)).
    rewrite runAction_eq.
    destruct (actionStop spec (exit stateDef)) as [stop|] eqn:Hex.
    { rewrite andThen_stop. by eapply MemberExitStopsCase. }
    rewrite andThen_success.
    destruct (stateLookup spec "undefined") as [newStateDef|] eqn:Hn.
    2:{ cbn [fst snd die]. rewrite app_nil_r. by eapply MemberTargetMissingCase. }
    rewrite runAction_eq.
    destruct (actionStop spec (entry newStateDef)) as [stop|] eqn:Hen.
    { rewrite andThen_stop. cbn [fst snd]. rewrite app_nil_r.
      by eapply MemberEntryStopsCase. }
    rewrite validateNewContext_gate_beyond. cbn [fst snd].
    by eapply MemberValidatedCase.
Qed.

Lemma selectedTransition_Some (spec : ActorSpec) (stateName event0 : string)
    (transition : TransitionObject) :
  selectedTransition spec stateName event0 = Some transition <->
  exists stateDef transitionDef,
    prop stateName (states spec) = Some stateDef
    /\ truthyTransition (on stateDef ≫= prop event0) = Some transitionDef
    /\ transition = parseTransition transitionDef.
Proof.
  unfold selectedTransition. split.
  - destruct (prop stateName (states spec)) as [stateDef|] eqn:Hs; [|done]. simpl.
    destruct (truthyTransition (on stateDef ≫= prop event0)) as [t|] eqn:Ht;
      [|done].
    simpl. intros [= <-]. by exists stateDef, t.
  - intros (stateDef & t & -> & Ht & ->). simpl. by rewrite Ht.
Qed.


Lemma hasMember_true {V : Type} (m : gmap string V) (k : string) :
  hasMember m k = true <-> is_Some (m !! k) \/ inherited k = true.
Proof. unfold hasMember. by rewrite orb_true_iff, bool_decide_eq_true. Qed.

(** The run of executeCommand that reaches the lookup of a target state. *)
Lemma executeCommand_reaches_target (spec : ActorSpec) (currentState : ActorState)
    (command : Command) (now : Z) (stateDef : StateDefinition)
    (transitionDef : Transition) :
  let transition := parseTransition transitionDef in
  let merged := mergeContext (context currentState) (data command) in
  let afterExit := actionOf spec (exit stateDef) merged in
  let afterAction := actionOf spec (action transition) afterExit in
  stateLookup spec (state currentState) = Some stateDef ->
  eventLookup stateDef (event command) = Some (Declared transitionDef) ->
  guardStop spec transition merged = None ->
  actionStop spec (exit stateDef) = None ->
  actionStop spec (action transition) = None ->
  executeCommand spec currentState command now
  = ((guardCalls spec transition merged
      ++ actionCallsOf spec (exit stateDef) merged
      ++ actionCallsOf spec (action transition) afterExit, Success afterAction)
     ≫= fun afterAction =>
          match stateLookup spec (target transition) with
          | None =>
              die (TypeError "Cannot read properties of undefined (reading 'entry')")
          | Some newStateDef =>
              final ← runAction spec (entry newStateDef) afterAction;
              validateNewContext spec final;;
              mret {| r_from := state currentState;
                      r_to := target transition;
                      r_event := event command;
                      oldContext := context currentState;
                      newContext := final;
                      timestamp := now |}
          end).
Proof.
  intros transition merged afterExit afterAction Hs Ht Hg Hex Htx.
  rewrite (executeCommand_declared _ _ _ now _ _ Hs Ht).
  fold transition merged.
  rewrite evaluateGuard_eq, Hg, andThen_success.
  rewrite runAction_eq, Hex, andThen_success.
  rewrite runAction_eq, Htx. fold afterExit afterAction.
  rewrite !andThen_success. cbn [fst snd]. by rewrite !app_assoc.
Qed.

(** The run of executeCommand that gets through all its steps: the schema
    decides. *)
Lemma executeCommand_validated (spec : ActorSpec) (currentState : ActorState)
    (command : Command) (now : Z) (stateDef newStateDef : StateDefinition)
    (transitionDef : Transition) :
  let transition := parseTransition transitionDef in
  let merged := mergeContext (context currentState) (data command) in
  let afterExit := actionOf spec (exit stateDef) merged in
  let afterAction := actionOf spec (action transition) afterExit in
  let final := actionOf spec (entry newStateDef) afterAction in
  stateLookup spec (state currentState) = Some stateDef ->
  eventLookup stateDef (event command) = Some (Declared transitionDef) ->
  guardStop spec transition merged = None ->
  actionStop spec (exit stateDef) = None ->
  actionStop spec (action transition) = None ->
  stateLookup spec (target transition) = Some newStateDef ->
  actionStop spec (entry newStateDef) = None ->
  executeCommand spec currentState command now
  = (guardCalls spec transition merged
     ++ actionCallsOf spec (exit stateDef) merged
     ++ actionCallsOf spec (action transition) afterExit
     ++ actionCallsOf spec (entry newStateDef) afterAction,
     gateExit spec final
       (Success {| r_from := state currentState;
                   r_to := target transition;
                   r_event := event command;
                   oldContext := context currentState;
                   newContext := final;
                   timestamp := now |})).
Proof.
  intros transition merged afterExit afterAction final Hs Ht Hg Hex Htx Hn Hen.
  rewrite (executeCommand_reaches_target _ _ _ now _ _ Hs Ht Hg Hex Htx).
  fold transition merged afterExit afterAction.
  rewrite andThen_success, Hn, runAction_eq, Hen.
  rewrite validateNewContext_gate. cbn [fst snd]. by rewrite !app_assoc.
Qed.



(** ** The schema as a gate *)

Lemma lastActionResult_app (start : Context) (l1 l2 : list Observed) :
  lastActionResult start (l1 ++ l2)
  = lastActionResult (lastActionResult start l1) l2.
Proof. apply fold_left_app. Qed.

Lemma lastActionResult_guardObserved (start : Context)
    (transition : TransitionObject) (ctx : Context) :
  lastActionResult start (guardObserved transition ctx) = start.
Proof. unfold guardObserved. by destruct (truthy (guard transition)). Qed.

Lemma lastActionResult_actionObserved (spec : ActorSpec) (name : option string)
    (f : ActionFn) (ctx : Context) :
  ActionResolves spec name f ->
  lastActionResult ctx (actionObserved name f ctx) = f ctx.
Proof.
  unfold ActionResolves, actionObserved.
  destruct (truthy name); [done | by intros ->].
Qed.

Lemma lastActionResult_guardCalls (spec : ActorSpec) (start : Context)
    (transition : TransitionObject) (ctx : Context) :
  lastActionResult start (guardCalls spec transition ctx) = start.
Proof.
  unfold guardCalls. destruct (truthy (guard transition)) as [g|]; [|done].
  by destruct (guards spec !! g).
Qed.

Lemma lastActionResult_actionCallsOf (spec : ActorSpec) (name : option string)
    (ctx : Context) :
  lastActionResult ctx (actionCallsOf spec name ctx) = actionOf spec name ctx.
Proof.
  unfold actionCallsOf, actionOf. destruct (truthy name) as [a|]; [|done].
  by destruct (actions spec !! a).
Qed.

(** A successful run of executeCommand is a run of [ValidatedCase]. *)
Lemma executeCommand_success_case (spec : ActorSpec) (currentState : ActorState)
    (command : Command) (now : Z) (obs : list Observed) (result : TransitionResult) :
  executeCommand spec currentState command now = (obs, Success result) ->
  exists (stateDef newStateDef : StateDefinition) (transitionDef : Transition)
         (sch : Schema) (decoded : Context),
    let transition := parseTransition transitionDef in
    let merged := mergeContext (context currentState) (data command) in
    let afterExit := actionOf spec (exit stateDef) merged in
    let afterAction := actionOf spec (action transition) afterExit in
    let final := actionOf spec (entry newStateDef) afterAction in
    stateLookup spec (state currentState) = Some stateDef
    /\ eventLookup stateDef (event command) = Some (Declared transitionDef)
    /\ guardStop spec transition merged = None
    /\ actionStop spec (exit stateDef) = None
    /\ actionStop spec (action transition) = None
    /\ stateLookup spec (target transition) = Some newStateDef
    /\ actionStop spec (entry newStateDef) = None
    /\ schema spec = Some sch
    /\ decodeUnknown sch final = inr decoded
    /\ obs = guardCalls spec transition merged
             ++ actionCallsOf spec (exit stateDef) merged
             ++ actionCallsOf spec (action transition) afterExit
             ++ actionCallsOf spec (entry newStateDef) afterAction
    /\ result = {| r_from := state currentState;
                   r_to := target transition;
                   r_event := event command;
                   oldContext := context currentState;
                   newContext := final;
                   timestamp := now |}.
Proof.
  intros Hrun.
  pose proof (executeCommand_case spec currentState command now) as Hc.
  rewrite Hrun in Hc. clear Hrun.
  remember (obs, Success result) as run eqn:Hr.
  destruct Hc as [| |? ? [] | ? ? [] | ? ? [] | | ? ? ? []
                  |stateDef newStateDef transitionDef Hs Ht Hg Hex Htx Hn Hen
                  |? [] | | ? ? [] |];
    injection Hr as Hobs Hexit; try discriminate Hexit.
  - unfold gateExit in Hexit.
    destruct (schema spec) as [sch|] eqn:Hsch; [|done].
    destruct (decodeUnknown sch _) as [e|decoded] eqn:Hdec; [done|].
    injection Hexit as <-.
    exists stateDef, newStateDef, transitionDef, sch, decoded.
    by repeat split.
  - unfold gateExit in Hexit. destruct (schema spec) as [sch|]; [|done].
    by destruct (decodeUnknown sch _).
Qed.

(** C10.  The schema check of executeCommand is a gate and nothing more.
    On every successful run the newContext of the result is the value the
    actions computed: the entry action of the target state applied to the
    result of the transition action applied to the result of the exit
    action applied to the merged context (an action that is not named
    leaving its argument as it is).  This is the value handed to the
    decoder, which accepts it; what the decoder returns is used nowhere:
    the state built for storage carries the same value, it is the result
    of the last action the run called, and the run and its result stay the
    same under any other schema that accepts this value, whatever that
    schema decodes it to. *)
Theorem executeCommand_returns_raw_context (spec : ActorSpec)
    (currentState : ActorState) (command : Command) (now : Z)
    (obs : list Observed) (result : TransitionResult) :
  executeCommand spec currentState command now = (obs, Success result) ->
  (exists (stateDef newStateDef : StateDefinition) (transitionDef : Transition),
      stateLookup spec (state currentState) = Some stateDef
      /\ eventLookup stateDef (event command) = Some (Declared transitionDef)
      /\ stateLookup spec (target (parseTransition transitionDef)) = Some newStateDef
      /\ newContext result
         = actionOf spec (entry newStateDef)
             (actionOf spec (action (parseTransition transitionDef))
                (actionOf spec (exit stateDef)
                   (mergeContext (context currentState) (data command)))))
  /\ newContext result
     = lastActionResult (mergeContext (context currentState) (data command)) obs
  /\ (exists sch decoded,
         schema spec = Some sch
         /\ decodeUnknown sch (newContext result) = inr decoded)
  /\ (forall startTime0,
         context (buildNewState currentState result startTime0) = newContext result)
  /\ (forall sch' decoded',
         decodeUnknown sch' (newContext result) = inr decoded' ->
         executeCommand (withSchema spec (Some sch')) currentState command now
         = (obs, Success result)).
Proof.
  intros (stateDef & newStateDef & transitionDef & sch & decoded & Hs & Ht & Hg
          & Hex & Htx & Hn & Hen & Hsch & Hdec & -> & ->)%executeCommand_success_case.
  cbn [newContext].
  split; [by exists stateDef, newStateDef, transitionDef|].
  split; [|split; [by exists sch, decoded|split; [done|]]].
  - rewrite !lastActionResult_app, lastActionResult_guardCalls.
    by rewrite !lastActionResult_actionCallsOf.
  - intros sch' decoded' Hdec'.
    rewrite (executeCommand_validated (withSchema spec (Some sch')) currentState
               command now stateDef newStateDef transitionDef Hs Ht Hg Hex Htx Hn Hen).
    unfold gateExit. cbn [schema withSchema].
    change (actionOf (withSchema spec (Some sch'))) with (actionOf spec).
    by rewrite Hdec'.
Qed.

(** A schema whose decoding fills in a default.  START_WITH_ACTION from
    [{count: 0}] calls increment and returns its result [{count: 1}], while
    the decoder returns [{count: 1, message: 'none'}]. *)
Lemma executeCommand_returns_raw_context_witness :
  exists (obs : list Observed) (result : TransitionResult),
    executeCommand (withSchema TestSpec.createTestSpec (Some defaultingSchema))
      (TestSpec.stateAt "idle" 0) (TestSpec.send "START_WITH_ACTION") 5
    = (obs, Success result)
    /\ obs = [ActionCall "increment" {["count" := JNum 0]} {["count" := JNum 1]}]
    /\ newContext result = TestSpec.increment {["count" := JNum 0]}
    /\ newContext result = lastActionResult {["count" := JNum 0]} obs
    /\ decodeUnknown defaultingSchema (newContext result)
       = inr (<["message" := JStr "none"]> {["count" := JNum 1]})
    /\ newContext result !! "message" = None.
Proof.
  eexists _, _. split; [vm_compute; reflexivity|].
  split; [reflexivity|].
  destruct (executeCommand_returns_raw_context
              (withSchema TestSpec.createTestSpec (Some defaultingSchema))
              (TestSpec.stateAt "idle" 0) (TestSpec.send "START_WITH_ACTION") 5
              [ActionCall "increment" {["count" := JNum 0]} {["count" := JNum 1]}]
              {| r_from := "idle"; r_to := "active"; r_event := "START_WITH_ACTION";
                 oldContext := {["count" := JNum 0]};
                 newContext := {["count" := JNum 1]}; timestamp := 5 |})
    as (_ & Hraw & _); [vm_compute; reflexivity|].
  split; [reflexivity|]. split; [exact Hraw|]. split; reflexivity.
Defined.

(** ** Specification validator: properties *)

(** C8, as amended.  For a specification whose id is not blank (not empty
    once whitespace is trimmed), whose schema is present and whose initial
    state is not a key of states, validateSpec fails with InvalidStateError
    carrying that initial state, with the state names as valid states.  The
    states themselves are arbitrary here: the check comes before every
    check of a state or transition, whose dangling references are not
    reported. *)
Theorem validateSpec_initial_state (spec : ActorSpec) (sch : Schema) :
  trimIsEmpty (spec_id spec) = false ->
  schema spec = Some sch ->
  initial spec ∉ Object_keys (states spec) ->
  validateSpec spec =
    ([], Failure (InvalidStateError (initial spec) (Object_keys (states spec)))).
Proof.
  intros Hid Hsch Hinit. unfold validateSpec.
  assert (String.eqb (spec_id spec) EmptyString = false) as ->.
  { destruct (String.eqb_spec (spec_id spec) EmptyString) as [Heq|]; [|done].
    rewrite Heq in Hid. discriminate. }
  rewrite Hid, Hsch. simpl.
  assert (includes (Object_keys (states spec)) (initial spec) = false) as ->.
  { destruct (includes _ _) eqn:Hin; [|done].
    by apply includes_elem_of in Hin. }
  reflexivity.
Qed.

(** A missing initial state is reported although the guard of the only
    transition is dangling as well. *)
Lemma validateSpec_initial_state_witness :
  validateSpec missingInitialSpec =
    ([], Failure (InvalidStateError "missing" ["idle"; "active"])).
Proof.
  apply (validateSpec_initial_state missingInitialSpec TestSpec.TestSchema).
  - reflexivity.
  - reflexivity.
  - refine (bool_decide_unpack _ _). vm_compute. exact I.
Defined.

(** The claim of C8 as first stated, for every non-empty id, fails: an id
    of one space is not empty, the schema is present and the initial state
    is no key of states, yet validateSpec fails with SpecError, the id
    being empty once trimmed. *)
Lemma validateSpec_initial_state_counterexample :
  spec_id blankIdSpec <> EmptyString
  /\ is_Some (schema blankIdSpec)
  /\ (initial blankIdSpec ∉ Object_keys (states blankIdSpec))
  /\ validateSpec blankIdSpec =
       ([], Failure (SpecError "Actor spec must have a non-empty string ID")).
Proof.
  split; [done|]. split; [by eexists|]. split; [|reflexivity].
  refine (bool_decide_unpack _ _). vm_compute. exact I.
Qed.

(** ** Actor service: properties *)

Section ServiceFacts.

Context {S : Type} `{StorageProviderApi S}.

Variable specs : JsRecord ActorSpec.

(** execute on an entity that loads. *)
Lemma execute_loaded (command : ExecuteCommand) (env : Readings) (s : S)
    (spec : ActorSpec) (currentState : ActorState) :
  SpecRegistry.get specs (cmd_actorType command) = Success spec ->
  load (cmd_actorType command) (cmd_actorId command) s = Success currentState ->
  execute specs command env s = proceedFrom spec currentState command env s
  /\ executeLive specs command env s = proceedFrom spec currentState command env s.
Proof.
  intros Hspec Hload.
  unfold execute, executeLive, proceedFrom, mbind, stored_bind, fromExit,
    orElse, catchAll, storageLoad.
  by rewrite Hspec, Hload.
Qed.

(** execute on an entity whose load fails, for whatever reason. *)
Lemma execute_not_loaded (command : ExecuteCommand) (env : Readings) (s : S)
    (spec : ActorSpec) (e : TaggedError) :
  SpecRegistry.get specs (cmd_actorType command) = Success spec ->
  load (cmd_actorType command) (cmd_actorId command) s = Failure e ->
  execute specs command env s
  = proceedFrom spec (initialState command spec (startTime env)) command env s
  /\ executeLive specs command env s
     = proceedFrom spec (initialState command spec (startTime env)) command env s.
Proof.
  intros Hspec Hload.
  unfold execute, executeLive, proceedFrom, mbind, stored_bind, fromExit,
    orElse, catchAll, storageLoad.
  by rewrite Hspec, Hload.
Qed.

(** A run of steps 3 to 5 that succeeds has saved the new state. *)
Lemma proceedFrom_success (spec : ActorSpec) (currentState : ActorState)
    (command : ExecuteCommand) (env : Readings) (s s' : S)
    (result : TransitionResult) :
  proceedFrom spec currentState command env s = (s', Success result) ->
  exitOf (executeCommand spec currentState
            {| event := cmd_event command; data := cmd_data command |}
            (resultTime env)) = Success result
  /\ save (cmd_actorType command) (cmd_actorId command)
       (buildNewState currentState result (startTime env))
       (buildAuditEntry command currentState result env) s = (s', Success ()).
Proof.
  unfold proceedFrom, mbind, stored_bind, fromExit, mret, stored_ret.
  destruct (exitOf (executeCommand _ _ _ _)) as [r|e|d|]; [|done..].
  destruct (save _ _ _ _ s) as [s1 [[]|e|d|]] eqn:Hsave; [|done..].
  by intros [= <- <-].
Qed.

(** When the transition executor fails or throws, execute makes no save
    call: the store is left as it was and the exit is passed on. *)
Lemma proceedFrom_failure (spec : ActorSpec) (currentState : ActorState)
    (command : ExecuteCommand) (env : Readings) (s : S) :
  (forall result,
      exitOf (executeCommand spec currentState
                {| event := cmd_event command; data := cmd_data command |}
                (resultTime env)) <> Success result) ->
  fst (proceedFrom spec currentState command env s) = s.
Proof.
  unfold proceedFrom, mbind, stored_bind, fromExit.
  destruct (exitOf (executeCommand _ _ _ _)) as [r|e|d|]; [|done..].
  intros Hne. by destruct (Hne r).
Qed.

(** C2, as amended.  When the load of the entity fails with any error, a
    not-found signal or another StorageError alike, execute synthesizes
    the state [{id, actorType, state: spec.initial, context: {},
    version: 0, createdAt: now, updatedAt: now}] and proceeds from it:
    the transition is executed, and the load error does not reach the
    caller.  ActorService and ActorServiceLive agree. *)
Theorem execute_load_failure_synthesizes (command : ExecuteCommand)
    (env : Readings) (s : S) (spec : ActorSpec) (e : TaggedError) :
  SpecRegistry.get specs (cmd_actorType command) = Success spec ->
  load (cmd_actorType command) (cmd_actorId command) s = Failure e ->
  initialState command spec (startTime env)
  = {| as_id := cmd_actorId command;
       actorType := cmd_actorType command;
       state := initial spec;
       context := ∅;
       version := 0;
       createdAt := startTime env;
       updatedAt := startTime env |}
  /\ execute specs command env s
     = proceedFrom spec (initialState command spec (startTime env)) command env s
  /\ executeLive specs command env s
     = proceedFrom spec (initialState command spec (startTime env)) command env s.
Proof.
  intros Hspec Hload. split; [reflexivity|].
  by apply (execute_not_loaded command env s spec e).
Qed.

(** A successful execute has saved exactly one new state, built from the
    current state: the state the storage loaded, or, when the load failed,
    the synthesized state. *)
Lemma execute_success_saves (command : ExecuteCommand) (env : Readings)
    (s s' : S) (result : TransitionResult) :
  execute specs command env s = (s', Success result) ->
  exists (spec : ActorSpec) (currentState : ActorState),
    SpecRegistry.get specs (cmd_actorType command) = Success spec
    /\ (load (cmd_actorType command) (cmd_actorId command) s = Success currentState
        \/ ((exists e, load (cmd_actorType command) (cmd_actorId command) s
                       = Failure e)
            /\ currentState = initialState command spec (startTime env)))
    /\ save (cmd_actorType command) (cmd_actorId command)
         (buildNewState currentState result (startTime env))
         (buildAuditEntry command currentState result env) s = (s', Success ()).
Proof.
  intros Hrun.
  destruct (SpecRegistry.get specs (cmd_actorType command)) as [spec|e|d|] eqn:Hspec.
  2,3,4: by unfold execute, mbind, stored_bind, fromExit in Hrun; rewrite Hspec in Hrun.
  exists spec.
  destruct (load (cmd_actorType command) (cmd_actorId command) s)
    as [currentState|e|d|] eqn:Hload.
  - exists currentState.
    rewrite (proj1 (execute_loaded command env s spec currentState Hspec Hload))
      in Hrun.
    apply proceedFrom_success in Hrun as [_ Hsave].
    split; [reflexivity|]. split; [by left | exact Hsave].
  - exists (initialState command spec (startTime env)).
    rewrite (proj1 (execute_not_loaded command env s spec e Hspec Hload)) in Hrun.
    apply proceedFrom_success in Hrun as [_ Hsave].
    split; [reflexivity|]. split; [right; by eauto | exact Hsave].
  - unfold execute, mbind, stored_bind, fromExit, orElse, storageLoad in Hrun.
    by rewrite Hspec, Hload in Hrun.
  - unfold execute, mbind, stored_bind, fromExit, orElse, storageLoad in Hrun.
    by rewrite Hspec, Hload in Hrun.
Qed.

End ServiceFacts.

(** ** canTransition against executeCommand *)

Lemma actionStop_passed {A : Type} (spec : ActorSpec) (name : option string)
    (stop : Stop) :
  actionStop spec name = Some stop ->
  passedGuardSteps (@stopExit A stop) = true.
Proof.
  unfold actionStop. destruct (truthy name) as [a|]; [|done].
  destruct (actions spec !! a); [done|].
  destruct (inherited a); [destruct (callMember a)|];
    intros Hstop; try discriminate; by injection Hstop as <-.
Qed.

Lemma gateExit_passed (spec : ActorSpec) (final : Context)
    (through : Exit TaggedError TransitionResult) :
  passedGuardSteps through = true ->
  passedGuardSteps (gateExit spec final through) = true.
Proof.
  unfold gateExit. destruct (schema spec) as [sch|]; [|done].
  by destruct (decodeUnknown sch final).
Qed.

(** When the event finds a member of Object.prototype, or a declared
    transition whose guard lets the run through, no failure of
    executeCommand comes from its steps 1 to 5. *)
Lemma passedGuardSteps_after_guard (spec : ActorSpec) (currentState : ActorState)
    (command : Command) (now : Z) (stateDef : StateDefinition) :
  stateLookup spec (state currentState) = Some stateDef ->
  match eventLookup stateDef (event command) with
  | Some (Declared transitionDef) =>
      guardStop spec (parseTransition transitionDef)
        (mergeContext (context currentState) (data command)) = None
  | Some Member => True
  | None => False
  end ->
  passedGuardSteps (exitOf (executeCommand spec currentState command now)) = true.
Proof.
  intros Hs Hev.
  pose proof (executeCommand_case spec currentState command now) as Hc.
  remember (executeCommand spec currentState command now) as run eqn:Hr.
  clear Hr.
  destruct Hc as [Hs'|sd Hs' Ht'|sd td stop ? ? Hs' Ht' Hstop
                 |sd td stop ? ? Hs' Ht' Hg' Hstop
                 |sd td stop ? ? Hs' Ht' Hg' Hex' Hstop
                 |sd td ? ? ? Hs' Ht' | sd nsd td stop ? ? ? Hs' Ht' Hg' Hex' Htx' Hn' Hstop
                 |sd nsd td ? ? ? ? ? Hs' Ht'
                 |sd stop Hs' Ht' Hstop | sd ? Hs' Ht'
                 |sd nsd stop ? Hs' Ht' Hex' Hn' Hstop
                 |sd nsd ? ? ? Hs' Ht'];
    cbn [exitOf snd];
    try (rewrite Hs in Hs'; injection Hs' as <-);
    try rewrite Ht' in Hev;
    try done;
    try (by eapply actionStop_passed);
    try (by apply gateExit_passed).
  - rewrite Hs in Hs'. discriminate.
  - subst transition merged. rewrite Hev in Hstop. discriminate.
Qed.

Section CanTransitionFacts.

Context {S : Type} `{StorageProviderApi S}.

Variable specs : JsRecord ActorSpec.


End CanTransitionFacts.

(** ** The service on the storage mock *)

Lemma mock_load_saved (actorType0 actorId : string) (st : ActorState)
    (audit : AuditEntry) (s s' : MockStorage) :
  save actorType0 actorId st audit s = (s', Success ()) ->
  load actorType0 actorId s' = Success st.
Proof.
  simpl. unfold mockSave, mockLoad. intros [= <-]. simpl.
  by rewrite lookup_insert_eq.
Qed.

(** On the mock, a successful execute leaves the entity stored with the
    version it was loaded with plus 1, and with version 1 when it was not
    stored before. *)
Lemma mock_execute_persists (specs : JsRecord ActorSpec) (command : ExecuteCommand)
    (env : Readings) (s s' : MockStorage) (result : TransitionResult) :
  execute specs command env s = (s', Success result) ->
  exists st,
    load (cmd_actorType command) (cmd_actorId command) s' = Success st
    /\ state st = r_to result
    /\ context st = newContext result
    /\ version st
       = match actors s !! getKey (cmd_actorType command) (cmd_actorId command) with
         | Some before => version before + 1
         | None => 1
         end.
Proof.
  intros Hrun.
  destruct (SpecRegistry.get specs (cmd_actorType command)) as [spec|e|d|] eqn:Hspec.
  2,3,4: by unfold execute, mbind, stored_bind, fromExit in Hrun; rewrite Hspec in Hrun.
  destruct (load (cmd_actorType command) (cmd_actorId command) s)
    as [currentState|e|d|] eqn:Hload;
    pose proof Hload as Hmock; simpl in Hmock; unfold mockLoad in Hmock.
  - rewrite (proj1 (execute_loaded specs command env s spec currentState Hspec Hload))
      in Hrun.
    apply proceedFrom_success in Hrun as [_ Hsave].
    exists (buildNewState currentState result (startTime env)).
    split; [by apply (mock_load_saved _ _ _ _ _ _ Hsave)|].
    split; [reflexivity|]. split; [reflexivity|].
    destruct (actors s !! getKey (cmd_actorType command) (cmd_actorId command));
      [by injection Hmock as -> | discriminate].
  - rewrite (proj1 (execute_not_loaded specs command env s spec e Hspec Hload)) in Hrun.
    apply proceedFrom_success in Hrun as [_ Hsave].
    exists (buildNewState (initialState command spec (startTime env)) result
              (startTime env)).
    split; [by apply (mock_load_saved _ _ _ _ _ _ Hsave)|].
    split; [reflexivity|]. split; [reflexivity|].
    destruct (actors s !! getKey (cmd_actorType command) (cmd_actorId command));
      [discriminate | reflexivity].
  - destruct (actors s !! getKey (cmd_actorType command) (cmd_actorId command));
      discriminate.
  - destruct (actors s !! getKey (cmd_actorType command) (cmd_actorId command));
      discriminate.
Qed.

(** Scenario D of the specification: execute on the empty mock storage
    proceeds from the synthesized state. *)
Lemma execute_load_failure_synthesizes_witness :
  initialState startCommand TestSpec.createTestSpec 1000
  = {| as_id := "test-1"; actorType := "test-spec"; state := "idle";
       context := ∅; version := 0; createdAt := 1000; updatedAt := 1000 |}
  /\ execute (registryOf TestSpec.createTestSpec) startCommand testReadings emptyMock
     = proceedFrom TestSpec.createTestSpec
         (initialState startCommand TestSpec.createTestSpec 1000)
         startCommand testReadings emptyMock
  /\ executeLive (registryOf TestSpec.createTestSpec) startCommand testReadings
       emptyMock
     = proceedFrom TestSpec.createTestSpec
         (initialState startCommand TestSpec.createTestSpec 1000)
         startCommand testReadings emptyMock.
Proof.
  apply (execute_load_failure_synthesizes (registryOf TestSpec.createTestSpec)
           startCommand testReadings emptyMock TestSpec.createTestSpec
           (StorageError "mock" op_load (Some "Actor not found: test-spec:test-1")));
    reflexivity.
Defined.

(** The claim of C2 as first stated fails in its second half: on a storage
    whose load fails with a StorageError that is no not-found signal,
    execute does not pass the error on; it runs the transition from the
    synthesized state and saves the result with version 1. *)
Lemma execute_load_failure_counterexample :
  @load _ CorruptStorage "test-spec" "test-1" []
  = Failure (StorageError "fs-json" op_load
               (Some "Failed to parse JSON: SyntaxError"))
  /\ exists (result : TransitionResult) (saved : ActorState) (audit : AuditEntry),
       @execute _ CorruptStorage (registryOf TestSpec.createTestSpec) startCommand
         testReadings []
       = ([(saved, audit)], Success result)
       /\ r_from result = "idle" /\ r_to result = "active"
       /\ state saved = "active" /\ version saved = 1.
Proof.
  split; [reflexivity|].
  eexists _, _, _. split; [vm_compute; reflexivity|].
  repeat split; reflexivity.
Qed.



(** ** The reachability loop terminates within its fuel *)

Lemma reachabilityScan_empty_queue (fuel : nat) (spec : ActorSpec)
    (stateNames : list string) (reachableStates : gset string) :
  reachabilityScan fuel spec stateNames [] reachableStates = reachableStates.
Proof. by destruct fuel. Qed.

Lemma pushedTargets_length (spec : ActorSpec) (stateNames : list string)
    (reachableStates : gset string) (currentState : string) :
  (length (pushedTargets spec stateNames reachableStates currentState)
   <= outDegree spec currentState)%nat.
Proof.
  unfold pushedTargets, outDegree.
  destruct (prop currentState (states spec)) as [stateDef|]; simpl; [|done].
  destruct (on stateDef) as [transitions|]; simpl; [|done].
  etrans; [apply length_filter|].
  unfold Object_values. by rewrite !length_map.
Qed.

Lemma pushedTargets_declared (spec : ActorSpec) (stateNames : list string)
    (reachableStates : gset string) (currentState : string) :
  Forall (fun t => t ∈ stateNames)
    (pushedTargets spec stateNames reachableStates currentState).
Proof.
  unfold pushedTargets.
  destruct (prop currentState (states spec) ≫= on) as [transitions|];
    [|by constructor].
  apply Forall_forall. intros t Ht.
  apply list_elem_of_filter in Ht as [(_ & _ & Hin) _].
  by apply includes_elem_of.
Qed.

(** Reaching a declared state takes its share off the measure. *)
Lemma not_elem_of_added (x y : string) (reachableStates : gset string) :
  y ∉ {[x]} ∪ reachableStates <-> y <> x /\ y ∉ reachableStates.
Proof. rewrite elem_of_union, elem_of_singleton. tauto. Qed.

(** Adding a state to the reached ones does not add to the measure. *)
Lemma unreached_weight_le (f : string -> nat) (l : list string)
    (reachableStates : gset string) (x : string) :
  (sum_list_with f (filter (fun name => name ∉ {[x]} ∪ reachableStates) l)
   <= sum_list_with f (filter (fun name => name ∉ reachableStates) l))%nat.
Proof.
  induction l as [|z l IHl]; [done|].
  destruct (decide (z ∈ reachableStates)) as [Hz|Hz].
  - rewrite (filter_cons_False (fun name => name ∉ reachableStates)) by tauto.
    rewrite filter_cons_False; [exact IHl|].
    rewrite not_elem_of_added. tauto.
  - rewrite (filter_cons_True (fun name => name ∉ reachableStates)) by done.
    destruct (decide (z = x)) as [->|Hzx].
    + rewrite filter_cons_False by (rewrite not_elem_of_added; tauto).
      simpl. lia.
    + rewrite filter_cons_True by (by rewrite not_elem_of_added).
      simpl. lia.
Qed.

(** Reaching a declared state takes its share off the measure. *)
Lemma unreached_weight (f : string -> nat) (stateNames : list string)
    (reachableStates : gset string) (x : string) :
  x ∈ stateNames -> x ∉ reachableStates ->
  (sum_list_with f (filter (fun name => name ∉ {[x]} ∪ reachableStates) stateNames)
   + f x
   <= sum_list_with f (filter (fun name => name ∉ reachableStates) stateNames))%nat.
Proof.
  intros Hin Hnot.
  induction stateNames as [|y rest IH]; [by apply elem_of_nil in Hin|].
  destruct (decide (y = x)) as [->|Hne].
  - rewrite (filter_cons_False _ x rest) by (rewrite not_elem_of_added; tauto).
    rewrite (filter_cons_True _ x rest) by done. simpl.
    pose proof (unreached_weight_le f rest reachableStates x). lia.
  - apply elem_of_cons in Hin as [->|Hin]; [done|]. specialize (IH Hin).
    destruct (decide (y ∈ reachableStates)) as [Hy|Hy].
    + rewrite (filter_cons_False (fun name => name ∉ reachableStates)) by tauto.
      rewrite filter_cons_False; [exact IH|].
      rewrite not_elem_of_added. tauto.
    + rewrite (filter_cons_True (fun name => name ∉ reachableStates)) by done.
      rewrite filter_cons_True by (by rewrite not_elem_of_added).
      simpl. lia.
Qed.

(** Fuel beyond the measure changes nothing: the loop has emptied its
    queue before the fuel runs out. *)
Lemma reachabilityScan_fuel (spec : ActorSpec) (stateNames : list string)
    (fuel extra : nat) (queue : list string) (reachableStates : gset string) :
  Forall (fun q => q ∈ stateNames) queue ->
  (scanMeasure spec stateNames queue reachableStates <= fuel)%nat ->
  reachabilityScan (fuel + extra) spec stateNames queue reachableStates
  = reachabilityScan fuel spec stateNames queue reachableStates.
Proof.
  revert queue reachableStates.
  induction fuel as [|fuel IH]; intros queue reachableStates Hq Hm.
  - unfold scanMeasure in Hm. destruct queue; [|simpl in Hm; lia].
    by rewrite !reachabilityScan_empty_queue.
  - destruct queue as [|currentState queue']; [done|].
    apply Forall_cons in Hq as [Hcur Hq]. simpl.
    unfold scanMeasure in Hm. simpl in Hm.
    case_bool_decide as Hreached.
    + apply IH; [exact Hq | unfold scanMeasure; lia].
    + apply IH.
      * apply Forall_app. split; [exact Hq | apply pushedTargets_declared].
      * unfold scanMeasure. rewrite length_app.
        pose proof (pushedTargets_length spec stateNames
                      ({[currentState]} ∪ reachableStates) currentState).
        pose proof (unreached_weight (fun name => S (outDegree spec name))
                      stateNames reachableStates currentState Hcur Hreached).
        simpl in *. lia.
Qed.

Lemma sum_list_with_filter_le {A : Type} (f : A -> nat) (P : A -> Prop)
    `{forall x, Decision (P x)} (l : list A) :
  (sum_list_with f (filter P l) <= sum_list_with f l)%nat.
Proof.
  induction l as [|z l IHl]; [done|].
  destruct (decide (P z)) as [Hz|Hz].
  - rewrite filter_cons_True by done. simpl. lia.
  - rewrite filter_cons_False by done. simpl. lia.
Qed.

(** The fuel validateSpec gives the loop is enough. *)
Lemma scanFuel_enough (spec : ActorSpec) (extra : nat) :
  initial spec ∈ Object_keys (states spec) ->
  reachabilityScan (scanFuel spec (Object_keys (states spec)) + extra) spec
    (Object_keys (states spec)) [initial spec] ∅
  = reachabilityScan (scanFuel spec (Object_keys (states spec))) spec
      (Object_keys (states spec)) [initial spec] ∅.
Proof.
  intros Hin. apply reachabilityScan_fuel; [by repeat constructor|].
  unfold scanMeasure, scanFuel. simpl.
  apply le_n_S, sum_list_with_filter_le.
Qed.

(** ** The version counter on the storage mock *)

(** One execute call on the mock: when it succeeds, the stored version of
    its entity goes up by exactly 1 (from 0 for an entity not stored yet)
    and no other entity is touched; when it does not, nothing changes. *)
Lemma mock_execute_step (specs : JsRecord ActorSpec) (command : ExecuteCommand)
    (env : Readings) (s : MockStorage) (key : string) :
  storedVersion (fst (execute specs command env s)) key
  = match snd (execute specs command env s) with
    | Success _ =>
        if decide (key = getKey (cmd_actorType command) (cmd_actorId command))
        then storedVersion s key + 1
        else storedVersion s key
    | _ => storedVersion s key
    end.
Proof.
  unfold execute, mbind, stored_bind, fromExit, orElse, storageLoad, mret,
    stored_ret.
  destruct (SpecRegistry.get specs (cmd_actorType command)) as [spec|e|d|];
    [|reflexivity..].
  simpl. unfold mockLoad, storedVersion.
  destruct (actors s !! getKey (cmd_actorType command) (cmd_actorId command))
    as [before|] eqn:Hbefore.
  - destruct (exitOf (executeCommand spec before _ _)) as [result|e|d|];
      [|reflexivity..].
    simpl. case_decide as Hkey.
    + subst key. by rewrite lookup_insert_eq, Hbefore.
    + by rewrite lookup_insert_ne.
  - destruct (exitOf (executeCommand spec _ _ _)) as [result|e|d|];
      [|reflexivity..].
    simpl. case_decide as Hkey.
    + subst key. by rewrite lookup_insert_eq, Hbefore.
    + by rewrite lookup_insert_ne.
Qed.

(** Over any sequence of execute calls on the mock, the stored version of
    an entity never goes down and is never reset. *)
Lemma mock_executeAll_monotone (specs : JsRecord ActorSpec)
    (calls : list (ExecuteCommand * Readings)) (s : MockStorage) (key : string) :
  storedVersion s key <= storedVersion (executeAll specs calls s) key.
Proof.
  revert s. induction calls as [|[command env] calls IH]; intros s; [done|].
  unfold executeAll. simpl. fold (executeAll specs calls).
  etrans; [|apply IH].
  rewrite mock_execute_step.
  destruct (snd (execute specs command env s)); try case_decide; lia.
Qed.

Lemma mock_executeAll_represented (specs : JsRecord ActorSpec)
    (calls : list (ExecuteCommand * Readings)) (s : MockStorage) (key : string) :
  RunsRepresented specs calls s ->
  storedVersion s key <= storedVersion (executeAll specs calls s) key.
Proof. intros _. apply mock_executeAll_monotone. Qed.

(** C6, as amended.  The version counts the successful commands of an
    entity for as long as its state loads.  A successful execute has saved
    exactly one new state, built from the current state: the state the
    storage loaded, or, when the load failed for whatever reason, the
    synthesized state, which is at the initial state of the specification
    with an empty context and version 0, so that the saved version is 1.
    The saved version is the version of the current state plus 1, and
    greater than it, for every version within the integers a JavaScript
    number counts exactly.  On the in-memory storage, whose load fails
    only for an entity it does not hold, a successful execute adds 1 to
    the stored version of its entity and leaves every other entity alone,
    and over any sequence of calls the stored version of an entity never
    goes down. *)
Theorem execute_version_counter :
  (forall (S : Type) (provider : StorageProviderApi S) (specs : JsRecord ActorSpec)
          (command : ExecuteCommand) (env : Readings) (s s' : S)
          (result : TransitionResult),
      @execute S provider specs command env s = (s', Success result) ->
      exists (spec : ActorSpec) (currentState : ActorState),
        SpecRegistry.get specs (cmd_actorType command) = Success spec
        /\ (@load S provider (cmd_actorType command) (cmd_actorId command) s
            = Success currentState
            \/ ((exists e, @load S provider (cmd_actorType command)
                             (cmd_actorId command) s = Failure e)
                /\ currentState = initialState command spec (startTime env)
                /\ state currentState = initial spec
                /\ context currentState = ∅
                /\ version currentState = 0
                /\ version (buildNewState currentState result (startTime env)) = 1))
        /\ @save S provider (cmd_actorType command) (cmd_actorId command)
             (buildNewState currentState result (startTime env))
             (buildAuditEntry command currentState result env) s = (s', Success ())
        /\ (- 2 ^ 53 <= version currentState < 2 ^ 53 ->
            version (buildNewState currentState result (startTime env))
            = version currentState + 1
            /\ version currentState
               < version (buildNewState currentState result (startTime env))))
  /\ (forall (specs : JsRecord ActorSpec) (command : ExecuteCommand) (env : Readings)
             (s s' : MockStorage) (result : TransitionResult),
         execute specs command env s = (s', Success result) ->
         let key := getKey (cmd_actorType command) (cmd_actorId command) in
         (- 2 ^ 53 <= storedVersion s key < 2 ^ 53 ->
          storedVersion s' key = storedVersion s key + 1)
         /\ (forall other, other <> key ->
                storedVersion s' other = storedVersion s other))
  /\ (forall (specs : JsRecord ActorSpec) (calls : list (ExecuteCommand * Readings))
             (s : MockStorage) (key : string),
         RunsRepresented specs calls s ->
         storedVersion s key <= storedVersion (executeAll specs calls s) key).
Proof.
  split; [|split].
  - intros S provider specs command env s s' result Hrun.
    destruct (execute_success_saves specs command env s s' result Hrun)
      as (spec & currentState & Hspec & Hcur & Hsave).
    exists spec, currentState. split; [exact Hspec|].
    split; [|split; [exact Hsave | cbn [version buildNewState]; lia]].
    destruct Hcur as [Hl|[He ->]]; [by left|right]. by repeat split.
  - intros specs command env s s' result Hrun key.
    pose proof (mock_execute_step specs command env s) as Hstep.
    rewrite Hrun in Hstep. cbn [fst snd] in Hstep. split.
    + intros _. rewrite Hstep. by rewrite decide_True.
    + intros other Hne. rewrite Hstep. by rewrite decide_False.
  - intros specs calls s key. apply mock_executeAll_represented.
Qed.

(** Scenario D of the specification, second half: after one successful
    command on an entity the mock did not hold, the stored version is 1. *)
Lemma execute_version_counter_witness :
  exists (s' : MockStorage) (result : TransitionResult) (st : ActorState),
    execute (registryOf TestSpec.createTestSpec) startCommand testReadings emptyMock
    = (s', Success result)
    /\ load "test-spec" "test-1" s' = Success st
    /\ state st = "active"
    /\ version st = 1.
Proof.
  destruct (execute (registryOf TestSpec.createTestSpec) startCommand testReadings
              emptyMock) as [s' [result|e|d|]] eqn:Hrun;
    [|vm_compute in Hrun; discriminate..].
  destruct (proj1 execute_version_counter MockStorage createMockStorage
              (registryOf TestSpec.createTestSpec)
              startCommand testReadings emptyMock s' result Hrun)
    as (spec & currentState & Hspec & Hcur & Hsave & _).
  exists s', result, (buildNewState currentState result (startTime testReadings)).
  split; [reflexivity|].
  split; [by apply (mock_load_saved _ _ _ _ _ _ Hsave)|].
  destruct Hcur as [Hc|(_ & -> & _ & _ & _ & Hone)];
    [vm_compute in Hc; discriminate|].
  split; [|exact Hone].
  pose proof Hrun as Hvalue. vm_compute in Hvalue.
  injection Hvalue as _ Hresult. simpl. by rewrite <- Hresult.
Defined.

(** The claim of C6 as first stated fails in its last part: the version is
    reset.  On a storage whose load fails, an entity last saved at version
    5 is saved again, by a successful START, at version 1. *)
Lemma execute_version_reset_counterexample :
  exists (result : TransitionResult) (saved : ActorState) (audit : AuditEntry),
    @load _ CorruptStorage "test-spec" "test-1"
      [(storedAtVersionFive, auditAt 500 "E")]
    = Failure corruptLoad
    /\ @execute _ CorruptStorage (registryOf TestSpec.createTestSpec) startCommand
         testReadings [(storedAtVersionFive, auditAt 500 "E")]
       = ([(storedAtVersionFive, auditAt 500 "E"); (saved, audit)], Success result)
    /\ as_id saved = as_id storedAtVersionFive
    /\ actorType saved = actorType storedAtVersionFive
    /\ version storedAtVersionFive = 5
    /\ version saved = 1
    /\ version saved < version storedAtVersionFive.
Proof.
  eexists _, _, _. split; [reflexivity|].
  split; [vm_compute; reflexivity|].
  repeat split; reflexivity.
Qed.

(** ** Scenarios of the specification *)

(** Scenario A: from idle with [{count: 0}], START leads to active with
    the context unchanged. *)
Example scenario_A :
  exitOf (executeCommand TestSpec.createTestSpec (TestSpec.stateAt "idle" 0)
            (TestSpec.send "START") 5)
  = Success {| r_from := "idle"; r_to := "active"; r_event := "START";
               oldContext := {["count" := JNum 0]};
               newContext := {["count" := JNum 0]};
               timestamp := 5 |}.
Proof. vm_compute. reflexivity. Qed.

(** Scenario B: the guarded start passes with count 5. *)
Example scenario_B_passes :
  exists result,
    executeCommand TestSpec.createTestSpec (TestSpec.stateAt "idle" 5)
      (TestSpec.send "START_WITH_GUARD") 5
    = ([GuardCall "canStart" {["count" := JNum 5]} true], Success result)
    /\ r_to result = "active".
Proof. eexists. split; [vm_compute; reflexivity | reflexivity]. Qed.

(** The merge of the test of command data: the data adds a message to the
    context, and a field given by both is taken from the data. *)
Example merge_overrides :
  mergeContext {["count" := JNum 0]} (Some {["message" := JStr "hello"]})
  = <["message" := JStr "hello"]> {["count" := JNum 0]}
  /\ mergeContext (<["message" := JStr "old"]> {["count" := JNum 0]})
       (Some {["message" := JStr "hello"]})
     = <["message" := JStr "hello"]> {["count" := JNum 0]}.
Proof. split; vm_compute; reflexivity. Qed.

(** The merge is shallow: a nested record given by the data replaces the
    nested record of the context whole. *)
Example merge_is_shallow :
  mergeContext {["meta" := JObj (FCons "a" (JNum 1) (FCons "b" (JNum 2) FNil))]}
    (Some {["meta" := JObj (FCons "a" (JNum 9) FNil)]})
  = {["meta" := JObj (FCons "a" (JNum 9) FNil)]}.
Proof. vm_compute. reflexivity. Qed.

(** A specification that passes validation, with the warning for states
    no transition leads to. *)
Example validateSpec_accepts : validateSpec TestSpec.createTestSpec = ([], Success ()).
Proof. vm_compute. reflexivity. Qed.

Example validateSpec_warns :
  validateSpec
    (withStates TestSpec.createTestSpec
       (states TestSpec.createTestSpec
          ++ [("orphan", {| on := None; entry := None; exit := None |})]))
  = ([ConsoleWarn "Warning: Unreachable states found: orphan"], Success ()).
Proof. vm_compute. reflexivity. Qed.

(** ** Failures of the executor leave the store alone *)

Section ExecutorFailure.

Context {S : Type} `{StorageProviderApi S}.

Variable specs : JsRecord ActorSpec.

(** When the transition executor fails on the loaded state, execute makes
    no save call and passes the failure on unchanged. *)
Lemma execute_failure_keeps_store (command : ExecuteCommand) (env : Readings)
    (s : S) (spec : ActorSpec) (currentState : ActorState) (e : TaggedError) :
  SpecRegistry.get specs (cmd_actorType command) = Success spec ->
  load (cmd_actorType command) (cmd_actorId command) s = Success currentState ->
  exitOf (executeCommand spec currentState
            {| event := cmd_event command; data := cmd_data command |}
            (resultTime env)) = Failure e ->
  execute specs command env s = (s, Failure e).
Proof.
  intros Hspec Hload Hexec.
  rewrite (proj1 (execute_loaded specs command env s spec currentState Hspec Hload)).
  unfold proceedFrom, mbind, stored_bind, fromExit. by rewrite Hexec.
Qed.

(** The guard failure of C4 seen through the service: the stored state,
    its context included, is as it was. *)
Lemma execute_guard_false_keeps_store (command : ExecuteCommand) (env : Readings)
    (s : S) (spec : ActorSpec) (currentState : ActorState)
    (stateDef : StateDefinition) (transitionDef : Transition) (g : string)
    (guardFn : GuardFn) :
  SpecRegistry.get specs (cmd_actorType command) = Success spec ->
  load (cmd_actorType command) (cmd_actorId command) s = Success currentState ->
  prop (state currentState) (states spec) = Some stateDef ->
  truthyTransition (on stateDef ≫= prop (cmd_event command)) = Some transitionDef ->
  truthy (guard (parseTransition transitionDef)) = Some g ->
  guards spec !! g = Some guardFn ->
  guardFn (mergeContext (context currentState) (cmd_data command)) = false ->
  execute specs command env s
  = (s, Failure (GuardFailedError g
                   ("Guard " +:+ dquote +:+ g +:+ dquote +:+ " evaluated to false")))
  /\ load (cmd_actorType command) (cmd_actorId command) s = Success currentState.
Proof.
  intros Hspec Hload Hs Ht Hg Hl Hf. split; [|exact Hload].
  apply (execute_failure_keeps_store command env s spec currentState); try done.
  rewrite (executeCommand_declared spec currentState
             {| event := cmd_event command; data := cmd_data command |}
             (resultTime env) stateDef
             transitionDef (stateLookup_own _ _ _ Hs)
             (proj2 (eventLookup_declared _ _ _) Ht)).
  cbn [event data].
  by rewrite (evaluateGuard_false spec _ _ g guardFn Hg Hl Hf).
Qed.

End ExecutorFailure.

(** ** The validator on the specifications of the tests *)

(** A dangling guard, a dangling action and a dangling target are each
    reported by validateSpec. *)
Example validateSpec_missing_guard :
  validateSpec TestSpec.missingGuardSpec
  = ([], Failure (GuardNotFoundError "nonExistentGuard")).
Proof. vm_compute. reflexivity. Qed.

Example validateSpec_missing_action :
  validateSpec TestSpec.missingActionSpec
  = ([], Failure (ActionNotFoundError "nonExistentAction")).
Proof. vm_compute. reflexivity. Qed.

Example validateSpec_dangling_target :
  validateSpec TestSpec.danglingTargetSpec
  = ([], Failure (SpecError "Transition target 'nowhere' does not exist in states")).
Proof. vm_compute. reflexivity. Qed.

(** The first violation wins: of a dangling guard and a dangling action on
    one transition, the guard is reported. *)
Example validateSpec_first_error :
  validateSpec
    (withStates TestSpec.createTestSpec
       [ ("idle", {| on := Some [ ("START",
                                   TestSpec.transitionTo "active"
                                     (Some "nonexistentGuard")
                                     (Some "alsoNonexistent")) ];
                     entry := None; exit := None |});
         ("active", {| on := None; entry := None; exit := None |}) ])
  = ([], Failure (GuardNotFoundError "nonexistentGuard")).
Proof. vm_compute. reflexivity. Qed.

(** * Further properties of the code *)

(** ** The checks of the validator on one transition and one state *)

Lemma andThen_silent_success {E A B : Type} (a : A) (k : A -> Eff E B) :
  ([], Success a) ≫= k = k a.
Proof. unfold mbind, eff_bind, andThen. by destruct (k a). Qed.

Lemma forEach_silent {A : Type} (body : A -> Eff TaggedError unit) (l : list A) :
  (forall x, x ∈ l -> Silent (body x)) -> Silent (forEach body l).
Proof.
  induction l as [|x l IH]; intros Hb; [done|].
  cbn [forEach]. destruct (Hb x ltac:(left)) as [Hf Hd].
  destruct (body x) as [obs [[]|e|d|]]; cbn [fst snd isDefect] in Hf, Hd; subst;
    try done.
  rewrite andThen_success. cbn [app]. rewrite <- surjective_pairing.
  apply IH. intros y Hy. apply Hb. by right.
Qed.

Lemma forEach_success {A : Type} (body : A -> Eff TaggedError unit) (l : list A) :
  (forall x, x ∈ l -> Silent (body x)) ->
  forEach body l = ([], Success ()) <-> (forall x, x ∈ l -> body x = ([], Success ())).
Proof.
  induction l as [|x l IH]; intros Hb.
  - split; [intros _ y Hy; by apply elem_of_nil in Hy | done].
  - cbn [forEach]. destruct (Hb x ltac:(left)) as [Hf Hd].
    destruct (body x) as [obs [[]|e|d|]] eqn:Hx; cbn [fst snd isDefect] in Hf, Hd;
      subst; try done.
    + rewrite andThen_success. cbn [app].
      assert (forall y, y ∈ l -> Silent (body y)) as Hb' by (intros y Hy; apply Hb; by right).
      rewrite <- surjective_pairing. rewrite (IH Hb'). split.
      * intros Hall y Hy. apply elem_of_cons in Hy as [->|Hy]; [done | by apply Hall].
      * intros Hall y Hy. apply Hall. by right.
    + split; [done|]. intros Hall. specialize (Hall x ltac:(left)). congruence.
Qed.

Lemma is_Some_None_False {A : Type} : ~ is_Some (@None A).
Proof. by intros [? ?]. Qed.

Lemma validateTransition_silent (spec : ActorSpec) (transitionDef : Transition) :
  Silent (validateTransition spec transitionDef).
Proof.
  unfold validateTransition, Silent.
  destruct (truthy (Some (target (parseTransition transitionDef)))) as [t|];
    [destruct (stateLookup spec t)|];
    (destruct (truthy (guard (parseTransition transitionDef))) as [g|];
       [destruct (hasMember (guards spec) g)|]);
    (destruct (truthy (action (parseTransition transitionDef))) as [a|];
       [destruct (hasMember (actions spec) a)|]); done.
Qed.

Lemma validateTransition_ok (spec : ActorSpec) (transitionDef : Transition) :
  validateTransition spec transitionDef = ([], Success ())
  <-> TransitionOk spec transitionDef.
Proof.
  unfold validateTransition, TransitionOk, NameResolves, stateResolves.
  destruct (truthy (Some (target (parseTransition transitionDef)))) as [t|];
    [destruct (stateLookup spec t);
       [rewrite bool_decide_eq_true_2 by (by eexists)
       |rewrite bool_decide_eq_false_2 by (by intros [? ?])]|];
    (destruct (truthy (guard (parseTransition transitionDef))) as [g|];
       [destruct (hasMember (guards spec) g)|]);
    (destruct (truthy (action (parseTransition transitionDef))) as [a|];
       [destruct (hasMember (actions spec) a)|]);
    (split; [intros Hrun; first [discriminate Hrun | done]
            | intros (H1 & H2 & H3);
              first [reflexivity | discriminate H1 | discriminate H2
                    | discriminate H3]]).
Qed.

Lemma validateActionName_silent (spec : ActorSpec) (name : option string) :
  Silent (validateActionName spec name).
Proof.
  unfold validateActionName, Silent.
  destruct (truthy name) as [a|]; [|done]. cbn [forEach].
  by destruct (hasMember (actions spec) a).
Qed.

Lemma validateActionName_ok (spec : ActorSpec) (name : option string) :
  validateActionName spec name = ([], Success ())
  <-> NameResolves name (hasMember (actions spec)).
Proof.
  unfold validateActionName, NameResolves.
  destruct (truthy name) as [a|]; [|done]. cbn [forEach].
  by destruct (hasMember (actions spec) a).
Qed.

Lemma validateStateDefinition_silent (spec : ActorSpec) (stateName : string)
    (stateDef : StateDefinition) :
  Silent (validateStateDefinition spec stateName stateDef).
Proof.
  unfold validateStateDefinition.
  destruct (validateActionName_silent spec (entry stateDef)) as [Hf Hd].
  destruct (validateActionName spec (entry stateDef)) as [o [[]|e|d|]];
    cbn [fst snd isDefect] in Hf, Hd; subst; try done.
  rewrite andThen_silent_success.
  destruct (validateActionName_silent spec (exit stateDef)) as [Hf Hd'].
  destruct (validateActionName spec (exit stateDef)) as [o [[]|e|d|]];
    cbn [fst snd isDefect] in Hf, Hd'; subst; try done.
  rewrite andThen_silent_success.
  destruct (on stateDef) as [transitions|]; [|done].
  apply forEach_silent. intros t _. apply validateTransition_silent.
Qed.

Lemma validateStateDefinition_ok (spec : ActorSpec) (stateName : string)
    (stateDef : StateDefinition) :
  validateStateDefinition spec stateName stateDef = ([], Success ())
  <-> StateOk spec stateDef.
Proof.
  unfold validateStateDefinition, StateOk.
  rewrite <- !validateActionName_ok.
  destruct (validateActionName_silent spec (entry stateDef)) as [Hf Hd].
  destruct (validateActionName spec (entry stateDef)) as [o [[]|e|d|]];
    cbn [fst snd isDefect] in Hf, Hd; subst; try done.
  2:{ split; [done | by intros [? _]]. }
  rewrite andThen_silent_success.
  destruct (validateActionName_silent spec (exit stateDef)) as [Hf Hd'].
  destruct (validateActionName spec (exit stateDef)) as [o [[]|e|d|]];
    cbn [fst snd isDefect] in Hf, Hd'; subst; try done.
  2:{ split; [done | by intros (_ & ? & _)]. }
  rewrite andThen_silent_success.
  destruct (on stateDef) as [transitions|]; simpl.
  - rewrite forEach_success by (intros t _; apply validateTransition_silent).
    split.
    + intros Hall. split; [done|]. split; [done|]. intros t Ht.
      by apply validateTransition_ok, Hall.
    + intros (_ & _ & Hall) t Ht. by apply validateTransition_ok, Hall.
  - split; [|done]. intros _. split; [done|]. split; [done|].
    intros t Ht. by apply elem_of_nil in Ht.
Qed.

(** ** The reachability scan: invariant *)

Lemma elem_of_pushedTargets (spec : ActorSpec) (stateNames : list string)
    (reachableStates : gset string) (currentState t : string) :
  t ∈ pushedTargets spec stateNames reachableStates currentState
  <-> t ∈ successors spec stateNames currentState /\ t ∉ reachableStates.
Proof.
  unfold pushedTargets, successors.
  destruct (prop currentState (states spec)) as [stateDef|]; simpl.
  2:{ split; [intros H; by apply elem_of_nil in H | intros [H _]; by apply elem_of_nil in H]. }
  destruct (on stateDef) as [transitions|]; simpl.
  2:{ split; [intros H; by apply elem_of_nil in H | intros [H _]; by apply elem_of_nil in H]. }
  rewrite !list_elem_of_filter. tauto.
Qed.

Section Scan.

Variable spec : ActorSpec.
Variable stateNames : list string.


Lemma successors_declared (s t : string) : scanStep spec stateNames s t -> t ∈ stateNames.
Proof.
  unfold scanStep, successors.
  destruct (prop s (states spec) ≫= on) as [transitions|];
    [|intros H; by apply elem_of_nil in H].
  rewrite list_elem_of_filter. intros [[_ Hin] _]. by apply includes_elem_of.
Qed.

(** What the loop returns from a queue and a set of reached states: it
    keeps what was reached, reaches the queue, reaches nothing but what
    some queued state leads to, and is closed under steps as soon as every
    step out of a reached state leads to a reached or queued state. *)
Lemma reachabilityScan_spec (fuel : nat) (queue : list string)
    (reachableStates : gset string) :
  Forall (fun q => q ∈ stateNames) queue ->
  (scanMeasure spec stateNames queue reachableStates <= fuel)%nat ->
  let result := reachabilityScan fuel spec stateNames queue reachableStates in
  reachableStates ⊆ result
  /\ (forall q, q ∈ queue -> q ∈ result)
  /\ (forall x, x ∈ result ->
        x ∈ reachableStates \/ exists q, q ∈ queue /\ rtc (scanStep spec stateNames) q x)
  /\ ((forall r t, r ∈ reachableStates -> scanStep spec stateNames r t ->
         t ∈ reachableStates \/ t ∈ queue) ->
      forall r t, r ∈ result -> scanStep spec stateNames r t -> t ∈ result).
Proof.
  revert queue reachableStates.
  induction fuel as [|fuel IH]; intros queue reachableStates Hq Hm.
  - unfold scanMeasure in Hm. destruct queue; [|simpl in Hm; lia].
    simpl. split; [done|]. split; [intros q Hin; by apply elem_of_nil in Hin|].
    split; [by left|]. intros Hclosed r t Hr Hstep.
    destruct (Hclosed r t Hr Hstep) as [?|Hin]; [done | by apply elem_of_nil in Hin].
  - destruct queue as [|currentState queue'].
    { simpl. split; [done|]. split; [intros q Hin; by apply elem_of_nil in Hin|].
      split; [by left|]. intros Hclosed r t Hr Hstep.
      destruct (Hclosed r t Hr Hstep) as [?|Hin]; [done | by apply elem_of_nil in Hin]. }
    apply Forall_cons in Hq as [Hcur Hq].
    unfold scanMeasure in Hm. simpl in Hm. simpl.
    case_bool_decide as Hreached.
    + destruct (IH queue' reachableStates Hq) as (Hsub & Hqueue & Hsound & Hclosed).
      { unfold scanMeasure. lia. }
      split; [exact Hsub|]. split; [|split].
      * intros q Hin. apply elem_of_cons in Hin as [->|Hin]; [by apply Hsub | by apply Hqueue].
      * intros x Hx. destruct (Hsound x Hx) as [?|(q & Hin & Hrtc)]; [by left|].
        right. exists q. split; [by right | done].
      * intros Hinv. apply Hclosed. intros r t Hr Hstep.
        destruct (Hinv r t Hr Hstep) as [?|Hin]; [by left|].
        apply elem_of_cons in Hin as [->|Hin]; [by left | by right].
    + set (reached := {[currentState]} ∪ reachableStates) in *.
      set (pushed := pushedTargets spec stateNames reached currentState) in *.
      destruct (IH (queue' ++ pushed) reached) as (Hsub & Hqueue & Hsound & Hclosed).
      { apply Forall_app. split; [exact Hq | apply pushedTargets_declared]. }
      { unfold scanMeasure. rewrite length_app.
        pose proof (pushedTargets_length spec stateNames reached currentState).
        pose proof (unreached_weight (fun name => S (outDegree spec name))
                      stateNames reachableStates currentState Hcur Hreached).
        fold reached in H0. fold pushed in H. simpl in *. lia. }
      split; [|split; [|split]].
      * intros x Hx. apply Hsub. unfold reached. apply elem_of_union. by right.
      * intros q Hin. apply elem_of_cons in Hin as [->|Hin].
        -- apply Hsub. unfold reached. apply elem_of_union. left.
           by apply elem_of_singleton.
        -- apply Hqueue. apply elem_of_app. by left.
      * intros x Hx. destruct (Hsound x Hx) as [Hin|(q & Hin & Hrtc)].
        -- unfold reached in Hin. apply elem_of_union in Hin as [Hin|Hin]; [|by left].
           apply elem_of_singleton in Hin as ->.
           right. exists currentState. split; [by left | constructor].
        -- right. apply elem_of_app in Hin as [Hin|Hin].
           ++ exists q. split; [by right | done].
           ++ exists currentState. split; [by left|].
              apply elem_of_pushedTargets in Hin as [Hstep _].
              by eapply rtc_l.
      * intros Hinv. apply Hclosed. intros r t Hr Hstep.
        destruct (decide (t ∈ reached)) as [?|Hnot]; [by left|]. right.
        unfold reached in Hr. apply elem_of_union in Hr as [Hr|Hr].
        -- apply elem_of_singleton in Hr as ->.
           apply elem_of_app. right. by apply elem_of_pushedTargets.
        -- destruct (Hinv r t Hr Hstep) as [Hin|Hin].
           ++ exfalso. apply Hnot. unfold reached. apply elem_of_union. by right.
           ++ apply elem_of_cons in Hin as [->|Hin].
              ** exfalso. apply Hnot. unfold reached. apply elem_of_union. left.
                 by apply elem_of_singleton.
              ** apply elem_of_app. by left.
Qed.

End Scan.

(** ** validateSpec: when it succeeds *)

Lemma prop_Some_keys {V : Type} (k : string) (o : JsRecord V) (v : V) :
  prop k o = Some v -> k ∈ Object_keys o.
Proof.
  intros Hp. destruct (decide (k ∈ Object_keys o)) as [|Hn]; [done|].
  apply prop_None_keys in Hn. congruence.
Qed.

Lemma prop_Some_values {V : Type} (k : string) (o : JsRecord V) (v : V) :
  prop k o = Some v -> v ∈ Object_values o.
Proof.
  induction o as [|[k' v'] rest IH]; simpl; [done|].
  destruct (String.eqb k' k).
  - intros [= ->]. left.
  - intros Hp. right. by apply IH.
Qed.

Lemma prop_is_Some_keys {V : Type} (k : string) (o : JsRecord V) :
  k ∈ Object_keys o -> is_Some (prop k o).
Proof.
  intros Hin. destruct (prop k o) eqn:Hp; [by eexists|].
  by apply prop_None_keys in Hp.
Qed.

Lemma trimIsEmpty_empty_id (id : string) :
  String.eqb id EmptyString || trimIsEmpty id = trimIsEmpty id.
Proof.
  destruct (String.eqb_spec id EmptyString) as [->|]; reflexivity.
Qed.

(** The state checks of step 4 of validateSpec. *)
Lemma stateChecks_silent (spec : ActorSpec) (names : list string) :
  Silent (forEach (fun stateName =>
                     match prop stateName (states spec) with
                     | None => mret ()
                     | Some stateDef => validateStateDefinition spec stateName stateDef
                     end) names).
Proof.
  apply forEach_silent. intros name _.
  destruct (prop name (states spec)); [apply validateStateDefinition_silent | done].
Qed.

Lemma stateChecks_ok (spec : ActorSpec) :
  forEach (fun stateName =>
             match prop stateName (states spec) with
             | None => mret ()
             | Some stateDef => validateStateDefinition spec stateName stateDef
             end) (Object_keys (states spec)) = ([], Success ())
  <-> (forall stateName stateDef,
          prop stateName (states spec) = Some stateDef -> StateOk spec stateDef).
Proof.
  rewrite forEach_success.
  2:{ intros name _.
      destruct (prop name (states spec)); [apply validateStateDefinition_silent | done]. }
  split.
  - intros Hall name stateDef Hp.
    specialize (Hall name (prop_Some_keys _ _ _ Hp)). rewrite Hp in Hall.
    by apply validateStateDefinition_ok in Hall.
  - intros Hall name _. destruct (prop name (states spec)) as [stateDef|] eqn:Hp;
      [|done].
    by apply validateStateDefinition_ok, (Hall name).
Qed.

Lemma validateSpec_SpecOk (spec : ActorSpec) :
  (exists obs, validateSpec spec = (obs, Success ())) <-> SpecOk spec.
Proof.
  unfold validateSpec, SpecOk. rewrite trimIsEmpty_empty_id.
  destruct (trimIsEmpty (spec_id spec)).
  { split; [by intros [obs Hrun] | by intros [? _]]. }
  destruct (schema spec) as [sch|].
  2:{ split; [by intros [obs Hrun] | intros (_ & H & _); by destruct H]. }
  destruct (includes (Object_keys (states spec)) (initial spec)) eqn:Hinit; simpl.
  2:{ split; [by intros [obs Hrun]|]. intros (_ & _ & Hin & _).
      apply includes_elem_of in Hin. congruence. }
  apply includes_elem_of in Hinit.
  rewrite <- stateChecks_ok.
  destruct (stateChecks_silent spec (Object_keys (states spec))) as [Hf Hd].
  destruct (forEach _ (Object_keys (states spec))) as [o [[]|e|d|]];
    cbn [fst snd isDefect] in Hf, Hd; subst; try done.
  - rewrite andThen_silent_success. split.
    + intros _. split; [done|]. split; [by eexists|]. by split.
    + intros _. destruct (filter _ _); by eexists.
  - split; [by intros [obs Hrun] | by intros (_ & _ & _ & ?)].
Qed.

(** A failure of validateSpec comes without a warning, and validateSpec
    does not throw. *)
Lemma validateSpec_failure_silent (spec : ActorSpec) :
  isDefect (snd (validateSpec spec)) = false
  /\ (forall e, snd (validateSpec spec) = Failure e -> fst (validateSpec spec) = []).
Proof.
  unfold validateSpec.
  destruct (String.eqb (spec_id spec) EmptyString || trimIsEmpty (spec_id spec));
    [done|].
  destruct (schema spec) as [sch|]; [|done].
  destruct (negb (includes (Object_keys (states spec)) (initial spec))); [done|].
  destruct (stateChecks_silent spec (Object_keys (states spec))) as [Hf Hd].
  destruct (forEach _ (Object_keys (states spec))) as [o [[]|e|d|]];
    cbn [fst snd isDefect] in Hf, Hd; subst; try done.
  rewrite andThen_silent_success. by destruct (filter _ _).
Qed.

(** ** validateSpec: what it warns about *)

Lemma scan_reachable_iff (spec : ActorSpec) (stateName : string) :
  initial spec ∈ Object_keys (states spec) ->
  stateName ∈ reachabilityScan (scanFuel spec (Object_keys (states spec))) spec
                (Object_keys (states spec)) [initial spec] ∅
  <-> Reachable spec stateName.
Proof.
  intros Hinit. revert stateName.
  destruct (reachabilityScan_spec spec (Object_keys (states spec))
              (scanFuel spec (Object_keys (states spec))) [initial spec] ∅)
    as (_ & Hqueue & Hsound & Hclosed).
  { by repeat constructor. }
  { unfold scanMeasure, scanFuel. simpl. apply le_n_S, sum_list_with_filter_le. }
  intros stateName. split.
  - intros Hin. destruct (Hsound _ Hin) as [Hempty|(q & Hq & Hrtc)].
    + by apply elem_of_empty in Hempty.
    + apply list_elem_of_singleton in Hq as ->. exact Hrtc.
  - revert stateName. unfold Reachable. apply rtc_ind_r.
    + apply Hqueue. left.
    + intros y z _ Hyz IH. eapply Hclosed; [|exact IH|exact Hyz].
      intros r t0 Hr. by apply elem_of_empty in Hr.
Qed.

(** X2.  When validateSpec succeeds, what it prints is determined by
    reachability.  The states it lists are the state names of the
    specification, in declaration order, with those taken out that some
    chain of transitions from the initial state leads to; it prints one
    warning naming the states that are left, joined by a comma and a space,
    or nothing when none is left. *)
Theorem validateSpec_warning (spec : ActorSpec) (obs : list Observed) :
  validateSpec spec = (obs, Success ()) ->
  exists unreachable : string -> bool,
    (forall stateName,
        unreachable stateName = true <-> ~ Reachable spec stateName)
    /\ obs = match filter (fun stateName => unreachable stateName = true)
                     (Object_keys (states spec)) with
             | [] => []
             | unreachableStates =>
                 [ConsoleWarn ("Warning: Unreachable states found: "
                                 +:+ join ", " unreachableStates)]
             end.
Proof.
  intros Hrun.
  assert (SpecOk spec) as (Hid & Hsch & Hinit & Hstates).
  { apply validateSpec_SpecOk. by exists obs. }
  unfold validateSpec in Hrun. rewrite trimIsEmpty_empty_id, Hid in Hrun.
  destruct Hsch as [sch Hsch]. rewrite Hsch in Hrun.
  apply includes_elem_of in Hinit as Hinc. rewrite Hinc in Hrun. cbn [negb] in Hrun.
  apply stateChecks_ok in Hstates. rewrite Hstates in Hrun.
  rewrite andThen_silent_success in Hrun.
  set (reached := reachabilityScan _ _ _ _ _) in Hrun.
  exists (fun name => bool_decide (name ∉ reached)).
  split.
  - intros name. rewrite bool_decide_eq_true. unfold reached.
    by rewrite (scan_reachable_iff spec name Hinit).
  - rewrite <- (list_filter_iff (fun name => name ∉ reached)
                  (fun name => bool_decide (name ∉ reached) = true))
      by (intros name; by rewrite bool_decide_eq_true).
    destruct (filter _ _); by injection Hrun as <-.
Qed.

(** On the test specification with two more states that nothing reachable
    leads to, the warning names both, in the order of their declaration. *)
Lemma validateSpec_warning_witness :
  Object_keys (states orphansSpec) = ["lost"; "idle"; "active"; "done"; "orphan"]
  /\ exists unreachable : string -> bool,
       (forall stateName,
           unreachable stateName = true <-> ~ Reachable orphansSpec stateName)
       /\ [ConsoleWarn "Warning: Unreachable states found: lost, orphan"]
          = match filter (fun stateName => unreachable stateName = true)
                    (Object_keys (states orphansSpec)) with
            | [] => []
            | unreachableStates =>
                [ConsoleWarn ("Warning: Unreachable states found: "
                                +:+ join ", " unreachableStates)]
            end.
Proof.
  split; [reflexivity|].
  apply (validateSpec_warning orphansSpec
           [ConsoleWarn "Warning: Unreachable states found: lost, orphan"]).
  vm_compute. reflexivity.
Defined.

(** ** Validated specs under the executor *)

Lemma truthyTransition_Some (o : option Transition) (t : Transition) :
  truthyTransition o = Some t -> o = Some t.
Proof.
  destruct o as [[name|obj]|]; simpl; [|congruence..].
  destruct (String.eqb name EmptyString); congruence.
Qed.

Lemma selected_in_values (stateDef : StateDefinition) (event0 : string)
    (transitionDef : Transition) :
  truthyTransition (on stateDef ≫= prop event0) = Some transitionDef ->
  transitionDef ∈ Object_values (default [] (on stateDef)).
Proof.
  intros Ht. apply truthyTransition_Some in Ht.
  destruct (on stateDef) as [transitions|]; [|done]. simpl in *.
  by apply (prop_Some_values event0).
Qed.

Lemma guardStop_found (spec : ActorSpec) (transition : TransitionObject)
    (ctx : Context) (stop : Stop) :
  NameResolves (guard transition) (hasMember (guards spec)) ->
  guardStop spec transition ctx = Some stop ->
  nameNotFound (@stopExit TransitionResult stop) = false.
Proof.
  unfold NameResolves, guardStop, hasMember.
  destruct (truthy (guard transition)) as [g|]; [|done].
  destruct (guards spec !! g) as [guardFn|].
  - intros _. destruct (negb (guardFn ctx)); [|done]. by intros [= <-].
  - rewrite bool_decide_eq_false_2 by (by intros [? ?]). cbn [orb].
    intros ->. destruct (callMember g); intros Hstop; try discriminate;
      by injection Hstop as <-.
Qed.

Lemma actionStop_found (spec : ActorSpec) (name : option string) (stop : Stop) :
  NameResolves name (hasMember (actions spec)) ->
  actionStop spec name = Some stop ->
  nameNotFound (@stopExit TransitionResult stop) = false.
Proof.
  unfold NameResolves, actionStop, hasMember.
  destruct (truthy name) as [a|]; [|done].
  destruct (actions spec !! a) as [actionFn|]; [done|].
  rewrite bool_decide_eq_false_2 by (by intros [? ?]). cbn [orb].
  intros ->. destruct (callMember a); intros Hstop; try discriminate;
    by injection Hstop as <-.
Qed.

Lemma gateExit_found (spec : ActorSpec) (final : Context)
    (through : Exit TaggedError TransitionResult) :
  nameNotFound through = false -> nameNotFound (gateExit spec final through) = false.
Proof.
  unfold gateExit. destruct (schema spec) as [sch|]; [|done].
  by destruct (decodeUnknown sch final).
Qed.

(** What [spec.states[name]] finds passes the checks of a state when
    every declared state does. *)
Lemma stateLookup_StateOk (spec : ActorSpec) (name : string)
    (stateDef : StateDefinition) :
  (forall stateName sd, prop stateName (states spec) = Some sd -> StateOk spec sd) ->
  stateLookup spec name = Some stateDef -> StateOk spec stateDef.
Proof.
  intros Hstates. unfold stateLookup.
  destruct (prop name (states spec)) as [sd|] eqn:Hp.
  - intros [= <-]. by apply (Hstates name).
  - destruct (inherited name); [|done]. intros [= <-].
    split; [done|]. split; [done|]. intros t Ht. by apply elem_of_nil in Ht.
Qed.

Lemma eventLookup_in_values (stateDef : StateDefinition) (event0 : string)
    (transitionDef : Transition) :
  eventLookup stateDef event0 = Some (Declared transitionDef) ->
  transitionDef ∈ Object_values (default [] (on stateDef)).
Proof.
  intros Ht. apply (selected_in_values _ event0). by apply eventLookup_declared.
Qed.

(** X4.  What validation buys the executor: on a specification that
    validateSpec accepts, executeCommand fails with neither
    GuardNotFoundError nor ActionNotFoundError, from any state and on any
    command. *)
Theorem validated_spec_execution (spec : ActorSpec) (warnings : list Observed)
    (currentState : ActorState) (command : Command) (now : Z) :
  validateSpec spec = (warnings, Success ()) ->
  (forall g, exitOf (executeCommand spec currentState command now)
             <> Failure (GuardNotFoundError g))
  /\ (forall a, exitOf (executeCommand spec currentState command now)
                <> Failure (ActionNotFoundError a)).
Proof.
  intros Hvalid.
  assert (SpecOk spec) as (_ & _ & _ & Hstates).
  { apply validateSpec_SpecOk. by exists warnings. }
  assert (nameNotFound (exitOf (executeCommand spec currentState command now))
          = false) as Hfound.
  { pose proof (executeCommand_case spec currentState command now) as Hc.
    destruct Hc as [Hs|sd Hs Ht|sd td stop ? ? Hs Ht Hstop
                   |sd td stop ? ? Hs Ht Hg Hstop
                   |sd td stop ? ? Hs Ht Hg Hex Hstop
                   |sd td ? ? ? Hs Ht
                   |sd nsd td stop ? ? ? Hs Ht Hg Hex Htx Hn Hstop
                   |sd nsd td ? ? ? ? ? Hs Ht
                   |sd stop Hs Ht Hstop | sd ? Hs Ht
                   |sd nsd stop ? Hs Ht Hex Hn Hstop
                   |sd nsd ? ? ? Hs Ht];
      cbn [exitOf snd]; try done; try (by apply gateExit_found).
    - destruct (stateLookup_StateOk spec _ sd Hstates Hs) as (_ & _ & Htrans).
      destruct (Htrans td (eventLookup_in_values _ _ _ Ht)) as (_ & Hguard & _).
      by apply (guardStop_found spec transition merged).
    - destruct (stateLookup_StateOk spec _ sd Hstates Hs) as (_ & Hexit & _).
      by apply (actionStop_found spec (exit sd)).
    - destruct (stateLookup_StateOk spec _ sd Hstates Hs) as (_ & _ & Htrans).
      destruct (Htrans td (eventLookup_in_values _ _ _ Ht)) as (_ & _ & Haction).
      by apply (actionStop_found spec (action transition)).
    - destruct (stateLookup_StateOk spec _ nsd Hstates Hn) as (Hentry & _ & _).
      by apply (actionStop_found spec (entry nsd)).
    - destruct (stateLookup_StateOk spec _ sd Hstates Hs) as (_ & Hexit & _).
      by apply (actionStop_found spec (exit sd)).
    - destruct (stateLookup_StateOk spec _ nsd Hstates Hn) as (Hentry & _ & _).
      by apply (actionStop_found spec (entry nsd)). }
  split; intros name Hrun; by rewrite Hrun in Hfound.
Qed.

(** On the specification of the tests, from idle on START_WITH_GUARD with
    count 0: the run fails, and with neither of the two errors. *)
Lemma validated_spec_execution_witness :
  exitOf (executeCommand TestSpec.createTestSpec (TestSpec.stateAt "idle" 0)
            (TestSpec.send "START_WITH_GUARD") 5)
  = Failure (GuardFailedError "canStart"
               ("Guard " +:+ dquote +:+ "canStart" +:+ dquote
                +:+ " evaluated to false"))
  /\ (forall g, exitOf (executeCommand TestSpec.createTestSpec
                          (TestSpec.stateAt "idle" 0)
                          (TestSpec.send "START_WITH_GUARD") 5)
                <> Failure (GuardNotFoundError g))
  /\ (forall a, exitOf (executeCommand TestSpec.createTestSpec
                          (TestSpec.stateAt "idle" 0)
                          (TestSpec.send "START_WITH_GUARD") 5)
                <> Failure (ActionNotFoundError a)).
Proof.
  split; [reflexivity|].
  apply (validated_spec_execution TestSpec.createTestSpec []). reflexivity.
Defined.

(** ** The executor and the service: further facts *)



(** X6.  An event mapped to the empty string is no transition: the
    executor treats the entry as missing and fails with
    TransitionNotAllowedError, although the list of available events it
    reports contains the very event that was sent. *)
Theorem executeCommand_empty_string_transition (spec : ActorSpec)
    (currentState : ActorState) (command : Command) (now : Z)
    (stateDef : StateDefinition) (transitions : JsRecord Transition) :
  prop (state currentState) (states spec) = Some stateDef ->
  on stateDef = Some transitions ->
  prop (event command) transitions = Some (TargetName EmptyString) ->
  executeCommand spec currentState command now
  = ([], Failure (TransitionNotAllowedError (state currentState) (event command)
                    (Object_keys transitions)))
  /\ event command ∈ Object_keys transitions.
Proof.
  intros Hs Hon Hp. split; [|by apply (prop_Some_keys _ _ _ Hp)].
  unfold executeCommand. rewrite (stateLookup_own _ _ _ Hs).
  unfold eventLookup. rewrite Hon, Hp. reflexivity.
Qed.

(** The event GO mapped to the empty string. *)
Lemma executeCommand_empty_string_transition_witness :
  executeCommand emptyNameSpec (TestSpec.stateAt "idle" 0) (TestSpec.send "GO") 5
  = ([], Failure (TransitionNotAllowedError "idle" "GO" ["GO"]))
  /\ "GO" ∈ ["GO"].
Proof.
  apply (executeCommand_empty_string_transition emptyNameSpec
           (TestSpec.stateAt "idle" 0) (TestSpec.send "GO") 5
           {| on := Some [ ("GO", TargetName EmptyString) ];
              entry := None; exit := None |}
           [ ("GO", TargetName EmptyString) ]); reflexivity.
Defined.

Lemma eventLookup_undeclared (stateDef : StateDefinition) (event0 : string) :
  event0 ∉ Object_keys (default [] (on stateDef)) ->
  eventLookup stateDef event0
  = match on stateDef with
    | Some _ => if inherited event0 then Some Member else None
    | None => None
    end.
Proof.
  unfold eventLookup. destruct (on stateDef) as [transitions|]; [|done].
  intros Hnot. apply prop_None_keys in Hnot.
  change (prop event0 transitions = None) in Hnot. by rewrite Hnot.
Qed.

(** X30.  An event that is no key of the outgoing map of the current
    state.  When the event is not named like a member of Object.prototype,
    or the state has no outgoing map, executeCommand calls nothing and
    fails with TransitionNotAllowedError carrying the state, the event and
    the keys of the map ([[]] without a map).  When the event is named like
    a member of Object.prototype and the state has an outgoing map, the
    lookup finds that member: the run does not fail with
    TransitionNotAllowedError, and unless the exit action stops it or a
    state is named undefined, it throws the TypeError of reading [entry]
    off undefined. *)
Theorem executeCommand_undeclared_event (spec : ActorSpec)
    (currentState : ActorState) (command : Command) (now : Z)
    (stateDef : StateDefinition) :
  stateLookup spec (state currentState) = Some stateDef ->
  event command ∉ Object_keys (default [] (on stateDef)) ->
  (inherited (event command) = false \/ on stateDef = None ->
   executeCommand spec currentState command now
   = ([], Failure (TransitionNotAllowedError (state currentState) (event command)
                     (Object_keys (default [] (on stateDef))))))
  /\ (inherited (event command) = true -> is_Some (on stateDef) ->
      eventLookup stateDef (event command) = Some Member
      /\ (forall from0 event1 available,
             exitOf (executeCommand spec currentState command now)
             <> Failure (TransitionNotAllowedError from0 event1 available))
      /\ (actionStop spec (exit stateDef) = None ->
          stateLookup spec "undefined" = None ->
          exitOf (executeCommand spec currentState command now)
          = Die (TypeError "Cannot read properties of undefined (reading 'entry')"))).
Proof.
  intros Hs Hnot. pose proof (eventLookup_undeclared _ _ Hnot) as Hev. split.
  - intros Hor. unfold executeCommand. rewrite Hs, Hev.
    destruct (on stateDef) as [transitions|]; [|done].
    by destruct Hor as [->|?].
  - intros Hin [transitions Hon]. rewrite Hon, Hin in Hev.
    split; [exact Hev|]. split.
    + intros from0 event1 available Hrun.
      pose proof (passedGuardSteps_after_guard spec currentState command now
                    stateDef Hs) as Hpass.
      rewrite Hev in Hpass. specialize (Hpass I). by rewrite Hrun in Hpass.
    + intros Hex Hn.
      rewrite (executeCommand_member spec currentState command now stateDef Hs Hev).
      rewrite runAction_eq, Hex, andThen_success, Hn. reflexivity.
Qed.

(** On the test specification in state idle: the event UNKNOWN is refused
    with the three events of idle, and the event toString ends the run in
    the TypeError. *)
Lemma executeCommand_undeclared_event_witness :
  executeCommand TestSpec.createTestSpec (TestSpec.stateAt "idle" 0)
    (TestSpec.send "UNKNOWN") 5
  = ([], Failure (TransitionNotAllowedError "idle" "UNKNOWN"
                    ["START"; "START_WITH_GUARD"; "START_WITH_ACTION"]))
  /\ exitOf (executeCommand TestSpec.createTestSpec (TestSpec.stateAt "idle" 0)
               (TestSpec.send "toString") 5)
     = Die (TypeError "Cannot read properties of undefined (reading 'entry')").
Proof.
  split.
  - refine (proj1 (executeCommand_undeclared_event TestSpec.createTestSpec
                     (TestSpec.stateAt "idle" 0) (TestSpec.send "UNKNOWN") 5 _
                     eq_refl _) (or_introl eq_refl)).
    refine (bool_decide_unpack _ _). vm_compute. exact I.
  - refine (proj2 (proj2 (proj2 (executeCommand_undeclared_event
                     TestSpec.createTestSpec
                     (TestSpec.stateAt "idle" 0) (TestSpec.send "toString") 5 _
                     eq_refl _) eq_refl ltac:(by eexists))) eq_refl eq_refl).
    refine (bool_decide_unpack _ _). vm_compute. exact I.
Defined.

Section ServiceExtras.

Context {S : Type} `{StorageProviderApi S}.

Variable specs : JsRecord ActorSpec.

(** X10.  The execute of ActorService and the execute of ActorServiceLive
    are the same function of the store, the command and the readings of the
    clock: orElse and catchAll with a precomputed initial state make no
    difference. *)
Theorem execute_executeLive_agree (command : ExecuteCommand) (env : Readings) (s : S) :
  execute specs command env s = executeLive specs command env s.
Proof.
  unfold execute, executeLive, mbind, stored_bind, fromExit, orElse, catchAll,
    storageLoad.
  destruct (SpecRegistry.get specs (cmd_actorType command)); [|done..].
  by destruct (load (cmd_actorType command) (cmd_actorId command) s).
Qed.

(** X11.  A command the executor fails leaves no trace: when the
    transition from the loaded state (or, after a failed load, from the
    initial state) fails with a tagged error, execute fails with that
    error and the store is the one it started from; nothing is saved and
    no audit entry is written. *)
Theorem execute_no_save_on_failure (command : ExecuteCommand) (env : Readings)
    (s : S) (spec : ActorSpec) (e : TaggedError) :
  SpecRegistry.get specs (cmd_actorType command) = Success spec ->
  isDefect (load (cmd_actorType command) (cmd_actorId command) s) = false ->
  exitOf (executeCommand spec
            (match load (cmd_actorType command) (cmd_actorId command) s with
             | Success st => st
             | _ => initialState command spec (startTime env)
             end)
            {| event := cmd_event command; data := cmd_data command |}
            (resultTime env)) = Failure e ->
  execute specs command env s = (s, Failure e).
Proof.
  intros Hspec Hload Hexec.
  destruct (load (cmd_actorType command) (cmd_actorId command) s)
    as [st|e0|d|] eqn:Hl; [| |done..].
  - rewrite (proj1 (execute_loaded specs command env s spec st Hspec Hl)).
    unfold proceedFrom, mbind, stored_bind, fromExit. by rewrite Hexec.
  - rewrite (proj1 (execute_not_loaded specs command env s spec e0 Hspec Hl)).
    unfold proceedFrom, mbind, stored_bind, fromExit. by rewrite Hexec.
Qed.

(** X12.  query never changes the store; it returns a state exactly when
    the specification is registered, the load succeeds and the name of the
    loaded state is declared by the specification; a loaded state of an
    undeclared name gives InvalidStateError with the declared names, and a
    failure of the load is passed on as it is. *)
Theorem query_succeeds_iff (actorType0 actorId : string) (s : S) (st : ActorState) :
  fst (query specs actorType0 actorId s) = s
  /\ (snd (query specs actorType0 actorId s) = Success st
      <-> exists spec,
            SpecRegistry.get specs actorType0 = Success spec
            /\ load actorType0 actorId s = Success st
            /\ state st ∈ Object_keys (states spec))
  /\ (forall spec,
         SpecRegistry.get specs actorType0 = Success spec ->
         load actorType0 actorId s = Success st ->
         state st ∉ Object_keys (states spec) ->
         snd (query specs actorType0 actorId s)
         = Failure (InvalidStateError (state st) (Object_keys (states spec))))
  /\ (forall spec e,
         SpecRegistry.get specs actorType0 = Success spec ->
         load actorType0 actorId s = Failure e ->
         snd (query specs actorType0 actorId s) = Failure e).
Proof.
  unfold query, mbind, stored_bind, fromExit, storageLoad, mret, stored_ret.
  destruct (SpecRegistry.get specs actorType0) as [spec|e|d|]; simpl.
  2,3,4: (split; [done|]; split; [split; [done | by intros (? & ? & _)]|];
          split; intros; done).
  destruct (load actorType0 actorId s) as [st0|e|d|]; simpl.
  2,3,4: (split; [done|]; split; [split; [done | by intros (? & _ & ? & _)]|];
          split; intros; congruence).
  destruct (includes (Object_keys (states spec)) (state st0)) eqn:Hin; simpl.
  - apply includes_elem_of in Hin. split; [done|]. split; [|split].
    + split.
      * intros [= ->]. by exists spec.
      * intros (spec' & [= <-] & [= ->] & _). done.
    + intros spec' [= <-] [= ->] Hnot. done.
    + intros; congruence.
  - assert (state st0 ∉ Object_keys (states spec)) as Hnot.
    { intros Hyes. apply includes_elem_of in Hyes. congruence. }
    split; [done|]. split; [|split].
    + split; [done|]. intros (spec' & [= <-] & [= ->] & ?). done.
    + by intros spec' [= <-] [= ->] _.
    + intros; congruence.
Qed.

(** X13.  canTransition allows whatever executeCommand accepts: when the
    command without data succeeds from the stored state, canTransition
    leaves the store alone and answers allowed, with the state the command
    ends in as its target. *)
Theorem canTransition_complete (actorType0 actorId event0 : string) (s : S)
    (spec : ActorSpec) (st : ActorState) (now : Z) (obs : list Observed)
    (result : TransitionResult) :
  SpecRegistry.get specs actorType0 = Success spec ->
  load actorType0 actorId s = Success st ->
  executeCommand spec st {| event := event0; data := None |} now
  = (obs, Success result) ->
  canTransition specs actorType0 actorId event0 s
  = (s, Success {| allowed := true; reason := None;
                   tc_target := Some (r_to result) |}).
Proof.
  intros Hspec Hload Hrun.
  apply executeCommand_success_case in Hrun
    as (stateDef & newStateDef & transitionDef & sch & decoded & Hs & Ht & Hg
        & _ & _ & _ & _ & _ & _ & _ & ->).
  cbn [event data r_to] in *. rewrite mergeContext_None in Hg.
  unfold canTransition, mbind at 1 2, stored_bind, fromExit, storageLoad.
  rewrite Hspec, Hload. cbv beta iota zeta. rewrite Hs. cbv beta iota zeta.
  rewrite Ht. cbv beta iota zeta.
  unfold guardStop in Hg.
  destruct (truthy (guard (parseTransition transitionDef))) as [g|]; [|done].
  destruct (guards spec !! g) as [guardFn|].
  - by destruct (negb (guardFn (context st))).
  - destruct (inherited g); [|done]. by destruct (callMember g).
Qed.

(** X14.  canTransition never denies wrongly: when it answers that the
    event is not allowed, executeCommand on the stored state with no data
    fails in its state, transition or guard step, and the answer carries a
    reason and no target. *)
Theorem canTransition_denial_sound (actorType0 actorId event0 : string) (s : S)
    (spec : ActorSpec) (st : ActorState) (now : Z) (check : TransitionCheck) :
  SpecRegistry.get specs actorType0 = Success spec ->
  load actorType0 actorId s = Success st ->
  snd (canTransition specs actorType0 actorId event0 s) = Success check ->
  allowed check = false ->
  passedGuardSteps
    (exitOf (executeCommand spec st {| event := event0; data := None |} now))
  = false
  /\ is_Some (reason check) /\ tc_target check = None.
Proof.
  intros Hspec Hload.
  unfold canTransition, mbind at 1 2, stored_bind, fromExit, storageLoad, mret,
    stored_ret.
  rewrite Hspec, Hload. cbv beta iota zeta.
  destruct (stateLookup spec (state st)) as [stateDef|] eqn:Hs.
  2:{ intros [= <-] _. unfold executeCommand. rewrite Hs. simpl. by eauto. }
  destruct (eventLookup stateDef event0) as [[transitionDef|]|] eqn:Ht.
  3:{ intros [= <-] _. unfold executeCommand. rewrite Hs. cbn [event].
      rewrite Ht. simpl. by eauto. }
  2:{ by intros [= <-]. }
  destruct (truthy (guard (parseTransition transitionDef))) as [g|] eqn:Hg.
  2:{ by intros [= <-]. }
  destruct (guards spec !! g) as [guardFn|] eqn:Hl.
  2:{ destruct (inherited g); [destruct (callMember g)|]; by intros [= <-]. }
  destruct (guardFn (context st)) eqn:Hc; cbn [negb].
  { by intros [= <-]. }
  intros [= <-] _.
  rewrite (executeCommand_declared spec st {| event := event0; data := None |} now
             stateDef transitionDef Hs Ht).
  cbn [data]. rewrite mergeContext_None.
  rewrite (evaluateGuard_false spec _ _ g guardFn Hg Hl Hc).
  simpl. by eauto.
Qed.

End ServiceExtras.

(** The guarded start with count 0 stored. *)
Lemma canTransition_denial_sound_witness :
  passedGuardSteps
    (exitOf (executeCommand TestSpec.createTestSpec (TestSpec.stateAt "idle" 0)
               {| event := "START_WITH_GUARD"; data := None |} 5)) = false
  /\ is_Some (reason {| allowed := false;
                        reason := Some ("Guard " +:+ dquote +:+ "canStart" +:+ dquote
                                        +:+ " fails");
                        tc_target := None |})
  /\ tc_target {| allowed := false;
                  reason := Some ("Guard " +:+ dquote +:+ "canStart" +:+ dquote
                                  +:+ " fails");
                  tc_target := None |} = None.
Proof.
  apply (canTransition_denial_sound (registryOf TestSpec.createTestSpec) "test-spec"
           "test-1" "START_WITH_GUARD"
           (mockWith "test-spec" "test-1" (TestSpec.stateAt "idle" 0))
           TestSpec.createTestSpec (TestSpec.stateAt "idle" 0) 5); reflexivity.
Defined.

(** START from the stored idle state of the test specification. *)
Lemma canTransition_complete_witness :
  exists result : TransitionResult,
    canTransition (registryOf TestSpec.createTestSpec) "test-spec" "test-1" "START"
      (mockWith "test-spec" "test-1" (TestSpec.stateAt "idle" 0))
    = (mockWith "test-spec" "test-1" (TestSpec.stateAt "idle" 0),
       Success {| allowed := true; reason := None; tc_target := Some (r_to result) |})
    /\ r_to result = "active".
Proof.
  destruct (executeCommand TestSpec.createTestSpec (TestSpec.stateAt "idle" 0)
              {| event := "START"; data := None |} 5) as [obs [result|e|d|]] eqn:Hrun;
    [|vm_compute in Hrun; discriminate..].
  exists result. split.
  - apply (canTransition_complete (registryOf TestSpec.createTestSpec) "test-spec"
             "test-1" "START"
             (mockWith "test-spec" "test-1" (TestSpec.stateAt "idle" 0))
             TestSpec.createTestSpec (TestSpec.stateAt "idle" 0) 5 obs result);
      [reflexivity | reflexivity | exact Hrun].
  - vm_compute in Hrun. by injection Hrun as _ <-.
Defined.

(** COMPLETE on a new entity of the test specification: not allowed from
    the initial state, and the mock stays empty. *)
Lemma execute_no_save_on_failure_witness :
  execute (registryOf TestSpec.createTestSpec) completeCommand testReadings emptyMock
  = (emptyMock,
     Failure (TransitionNotAllowedError "idle" "COMPLETE"
                ["START"; "START_WITH_GUARD"; "START_WITH_ACTION"])).
Proof.
  apply (execute_no_save_on_failure (registryOf TestSpec.createTestSpec)
           completeCommand testReadings emptyMock TestSpec.createTestSpec);
    reflexivity.
Defined.

(** ** The registry *)

Lemma prop_mapSet_eq {V : Type} (k : string) (v : V) (m : JsRecord V) :
  prop k (mapSet k v m) = Some v.
Proof.
  induction m as [|[k' v'] rest IH]; simpl.
  - by rewrite String.eqb_refl.
  - destruct (String.eqb k' k) eqn:Heq; simpl.
    + by rewrite String.eqb_refl.
    + by rewrite Heq.
Qed.

Lemma prop_mapSet_ne {V : Type} (k k0 : string) (v : V) (m : JsRecord V) :
  k0 <> k -> prop k0 (mapSet k v m) = prop k0 m.
Proof.
  intros Hne. induction m as [|[k' v'] rest IH]; simpl.
  - destruct (String.eqb_spec k k0); [congruence | done].
  - destruct (String.eqb_spec k' k) as [->|Hk]; simpl.
    + destruct (String.eqb_spec k k0); [congruence | done].
    + destruct (String.eqb k' k0); [done | exact IH].
Qed.

Lemma keys_mapSet {V : Type} (k : string) (v : V) (m : JsRecord V) :
  Object_keys (mapSet k v m)
  = if includes (Object_keys m) k then Object_keys m else Object_keys m ++ [k].
Proof.
  induction m as [|[k' v'] rest IH]; [done|].
  unfold includes in *. simpl.
  rewrite (String.eqb_sym k k').
  destruct (String.eqb_spec k' k) as [->|Hk]; simpl; [done|].
  rewrite IH. by destruct (existsb (String.eqb k) (Object_keys rest)).
Qed.

(** X15.  A registered specification is found under its id, has answers
    true for it, and registering it changes neither has nor a successful
    get for any other id. *)
Theorem register_then_get (spec : ActorSpec) (specs : JsRecord ActorSpec) :
  SpecRegistry.get (SpecRegistry.register spec specs) (spec_id spec) = Success spec
  /\ SpecRegistry.has (SpecRegistry.register spec specs) (spec_id spec) = true
  /\ (forall id, id <> spec_id spec ->
        SpecRegistry.has (SpecRegistry.register spec specs) id
        = SpecRegistry.has specs id
        /\ (forall other, SpecRegistry.get specs id = Success other ->
              SpecRegistry.get (SpecRegistry.register spec specs) id = Success other)).
Proof.
  unfold SpecRegistry.get, SpecRegistry.has, SpecRegistry.register.
  rewrite prop_mapSet_eq. split; [done|]. split; [by apply bool_decide_eq_true|].
  intros id Hne. rewrite (prop_mapSet_ne _ _ _ _ Hne). split; [done|].
  intros other. by destruct (prop id specs).
Qed.

(** X16.  register adds the id at the end of the registered ids when it is
    new and keeps the ids as they are when it is not; it never duplicates
    an id; registering a second specification under the same id replaces
    the first and keeps its place. *)
Theorem register_keys (spec : ActorSpec) (specs : JsRecord ActorSpec) :
  Object_keys (SpecRegistry.register spec specs)
  = (if SpecRegistry.has specs (spec_id spec)
     then Object_keys specs
     else Object_keys specs ++ [spec_id spec])
  /\ (NoDup (Object_keys specs) ->
      NoDup (Object_keys (SpecRegistry.register spec specs)))
  /\ (forall newer, spec_id newer = spec_id spec ->
        SpecRegistry.get (SpecRegistry.register newer (SpecRegistry.register spec specs))
          (spec_id spec) = Success newer
        /\ Object_keys (SpecRegistry.register newer (SpecRegistry.register spec specs))
           = Object_keys (SpecRegistry.register spec specs)).
Proof.
  assert (forall (sp : ActorSpec) (m : JsRecord ActorSpec),
             Object_keys (SpecRegistry.register sp m)
             = if SpecRegistry.has m (spec_id sp)
               then Object_keys m else Object_keys m ++ [spec_id sp]) as Hkeys.
  { intros sp m. unfold SpecRegistry.register, SpecRegistry.has.
    rewrite keys_mapSet.
    destruct (includes (Object_keys m) (spec_id sp)) eqn:Hin.
    - apply includes_elem_of, prop_is_Some_keys in Hin.
      by rewrite bool_decide_eq_true_2.
    - rewrite bool_decide_eq_false_2; [done|]. intros [v Hv].
      apply prop_Some_keys, includes_elem_of in Hv. congruence. }
  split; [apply Hkeys|]. split.
  - intros Hnd. rewrite Hkeys. unfold SpecRegistry.has. case_bool_decide as Hhas; [done|].
    apply NoDup_app. split; [done|]. split; [|apply NoDup_singleton].
    intros x Hx Hx'. apply list_elem_of_singleton in Hx' as ->.
    apply Hhas. by apply prop_is_Some_keys.
  - intros newer Hid. split.
    + unfold SpecRegistry.get, SpecRegistry.register. rewrite Hid.
      by rewrite prop_mapSet_eq.
    + rewrite Hkeys, Hid. unfold SpecRegistry.has.
      rewrite bool_decide_eq_true_2; [done|].
      unfold SpecRegistry.register. rewrite prop_mapSet_eq. by eexists.
Qed.

(** ** The mock storage *)

Lemma append_assoc_string (a b c : string) : (a +:+ b) +:+ c = a +:+ (b +:+ c).
Proof.
  induction a as [|x a IH]; [done|].
  change (String x ((a +:+ b) +:+ c) = String x (a +:+ (b +:+ c))).
  by rewrite IH.
Qed.

Lemma append_String (c : ascii) (rest s : string) :
  String c rest +:+ s = String c (rest +:+ s).
Proof. reflexivity. Qed.

Lemma append_EmptyString (s : string) : EmptyString +:+ s = s.
Proof. reflexivity. Qed.

(** X17.  The key of the mock separates entities as long as no actor type
    contains a colon: two pairs of such a type and an id with the same key
    are the same pair, whatever the ids contain. *)
Theorem getKey_injective (actorType1 actorId1 actorType2 actorId2 : string) :
  hasColon actorType1 = false ->
  hasColon actorType2 = false ->
  getKey actorType1 actorId1 = getKey actorType2 actorId2 ->
  actorType1 = actorType2 /\ actorId1 = actorId2.
Proof.
  unfold getKey. revert actorType2.
  induction actorType1 as [|c rest IH]; intros [|c' rest']; cbn [hasColon];
    intros H1 H2 Heq;
    rewrite ?append_String, ?append_EmptyString in Heq.
  - by injection Heq as ->.
  - injection Heq as <- _. by rewrite Ascii.eqb_refl in H2.
  - injection Heq as -> _. by rewrite Ascii.eqb_refl in H1.
  - injection Heq as -> Heq. apply orb_false_elim in H1 as [_ H1].
    apply orb_false_elim in H2 as [_ H2].
    destruct (IH rest' H1 H2 Heq) as [-> ->]. done.
Qed.

(** An id with a colon under a type without one. *)
Lemma getKey_injective_witness :
  "content" = "content" /\ "post:1" = "post:1".
Proof.
  apply (getKey_injective "content" "post:1" "content" "post:1"); reflexivity.
Defined.

(** X18.  With a colon in the actor type the mock confuses entities: the
    state saved for (type:middle, id) is what load returns for
    (type, middle:id). *)
Theorem mock_key_aliasing (actorType0 middle actorId : string) (st : ActorState)
    (audit : AuditEntry) (s : MockStorage) :
  getKey (actorType0 +:+ ":" +:+ middle) actorId
  = getKey actorType0 (middle +:+ ":" +:+ actorId)
  /\ load actorType0 (middle +:+ ":" +:+ actorId)
       (fst (save (actorType0 +:+ ":" +:+ middle) actorId st audit s))
     = Success st.
Proof.
  assert (getKey (actorType0 +:+ ":" +:+ middle) actorId
          = getKey actorType0 (middle +:+ ":" +:+ actorId)) as Hkey.
  { unfold getKey. by rewrite !append_assoc_string. }
  split; [exact Hkey|]. simpl. unfold mockLoad, mockSave. simpl.
  by rewrite <- Hkey, lookup_insert_eq.
Qed.

(** X19.  save on the mock always succeeds; load then returns the saved
    state; the audit entry is put in front of the history of the entity;
    and no entity of another key has its state or its history changed. *)
Theorem mock_save_then_load (actorType0 actorId : string) (st : ActorState)
    (audit : AuditEntry) (s : MockStorage) :
  snd (save actorType0 actorId st audit s) = Success ()
  /\ load actorType0 actorId (fst (save actorType0 actorId st audit s)) = Success st
  /\ historyOf (fst (save actorType0 actorId st audit s)) (getKey actorType0 actorId)
     = audit :: historyOf s (getKey actorType0 actorId)
  /\ (forall actorType1 actorId1,
         getKey actorType1 actorId1 <> getKey actorType0 actorId ->
         load actorType1 actorId1 (fst (save actorType0 actorId st audit s))
         = load actorType1 actorId1 s
         /\ historyOf (fst (save actorType0 actorId st audit s))
              (getKey actorType1 actorId1)
            = historyOf s (getKey actorType1 actorId1)).
Proof.
  simpl. unfold mockSave, mockLoad, historyOf. simpl.
  split; [done|]. split; [by rewrite lookup_insert_eq|].
  split; [by rewrite lookup_insert_eq|].
  intros t1 i1 Hne. by rewrite !lookup_insert_ne.
Qed.

Lemma jsSlice_page {A : Type} (l : list A) (offset limit : Z) :
  0 <= offset -> 0 <= limit ->
  jsSlice l offset (offset + limit)
  = take (Z.to_nat limit) (drop (Z.to_nat offset) l).
Proof.
  intros Ho Hl. unfold jsSlice.
  destruct (Z.ltb_spec offset 0) as [|_]; [lia|].
  destruct (Z.ltb_spec (offset + limit) 0) as [|_]; [lia|].
  destruct (Z.le_gt_cases (Z.of_nat (length l)) offset) as [Hlen|Hlen].
  - rewrite !drop_ge by lia. by rewrite !take_nil.
  - rewrite (Z.min_l offset) by lia.
    destruct (Z.le_gt_cases (offset + limit) (Z.of_nat (length l))) as [Hfin|Hfin].
    + rewrite Z.min_l by lia. f_equal. lia.
    + rewrite Z.min_r by lia.
      rewrite !take_ge; [done | rewrite length_drop; lia | rewrite length_drop; lia].
Qed.

(** X20.  Pages of the mock history: for a non-negative offset and limits,
    a page has at most limit entries, is a subsequence of the kept history,
    and the page followed by the next page is the page of both limits
    together. *)
Theorem mockGetHistory_pages (actorType0 actorId : string) (s : MockStorage)
    (limit offset more : Z) (page next whole : list AuditEntry) :
  0 <= offset -> 0 <= limit -> 0 <= more ->
  mockGetHistory actorType0 actorId (Some limit) (Some offset) s = Success page ->
  mockGetHistory actorType0 actorId (Some more) (Some (offset + limit)) s
  = Success next ->
  mockGetHistory actorType0 actorId (Some (limit + more)) (Some offset) s
  = Success whole ->
  (length page <= Z.to_nat limit)%nat
  /\ page ++ next = whole
  /\ page `sublist_of` historyOf s (getKey actorType0 actorId).
Proof.
  unfold mockGetHistory. simpl. fold (historyOf s (getKey actorType0 actorId)).
  intros Ho Hl Hm [= <-] [= <-] [= <-].
  rewrite !jsSlice_page by lia.
  split; [rewrite length_take; lia|]. split.
  - rewrite !Z2Nat.inj_add by lia.
    rewrite <- drop_drop. apply take_take_drop.
  - etrans; [apply sublist_take | apply sublist_drop].
Qed.

(** The second entry of three, and the page after it. *)
Lemma mockGetHistory_pages_witness :
  (length [auditAt 20 "B"] <= Z.to_nat 1)%nat
  /\ [auditAt 20 "B"] ++ [auditAt 10 "A"] = [auditAt 20 "B"; auditAt 10 "A"]
  /\ [auditAt 20 "B"] `sublist_of` historyOf mockWithHistory (getKey "test-spec" "test-1").
Proof.
  apply (mockGetHistory_pages "test-spec" "test-1" mockWithHistory 1 1 5);
    first [lia | reflexivity].
Defined.

(** ** The validator, the scan and the mock under the service *)

(** X1.  validateSpec succeeds exactly on the specifications that are
    well formed: a non-blank id, a schema, an initial state among the
    declared states, and in every declared state entry and exit actions,
    transition targets, guards and actions that are absent, empty or
    found, that is, declared or named like a member of Object.prototype.
    It never throws, and when it fails it has warned of nothing. *)
Theorem validateSpec_succeeds_iff (spec : ActorSpec) :
  ((exists warnings, validateSpec spec = (warnings, Success ())) <-> SpecOk spec)
  /\ isDefect (snd (validateSpec spec)) = false
  /\ (forall e, snd (validateSpec spec) = Failure e -> fst (validateSpec spec) = []).
Proof.
  split; [apply validateSpec_SpecOk | apply validateSpec_failure_silent].
Qed.

(** X3.  The loop of step 5 of validateSpec computes reachability: when
    the initial state is declared, the set it ends with holds exactly the
    states reachable from the initial state through transitions to
    declared states; it holds the initial state and only declared states,
    and the loop has ended by then, more iterations changing nothing. *)
Theorem reachabilityScan_reachable (spec : ActorSpec) :
  initial spec ∈ Object_keys (states spec) ->
  let reached :=
    reachabilityScan (scanFuel spec (Object_keys (states spec))) spec
      (Object_keys (states spec)) [initial spec] ∅ in
  (forall stateName, stateName ∈ reached <-> Reachable spec stateName)
  /\ initial spec ∈ reached
  /\ (forall stateName, stateName ∈ reached -> stateName ∈ Object_keys (states spec))
  /\ (forall extra,
         reachabilityScan (scanFuel spec (Object_keys (states spec)) + extra) spec
           (Object_keys (states spec)) [initial spec] ∅ = reached).
Proof.
  intros Hinit reached.
  assert (forall stateName, stateName ∈ reached <-> Reachable spec stateName) as Hiff.
  { intros stateName. by apply scan_reachable_iff. }
  split; [exact Hiff|]. split; [|split].
  - apply Hiff. constructor.
  - intros stateName Hin. apply Hiff in Hin. unfold Reachable in Hin.
    apply rtc_inv_r in Hin as [<-|(y & _ & Hstep)]; [done|].
    by apply (successors_declared spec _ y).
  - intros extra. apply reachabilityScan_fuel; [by repeat constructor|].
    unfold scanMeasure, scanFuel. simpl. apply le_n_S, sum_list_with_filter_le.
Qed.

(** On the test specification, whose initial state is declared. *)
Lemma reachabilityScan_reachable_witness :
  let reached :=
    reachabilityScan
      (scanFuel TestSpec.createTestSpec (Object_keys (states TestSpec.createTestSpec)))
      TestSpec.createTestSpec (Object_keys (states TestSpec.createTestSpec))
      [initial TestSpec.createTestSpec] ∅ in
  (forall stateName, stateName ∈ reached <-> Reachable TestSpec.createTestSpec stateName)
  /\ initial TestSpec.createTestSpec ∈ reached
  /\ (forall stateName, stateName ∈ reached ->
        stateName ∈ Object_keys (states TestSpec.createTestSpec))
  /\ (forall extra,
         reachabilityScan
           (scanFuel TestSpec.createTestSpec
              (Object_keys (states TestSpec.createTestSpec)) + extra)
           TestSpec.createTestSpec (Object_keys (states TestSpec.createTestSpec))
           [initial TestSpec.createTestSpec] ∅ = reached).
Proof.
  apply (reachabilityScan_reachable TestSpec.createTestSpec).
  refine (bool_decide_unpack _ _). vm_compute. exact I.
Defined.

Lemma executeCommand_success_from (spec : ActorSpec) (currentState : ActorState)
    (command : Command) (now : Z) (result : TransitionResult) :
  exitOf (executeCommand spec currentState command now) = Success result ->
  r_from result = state currentState.
Proof.
  destruct (executeCommand spec currentState command now) as [obs x] eqn:Hrun.
  cbn [exitOf snd]. intros ->.
  by apply executeCommand_success_case in Hrun
    as (? & ? & ? & ? & ? & _ & _ & _ & _ & _ & _ & _ & _ & _ & _ & ->).
Qed.

(** One execute call on the mock and the history: a success puts one entry
    in front of the history of its entity and leaves the other histories
    alone; anything else leaves every history alone. *)
Lemma mock_execute_history (specs : JsRecord ActorSpec) (command : ExecuteCommand)
    (env : Readings) (s : MockStorage) (key : string) :
  match snd (execute specs command env s) with
  | Success result =>
      if decide (key = getKey (cmd_actorType command) (cmd_actorId command))
      then exists currentState,
             historyOf (fst (execute specs command env s)) key
             = buildAuditEntry command currentState result env :: historyOf s key
             /\ state currentState = r_from result
      else historyOf (fst (execute specs command env s)) key = historyOf s key
  | _ => historyOf (fst (execute specs command env s)) key = historyOf s key
  end.
Proof.
  unfold execute, mbind, stored_bind, fromExit, orElse, storageLoad, mret,
    stored_ret.
  destruct (SpecRegistry.get specs (cmd_actorType command)) as [spec|e|d|];
    [|reflexivity..].
  simpl. unfold mockLoad, historyOf.
  destruct (actors s !! getKey (cmd_actorType command) (cmd_actorId command))
    as [before|] eqn:Hbefore.
  - destruct (exitOf (executeCommand spec before _ _)) as [result|e|d|] eqn:Hexec;
      [|reflexivity..].
    simpl. case_decide as Hkey.
    + subst key. exists before. rewrite lookup_insert_eq. split; [done|].
      symmetry. by apply executeCommand_success_from in Hexec.
    + by rewrite lookup_insert_ne.
  - destruct (exitOf (executeCommand spec _ _ _)) as [result|e|d|] eqn:Hexec;
      [|reflexivity..].
    simpl. case_decide as Hkey.
    + subst key. exists (initialState command spec (startTime env)).
      rewrite lookup_insert_eq. split; [done|].
      symmetry. by apply executeCommand_success_from in Hexec.
    + by rewrite lookup_insert_ne.
Qed.

(** A call of execute on the mock that fails changes nothing. *)
Lemma mock_execute_failure (specs : JsRecord ActorSpec) (command : ExecuteCommand)
    (env : Readings) (s : MockStorage) (e : TaggedError) :
  snd (execute specs command env s) = Failure e ->
  fst (execute specs command env s) = s.
Proof.
  unfold execute, mbind, stored_bind, fromExit, orElse, storageLoad, mret,
    stored_ret.
  destruct (SpecRegistry.get specs (cmd_actorType command)) as [spec|e0|d|];
    [|done..].
  simpl. unfold mockLoad.
  destruct (actors s !! getKey (cmd_actorType command) (cmd_actorId command))
    as [before|];
    by destruct (exitOf (executeCommand spec _ _ _)) as [result|e0|d|].
Qed.

(** X21.  On the mock, the stored version of an entity counts the audit
    entries kept for it.  A call of execute that succeeds puts one more
    entry in the history of its entity and adds one to its stored version
    (within the integers a JavaScript number counts exactly), and leaves
    the version and the history of every other entity as they were; a call
    that fails changes nothing.  So, starting from the empty mock, after
    any sequence of calls the stored version of every entity is the length
    of its history. *)
Theorem mock_version_counts_history :
  (forall (specs : JsRecord ActorSpec) (command : ExecuteCommand) (env : Readings)
          (s s' : MockStorage) (result : TransitionResult),
      execute specs command env s = (s', Success result) ->
      let key := getKey (cmd_actorType command) (cmd_actorId command) in
      (- 2 ^ 53 <= storedVersion s key < 2 ^ 53 ->
       storedVersion s' key = storedVersion s key + 1)
      /\ length (historyOf s' key) = S (length (historyOf s key))
      /\ (forall other, other <> key ->
             storedVersion s' other = storedVersion s other
             /\ historyOf s' other = historyOf s other))
  /\ (forall (specs : JsRecord ActorSpec) (command : ExecuteCommand) (env : Readings)
             (s : MockStorage) (e : TaggedError),
         snd (execute specs command env s) = Failure e ->
         fst (execute specs command env s) = s)
  /\ (forall (specs : JsRecord ActorSpec) (calls : list (ExecuteCommand * Readings))
             (key : string),
         RunsRepresented specs calls emptyMock ->
         storedVersion (executeAll specs calls emptyMock) key
         = Z.of_nat (length (historyOf (executeAll specs calls emptyMock) key))).
Proof.
  split; [|split].
  - intros specs command env s s' result Hrun key.
    pose proof (mock_execute_step specs command env s) as Hstep.
    pose proof (mock_execute_history specs command env s) as Hhist.
    rewrite Hrun in Hstep, Hhist. cbn [fst snd] in Hstep, Hhist.
    split; [|split].
    + intros _. rewrite Hstep. by rewrite decide_True.
    + specialize (Hhist key). rewrite decide_True in Hhist by done.
      destruct Hhist as (cur & -> & _). done.
    + intros other Hne. specialize (Hhist other).
      rewrite decide_False in Hhist by done.
      split; [|exact Hhist]. rewrite Hstep. by rewrite decide_False.
  - apply mock_execute_failure.
  - intros specs calls key _.
    assert (forall s,
               (forall k, storedVersion s k = Z.of_nat (length (historyOf s k))) ->
               forall k, storedVersion (executeAll specs calls s) k
                         = Z.of_nat (length (historyOf (executeAll specs calls s) k)))
      as Hinv.
    { induction calls as [|[command env] calls IH]; intros s Hs k; [apply Hs|].
      unfold executeAll. simpl. fold (executeAll specs calls).
      apply IH. intros k0.
      rewrite mock_execute_step.
      pose proof (mock_execute_history specs command env s k0) as Hh.
      destruct (snd (execute specs command env s)); [|by rewrite Hh, Hs..].
      case_decide.
      - destruct Hh as (cur & -> & _). rewrite Hs. simpl. lia.
      - by rewrite Hh, Hs. }
    apply Hinv. intros k. unfold storedVersion, historyOf, emptyMock. simpl.
    by rewrite !lookup_empty.
Qed.

(** START twice on the empty mock: the second call is not allowed from
    active and changes nothing; the version and the history stand at 1. *)
Lemma mock_version_counts_history_witness :
  storedVersion
    (executeAll (registryOf TestSpec.createTestSpec)
       [(startCommand, testReadings); (startCommand, testReadings)] emptyMock)
    "test-spec:test-1" = 1
  /\ storedVersion
       (executeAll (registryOf TestSpec.createTestSpec)
          [(startCommand, testReadings); (startCommand, testReadings)] emptyMock)
       "test-spec:test-1"
     = Z.of_nat (length (historyOf
                           (executeAll (registryOf TestSpec.createTestSpec)
                              [(startCommand, testReadings);
                               (startCommand, testReadings)] emptyMock)
                           "test-spec:test-1")).
Proof.
  split; [reflexivity|].
  apply (proj2 (proj2 mock_version_counts_history)).
  split; [intros Hb; vm_compute in Hb; discriminate|].
  split; [intros Hb; vm_compute in Hb; discriminate|exact I].
Defined.

(** X22.  The audit trail of a successful execute on the mock: the default
    page of the history then starts with an entry for this command (event,
    from, to, actor, data, success, start time, duration), followed by the
    first 99 entries of the history as it was. *)
Theorem mock_execute_audit (specs : JsRecord ActorSpec) (command : ExecuteCommand)
    (env : Readings) (s s' : MockStorage) (result : TransitionResult) :
  execute specs command env s = (s', Success result) ->
  exists entry : AuditEntry,
    mockGetHistory (cmd_actorType command) (cmd_actorId command) None None s'
    = Success (entry :: take 99 (historyOf s (getKey (cmd_actorType command)
                                                (cmd_actorId command))))
    /\ a_event entry = cmd_event command
    /\ a_from entry = r_from result
    /\ a_to entry = Some (r_to result)
    /\ a_result entry = success
    /\ a_actor entry = cmd_actor command
    /\ a_data entry = cmd_data command
    /\ a_timestamp entry = startTime env
    /\ a_duration entry = endTime env - startTime env.
Proof.
  intros Hrun.
  pose proof (mock_execute_history specs command env s
                (getKey (cmd_actorType command) (cmd_actorId command))) as Hh.
  rewrite Hrun in Hh. simpl in Hh. rewrite decide_True in Hh by done.
  destruct Hh as (currentState & Hhist & Hfrom).
  exists (buildAuditEntry command currentState result env).
  split; [|by repeat split].
  unfold mockGetHistory. fold (historyOf s' (getKey (cmd_actorType command)
                                                (cmd_actorId command))).
  rewrite Hhist. simpl. rewrite jsSlice_page by lia. by simpl.
Qed.

(** The first command on an empty mock. *)
Lemma mock_execute_audit_witness :
  exists (s' : MockStorage) (entry : AuditEntry),
    mockGetHistory "test-spec" "test-1" None None s' = Success [entry]
    /\ a_event entry = "START"
    /\ a_to entry = Some "active"
    /\ a_timestamp entry = 1000.
Proof.
  destruct (execute (registryOf TestSpec.createTestSpec) startCommand testReadings
              emptyMock) as [s' [result|e|d|]] eqn:Hrun;
    [|vm_compute in Hrun; discriminate..].
  destruct (mock_execute_audit (registryOf TestSpec.createTestSpec) startCommand
              testReadings emptyMock s' result Hrun)
    as (entry & Hhist & Hev & _ & Hto & _ & _ & _ & Hts & _).
  exists s', entry. split; [exact Hhist|]. split; [exact Hev|].
  split; [|exact Hts]. rewrite Hto.
  vm_compute in Hrun. by injection Hrun as _ <-.
Defined.

(** X23.  After a successful execute on the mock, the entity is stored in
    the state the result names, with the context of the result, the start
    time as updatedAt and the stored version plus one (within the integers
    a JavaScript number counts exactly; 1 for a new entity).  query of the
    same entity does not change the store; it returns that state when the
    state the result names is a declared state of the specification, and
    fails with InvalidStateError when it is not. *)
Theorem mock_execute_then_query (specs : JsRecord ActorSpec)
    (command : ExecuteCommand) (env : Readings) (s s' : MockStorage)
    (result : TransitionResult) :
  execute specs command env s = (s', Success result) ->
  exists (spec : ActorSpec) (st : ActorState),
    SpecRegistry.get specs (cmd_actorType command) = Success spec
    /\ load (cmd_actorType command) (cmd_actorId command) s' = Success st
    /\ state st = r_to result
    /\ context st = newContext result
    /\ updatedAt st = startTime env
    /\ (- 2 ^ 53
        <= storedVersion s (getKey (cmd_actorType command) (cmd_actorId command))
        < 2 ^ 53 ->
        version st
        = storedVersion s (getKey (cmd_actorType command) (cmd_actorId command)) + 1)
    /\ fst (query specs (cmd_actorType command) (cmd_actorId command) s') = s'
    /\ (r_to result ∈ Object_keys (states spec) ->
        snd (query specs (cmd_actorType command) (cmd_actorId command) s')
        = Success st)
    /\ (r_to result ∉ Object_keys (states spec) ->
        snd (query specs (cmd_actorType command) (cmd_actorId command) s')
        = Failure (InvalidStateError (r_to result) (Object_keys (states spec)))).
Proof.
  intros Hrun.
  destruct (mock_execute_persists specs command env s s' result Hrun)
    as (st & Hload & Hstate & Hctx & Hver).
  destruct (execute_success_saves specs command env s s' result Hrun)
    as (spec & currentState & Hspec & _ & Hsave).
  apply mock_load_saved in Hsave.
  assert (st = buildNewState currentState result (startTime env)) as Hst
    by congruence.
  exists spec, st. do 4 (split; [done|]).
  split; [by rewrite Hst|].
  split; [intros _; rewrite Hver; unfold storedVersion; by destruct (actors s !! _)|].
  unfold query, mbind, stored_bind, fromExit, storageLoad, mret, stored_ret.
  rewrite Hspec, Hload. rewrite Hstate.
  destruct (includes (Object_keys (states spec)) (r_to result)) eqn:Hin;
    cbn [negb fst snd].
  - split; [done|]. split; [done|]. intros Hnot.
    by apply includes_elem_of in Hin.
  - split; [done|]. split; [|done]. intros Hyes.
    apply includes_elem_of in Hyes. congruence.
Qed.

(** The first command on an empty mock, then query. *)
Lemma mock_execute_then_query_witness :
  exists (s' : MockStorage) (st : ActorState),
    query (registryOf TestSpec.createTestSpec) "test-spec" "test-1" s'
    = (s', Success st)
    /\ state st = "active"
    /\ updatedAt st = 1000
    /\ version st = 1.
Proof.
  destruct (execute (registryOf TestSpec.createTestSpec) startCommand testReadings
              emptyMock) as [s' [result|e|d|]] eqn:Hrun;
    [|vm_compute in Hrun; discriminate..].
  destruct (mock_execute_then_query (registryOf TestSpec.createTestSpec) startCommand
              testReadings emptyMock s' result Hrun)
    as (spec & st & Hspec & _ & Hstate & _ & Hup & Hv & Hstore & Hq & _).
  assert (TestSpec.createTestSpec = spec) as <-.
  { assert (@Success TaggedError ActorSpec TestSpec.createTestSpec = Success spec)
      as Heq by (rewrite <- Hspec; reflexivity).
    by injection Heq. }
  assert (r_to result = "active") as Hto.
  { vm_compute in Hrun. by injection Hrun as _ <-. }
  exists s', st. split.
  - rewrite (surjective_pairing (query _ _ _ s')).
    cbn [cmd_actorType cmd_actorId startCommand] in Hstore, Hq.
    rewrite Hstore, Hq; [done|]. rewrite Hto.
    refine (bool_decide_unpack _ _). vm_compute. exact I.
  - split; [by rewrite Hstate|]. split; [exact Hup|]. apply Hv.
    vm_compute. split; [intros Hc; discriminate Hc | reflexivity].
Defined.

(** ** The calls of the executor, and the schema check against validateContext *)

Lemma guardCalls_shape (spec : ActorSpec) (transition : TransitionObject)
    (ctx : Context) :
  guardCalls spec transition ctx = []
  \/ exists g b, guardCalls spec transition ctx = [GuardCall g ctx b].
Proof.
  unfold guardCalls. destruct (truthy (guard transition)) as [g|]; [|by left].
  destruct (guards spec !! g); eauto.
Qed.

Lemma actionCallsOf_shape (spec : ActorSpec) (name : option string) (ctx : Context) :
  (actionCallsOf spec name ctx = [] /\ actionOf spec name ctx = ctx)
  \/ exists a, actionCallsOf spec name ctx = [ActionCall a ctx (actionOf spec name ctx)].
Proof.
  unfold actionCallsOf, actionOf.
  destruct (truthy name) as [a|]; [|by left].
  destruct (actions spec !! a); eauto.
Qed.

(** The calls of a run: at most one guard call, which comes first, then
    the calls of the actions that ran, each on the result of the one
    before. *)
Lemma calls_shape (ctx c1 c2 c3 : Context) (g a1 a2 a3 : list Observed) :
  (g = [] \/ exists n b, g = [GuardCall n ctx b]) ->
  ((a1 = [] /\ c1 = ctx) \/ exists n, a1 = [ActionCall n ctx c1]) ->
  ((a2 = [] /\ c2 = c1) \/ exists n, a2 = [ActionCall n c1 c2]) ->
  ((a3 = [] /\ c3 = c2) \/ exists n, a3 = [ActionCall n c2 c3]) ->
  Chained ctx (g ++ a1 ++ a2 ++ a3)
  /\ (length (filter (fun o => isGuardCall o = true) (g ++ a1 ++ a2 ++ a3)) <= 1)%nat
  /\ Forall (fun o => isGuardCall o = false) (tail (g ++ a1 ++ a2 ++ a3))
  /\ (length (actionCalls (g ++ a1 ++ a2 ++ a3)) <= 3)%nat.
Proof.
  intros [->|(? & ? & ->)] [[-> ->]|(? & ->)] [[-> ->]|(? & ->)] [[-> ->]|(? & ->)];
    (split; [by simpl|]); (split; [simpl; lia|]);
    (split; [by repeat constructor | simpl; lia]).
Qed.

(** X7.  Whatever the outcome, the calls executeCommand makes thread one
    working context that starts as the merged context: the guard is called
    on it, each action is called on the result of the action before it,
    there is at most one guard call and it comes before every action call,
    there are at most three action calls, and nothing is printed. *)
Theorem executeCommand_calls_chained (spec : ActorSpec) (currentState : ActorState)
    (command : Command) (now : Z) :
  let obs := fst (executeCommand spec currentState command now) in
  Chained (mergeContext (context currentState) (data command)) obs
  /\ (length (filter (fun o => isGuardCall o = true) obs) <= 1)%nat
  /\ Forall (fun o => isGuardCall o = false) (tail obs)
  /\ (length (actionCalls obs) <= 3)%nat.
Proof.
  pose proof (executeCommand_case spec currentState command now) as Hc.
  assert (forall c : Context, (@nil Observed = [] /\ c = c)
                    \/ exists n, @nil Observed = [ActionCall n c c]) as Hnone
    by (intros c; by left).
  assert (forall c : Context,
             @nil Observed = [] \/ exists n b, @nil Observed = [GuardCall n c b])
    as Hnoguard by (intros c; by left).
  destruct Hc as [Hs|sd Hs Ht|sd td stop transition merged Hs Ht Hstop
                 |sd td stop transition merged Hs Ht Hg Hstop
                 |sd td stop transition merged Hs Ht Hg Hex Hstop
                 |sd td transition merged afterExit Hs Ht
                 |sd nsd td stop transition merged afterExit Hs Ht Hg Hex Htx Hn Hstop
                 |sd nsd td transition merged afterExit afterAction final Hs Ht
                 |sd stop Hs Ht Hstop | sd merged Hs Ht
                 |sd nsd stop merged Hs Ht Hex Hn Hstop
                 |sd nsd merged afterExit final Hs Ht];
    cbn [fst].
  - by repeat split; simpl; try lia; try constructor.
  - by repeat split; simpl; try lia; try constructor.
  - rewrite <- (app_nil_r (guardCalls _ _ _)).
    apply (calls_shape merged merged merged merged _ [] [] []);
      [apply guardCalls_shape | apply Hnone..].
  - rewrite <- (app_nil_r (guardCalls _ _ _)).
    apply (calls_shape merged merged merged merged _ [] [] []);
      [apply guardCalls_shape | apply Hnone..].
  - rewrite <- (app_nil_r (actionCallsOf _ _ _)).
    apply (calls_shape merged (actionOf spec (exit sd) merged)
             (actionOf spec (exit sd) merged) (actionOf spec (exit sd) merged)
             _ _ [] []);
      [apply guardCalls_shape | apply actionCallsOf_shape | apply Hnone..].
  - rewrite <- (app_nil_r (actionCallsOf _ (action _) _)).
    apply (calls_shape merged afterExit (actionOf spec (action transition) afterExit)
             (actionOf spec (action transition) afterExit) _ _ _ []);
      [apply guardCalls_shape | apply actionCallsOf_shape..| apply Hnone].
  - rewrite <- (app_nil_r (actionCallsOf _ (action _) _)).
    apply (calls_shape merged afterExit (actionOf spec (action transition) afterExit)
             (actionOf spec (action transition) afterExit) _ _ _ []);
      [apply guardCalls_shape | apply actionCallsOf_shape..| apply Hnone].
  - apply (calls_shape merged afterExit afterAction final);
      [apply guardCalls_shape | apply actionCallsOf_shape..].
  - by repeat split; simpl; try lia; try constructor.
  - rewrite <- (app_nil_r (actionCallsOf _ _ _)).
    apply (calls_shape merged (actionOf spec (exit sd) merged)
             (actionOf spec (exit sd) merged) (actionOf spec (exit sd) merged)
             [] _ [] []);
      [apply Hnoguard | apply actionCallsOf_shape | apply Hnone..].
  - rewrite <- (app_nil_r (actionCallsOf _ _ _)).
    apply (calls_shape merged (actionOf spec (exit sd) merged)
             (actionOf spec (exit sd) merged) (actionOf spec (exit sd) merged)
             [] _ [] []);
      [apply Hnoguard | apply actionCallsOf_shape | apply Hnone..].
  - apply (calls_shape merged afterExit afterExit final [] _ []);
      [apply Hnoguard | apply actionCallsOf_shape | apply Hnone
      | apply actionCallsOf_shape].
Qed.

Lemma stopExit_not_success {A : Type} (stop : Stop) (a : A) :
  stopExit stop <> Success a.
Proof. by destruct stop. Qed.

Lemma guardStop_not_validation {A : Type} (spec : ActorSpec)
    (transition : TransitionObject) (ctx : Context) (stop : Stop)
    (reason0 : string) (cause : ParseError) :
  guardStop spec transition ctx = Some stop ->
  @stopExit A stop <> Failure (ValidationError reason0 cause).
Proof.
  unfold guardStop. destruct (truthy (guard transition)) as [g|]; [|done].
  destruct (guards spec !! g) as [guardFn|].
  - destruct (negb (guardFn ctx)); [|done]. by intros [= <-].
  - destruct (inherited g); [destruct (callMember g)|];
      intros Hstop; try discriminate; by injection Hstop as <-.
Qed.

Lemma actionStop_not_validation {A : Type} (spec : ActorSpec) (name : option string)
    (stop : Stop) (reason0 : string) (cause : ParseError) :
  actionStop spec name = Some stop ->
  @stopExit A stop <> Failure (ValidationError reason0 cause).
Proof.
  unfold actionStop. destruct (truthy name) as [a|]; [|done].
  destruct (actions spec !! a); [done|].
  destruct (inherited a); [destruct (callMember a)|];
    intros Hstop; try discriminate; by injection Hstop as <-.
Qed.

(** X8.  The schema check of the executor and validateContext agree: the
    newContext of every result executeCommand returns passes
    validateContext, and when executeCommand fails with ValidationError,
    validateContext fails on the context the actions left, with SpecError
    and the same decoder error after its prefix. *)
Theorem executeCommand_result_validates (spec : ActorSpec) (currentState : ActorState)
    (command : Command) (now : Z) :
  let run := executeCommand spec currentState command now in
  let final :=
    lastActionResult (mergeContext (context currentState) (data command)) (fst run) in
  (forall result, snd run = Success result ->
      validateContext spec (newContext result) = ([], Success ()))
  /\ (forall reason0 cause, snd run = Failure (ValidationError reason0 cause) ->
        validateContext spec final
        = ([], Failure (SpecError ("Context validation failed: " +:+ cause)))).
Proof.
  pose proof (executeCommand_case spec currentState command now) as Hc.
  destruct Hc as [Hs|sd Hs Ht|sd td stop transition merged Hs Ht Hstop
                 |sd td stop transition merged Hs Ht Hg Hstop
                 |sd td stop transition merged Hs Ht Hg Hex Hstop
                 |sd td transition merged afterExit Hs Ht
                 |sd nsd td stop transition merged afterExit Hs Ht Hg Hex Htx Hn Hstop
                 |sd nsd td transition merged afterExit afterAction final Hs Ht
                 |sd stop Hs Ht Hstop | sd merged Hs Ht
                 |sd nsd stop merged Hs Ht Hex Hn Hstop
                 |sd nsd merged afterExit final Hs Ht];
    cbn [fst snd]; try (split; intros; discriminate);
    try (split; [intros result Hr; by apply stopExit_not_success in Hr
                | intros reason0 cause Hr; exfalso; revert Hr;
                  first [ by eapply guardStop_not_validation
                        | by eapply actionStop_not_validation ]]).
  - rewrite !lastActionResult_app, lastActionResult_guardCalls.
    rewrite !lastActionResult_actionCallsOf. fold afterExit afterAction final.
    unfold validateContext, gateExit.
    destruct (schema spec) as [sch|]; [|split; intros; discriminate].
    destruct (decodeUnknown sch _) as [e|decoded] eqn:Hdec.
    + split; [intros; discriminate|]. by intros reason0 cause [= _ <-].
    + split; [|intros; discriminate]. intros result [= <-]. cbn. by rewrite Hdec.
  - rewrite !lastActionResult_app.
    rewrite !lastActionResult_actionCallsOf. fold afterExit final.
    unfold validateContext, gateExit.
    destruct (schema spec) as [sch|]; [|split; intros; discriminate].
    destruct (decodeUnknown sch _) as [e|decoded] eqn:Hdec.
    + split; [intros; discriminate|]. by intros reason0 cause [= _ <-].
    + split; intros; discriminate.
Qed.

(** X9.  Command data cannot be told from stored context: executing a
    command with data gives the same calls and the same outcome as
    executing the command without data from the state whose context is the
    merged one, but for the oldContext of the result. *)
Theorem executeCommand_data_as_context (spec : ActorSpec) (currentState : ActorState)
    (command : Command) (now : Z) :
  let merged := mergeContext (context currentState) (data command) in
  executeCommand spec (withContext currentState merged)
    {| event := event command; data := None |} now
  = mapSuccess (fun result => withOldContext result merged)
      (executeCommand spec currentState command now).
Proof.
  intros merged.
  unfold executeCommand. cbn [state withContext context event data].
  rewrite mergeContext_None. fold merged.
  destruct (stateLookup spec (state currentState)) as [sd|]; [|done].
  destruct (eventLookup sd (event command)) as [[td|]|]; [| |done].
  - cbv zeta.
    destruct (evaluateGuard spec (parseTransition td) merged) as [o0 [[]|e|d|]];
      [|done..].
    rewrite !andThen_success.
    destruct (runAction spec (exit sd) merged) as [o1 [c1|e|d|]]; [|done..].
    rewrite !andThen_success.
    destruct (runAction spec (action (parseTransition td)) c1) as [o2 [c2|e|d|]];
      [|done..].
    rewrite !andThen_success.
    destruct (stateLookup spec (target (parseTransition td))) as [nsd|]; [|done].
    destruct (runAction spec (entry nsd) c2) as [o3 [c3|e|d|]]; [|done..].
    rewrite !andThen_success.
    destruct (validateNewContext spec c3) as [o4 [[]|e|d|]]; done.
  - destruct (runAction spec (exit sd) merged) as [o1 [c1|e|d|]]; [|done..].
    rewrite !andThen_success.
    destruct (stateLookup spec "undefined") as [nsd|]; [|done].
    destruct (runAction spec (entry nsd) c1) as [o3 [c3|e|d|]]; [|done..].
    rewrite !andThen_success.
    destruct (validateNewContext spec c3) as [o4 [[]|e|d|]]; done.
Qed.

(** ** The file backend: order of the history, save and load *)

Lemma insertNewestFirst_perm (x : AuditEntry) (l : list AuditEntry) :
  insertNewestFirst x l ≡ₚ x :: l.
Proof.
  induction l as [|y l IH]; [done|]. simpl.
  destruct (a_timestamp y <=? a_timestamp x); [done|].
  rewrite IH. apply Permutation_swap.
Qed.

Lemma sortNewestFirst_perm (l : list AuditEntry) : sortNewestFirst l ≡ₚ l.
Proof.
  induction l as [|x l IH]; [done|].
  unfold sortNewestFirst in *. simpl. rewrite insertNewestFirst_perm. by rewrite IH.
Qed.

Lemma insertNewestFirst_sorted (x : AuditEntry) (l : list AuditEntry) :
  StronglySorted (fun a b => a_timestamp b <= a_timestamp a) l ->
  StronglySorted (fun a b => a_timestamp b <= a_timestamp a) (insertNewestFirst x l).
Proof.
  induction l as [|y l IH]; intros Hs; simpl.
  - by repeat constructor.
  - apply StronglySorted_inv in Hs as [Hl Hy].
    destruct (Z.leb_spec (a_timestamp y) (a_timestamp x)) as [Hle|Hlt].
    + constructor; [by constructor|]. constructor; [done|].
      eapply Forall_impl; [exact Hy|]. simpl. intros z Hz. lia.
    + constructor; [by apply IH|].
      rewrite insertNewestFirst_perm. constructor; [lia | done].
Qed.

Lemma sortNewestFirst_sorted (l : list AuditEntry) :
  StronglySorted (fun a b => a_timestamp b <= a_timestamp a) (sortNewestFirst l).
Proof.
  induction l as [|x l IH]; [constructor|].
  unfold sortNewestFirst in *. simpl. by apply insertNewestFirst_sorted.
Qed.

Lemma insertNewestFirst_stable (t : Z) (x : AuditEntry) (l : list AuditEntry) :
  filter (fun a => a_timestamp a = t) (insertNewestFirst x l)
  = filter (fun a => a_timestamp a = t) (x :: l).
Proof.
  induction l as [|y l IH]; [done|]. simpl.
  destruct (Z.leb_spec (a_timestamp y) (a_timestamp x)) as [Hle|Hlt]; [done|].
  rewrite !filter_cons in *. rewrite IH.
  destruct (decide (a_timestamp y = t)), (decide (a_timestamp x = t)); try done.
  lia.
Qed.

Lemma sortNewestFirst_stable (t : Z) (l : list AuditEntry) :
  filter (fun a => a_timestamp a = t) (sortNewestFirst l)
  = filter (fun a => a_timestamp a = t) l.
Proof.
  induction l as [|x l IH]; [done|].
  unfold sortNewestFirst in *. simpl. rewrite insertNewestFirst_stable.
  rewrite !filter_cons. by rewrite IH.
Qed.

Lemma insertNewestFirst_oldest (x : AuditEntry) (l : list AuditEntry) :
  Forall (fun y => a_timestamp x < a_timestamp y) l ->
  insertNewestFirst x l = l ++ [x].
Proof.
  induction l as [|y l IH]; intros Hall; [done|].
  apply Forall_cons in Hall as [Hy Hall]. simpl.
  destruct (Z.leb_spec (a_timestamp y) (a_timestamp x)) as [Hle|Hlt]; [lia|].
  by rewrite IH.
Qed.

Lemma sortNewestFirst_increasing (l : list AuditEntry) :
  StronglySorted (fun a b => a_timestamp a < a_timestamp b) l ->
  sortNewestFirst l = reverse l.
Proof.
  induction l as [|x l IH]; intros Hs; [done|].
  apply StronglySorted_inv in Hs as [Hl Hx].
  unfold sortNewestFirst in *. simpl. rewrite (IH Hl), reverse_cons.
  apply insertNewestFirst_oldest. by apply Forall_reverse.
Qed.

Lemma jsSlice_all {A : Type} (l : list A) : jsSlice l 0 (Z.of_nat (length l)) = l.
Proof.
  unfold jsSlice. cbv zeta. change (0 <? 0) with false. cbv iota.
  destruct (Z.ltb_spec (Z.of_nat (length l)) 0) as [|_]; [lia|].
  rewrite (Z.min_l 0) by lia. rewrite Z.min_r by lia.
  rewrite Z.sub_0_r, Nat2Z.id. change (Z.to_nat 0) with 0%nat. rewrite drop_0.
  by rewrite take_ge.
Qed.

Lemma jsSlice_from {A : Type} (l : list A) (offset : Z) :
  0 <= offset ->
  jsSlice l offset (Z.of_nat (length l)) = drop (Z.to_nat offset) l.
Proof.
  intros Ho. unfold jsSlice.
  destruct (Z.ltb_spec offset 0) as [|_]; [lia|].
  destruct (Z.ltb_spec (Z.of_nat (length l)) 0) as [|_]; [lia|].
  rewrite (Z.min_r (Z.of_nat (length l))) by lia.
  destruct (Z.le_gt_cases (Z.of_nat (length l)) offset) as [Hlen|Hlen].
  - rewrite Z.min_r by lia. rewrite !drop_ge by lia. by rewrite take_nil.
  - rewrite Z.min_l by lia. apply take_ge. rewrite length_drop. lia.
Qed.

Lemma jsSlice_subseteq {A : Type} (l : list A) (start finish : Z) :
  jsSlice l start finish ⊆ l.
Proof.
  unfold jsSlice. etrans; [apply subseteq_take | apply subseteq_drop].
Qed.

Lemma jsSlice_sublist {A : Type} (l : list A) (start finish : Z) :
  jsSlice l start finish `sublist_of` l.
Proof.
  unfold jsSlice. etrans; [apply sublist_take | apply sublist_drop].
Qed.

Section FsJsonFacts.

Variable path_join : list string -> string.
Variable path_basename : string -> string -> string.
Variable clock : FsStore -> Z.
Variable scanned : FsStore -> string -> list string.
Variable basePath : string.

(** X24.  save of the file backend, on a store of files: it succeeds and
    no other file changes.  load then returns a state that agrees with the
    saved one in its id, type, state name, version and dates; of the
    context, which goes through JSON, nothing is said here.  The file
    holds the audit trail of the file it replaced followed by the new
    entry (compared here without the command data, which goes through
    JSON as well); when there was no file, or one that did not parse, the
    trail restarts with the new entry alone. *)
Theorem fsSave_then_load (actorType0 actorId : string) (st : ActorState)
    (audit : AuditEntry) (fs : FsStore) :
  let filePath := getFilePath path_join basePath actorType0 actorId in
  let fs' := fst (fsSave path_join clock basePath actorType0 actorId st audit fs) in
  snd (fsSave path_join clock basePath actorType0 actorId st audit fs) = Success ()
  /\ (exists loaded,
         fsLoad path_join basePath actorType0 actorId fs' = Success loaded
         /\ withContext loaded ∅ = withContext st ∅)
  /\ (exists written,
         fs' !! filePath = Some (Parses written)
         /\ withContext (file_state written) ∅ = withContext st ∅
         /\ savedAt written = clock fs
         /\ withoutData <$> file_audit written
            = withoutData <$> match fs !! filePath with
                              | Some (Parses old) => file_audit old ++ [audit]
                              | _ => [audit]
                              end)
  /\ (forall other, other <> filePath -> fs' !! other = fs !! other).
Proof.
  intros filePath fs'. unfold fs', fsSave, fsLoad, loadFile. fold filePath.
  destruct (fs !! filePath) as [[old|e]|]; cbn [fst snd];
    rewrite lookup_insert_eq;
    (split; [done|]); (split; [by eexists|]);
    (split; [by eexists | intros other Hne; by rewrite lookup_insert_ne]).
Qed.

(** X25.  getHistory of the file backend on a file that parses: without
    limit and offset it returns the audit trail rearranged newest first,
    entries of equal timestamp in the order they were written; a limit of
    0 is no limit; a positive limit and an offset cut that list. *)
Theorem fsGetHistory_order (actorType0 actorId : string) (fs : FsStore)
    (content : ActorFile) :
  fs !! getFilePath path_join basePath actorType0 actorId = Some (Parses content) ->
  exists newestFirst,
    fsGetHistory path_join basePath actorType0 actorId None None fs
    = Success newestFirst
    /\ newestFirst ≡ₚ file_audit content
    /\ StronglySorted (fun a b => a_timestamp b <= a_timestamp a) newestFirst
    /\ (forall t, filter (fun a => a_timestamp a = t) newestFirst
                  = filter (fun a => a_timestamp a = t) (file_audit content))
    /\ (forall offset,
           fsGetHistory path_join basePath actorType0 actorId (Some 0) offset fs
           = fsGetHistory path_join basePath actorType0 actorId None offset fs)
    /\ (forall limit offset, 0 < limit -> 0 <= offset ->
           fsGetHistory path_join basePath actorType0 actorId
             (Some limit) (Some offset) fs
           = Success (take (Z.to_nat limit) (drop (Z.to_nat offset) newestFirst))).
Proof.
  intros Hfile. exists (sortNewestFirst (file_audit content)).
  unfold fsGetHistory, loadFile. rewrite Hfile. simpl.
  split; [by rewrite jsSlice_all|]. split; [apply sortNewestFirst_perm|].
  split; [apply sortNewestFirst_sorted|]. split; [intros t; apply sortNewestFirst_stable|].
  split; [done|]. intros limit offset Hl Ho.
  destruct (Z.eqb_spec limit 0) as [|_]; [lia|].
  by rewrite jsSlice_page by lia.
Qed.

(** X26.  When the entries of a file were written with increasing
    timestamps, getHistory of the file backend is the trail reversed: the
    order in which the mock, which puts each entry in front, keeps its
    history. *)
Theorem fsGetHistory_save_order (actorType0 actorId : string) (fs : FsStore)
    (content : ActorFile) :
  fs !! getFilePath path_join basePath actorType0 actorId = Some (Parses content) ->
  StronglySorted (fun a b => a_timestamp a < a_timestamp b) (file_audit content) ->
  fsGetHistory path_join basePath actorType0 actorId None None fs
  = Success (reverse (file_audit content)).
Proof.
  intros Hfile Hinc. unfold fsGetHistory, loadFile. rewrite Hfile. simpl.
  by rewrite jsSlice_all, sortNewestFirst_increasing.
Qed.

End FsJsonFacts.

(** A second save into the file written by two saves. *)
Lemma fsSave_then_load_witness :
  exists written,
    fst (fsSave joinSegments (fun _ => 30) "data" "test-spec" "test-1"
           storedAtVersionFive (auditAt 30 "C") sampleStore)
      !! "data/test-spec/test-1.jsonc" = Some (Parses written)
    /\ version (file_state written) = 5
    /\ a_id <$> file_audit written = ["A"; "B"; "C"].
Proof.
  destruct (fsSave_then_load joinSegments (fun _ => 30) "data" "test-spec" "test-1"
              storedAtVersionFive (auditAt 30 "C") sampleStore)
    as (_ & _ & (written & Hfile & Hstate & _ & Haudit) & _).
  exists written. split; [exact Hfile|]. split.
  - by apply (f_equal version) in Hstate.
  - apply (f_equal (fmap a_id)) in Haudit.
    rewrite <- !list_fmap_compose in Haudit. exact Haudit.
Defined.

(** The file written by two saves, at times 10 and 20. *)
Lemma fsGetHistory_save_order_witness :
  fsGetHistory joinSegments "data" "test-spec" "test-1" None None sampleStore
  = Success (reverse (file_audit sampleFile)).
Proof.
  apply (fsGetHistory_save_order joinSegments "data" "test-spec" "test-1" sampleStore
           sampleFile); [reflexivity|].
  repeat constructor; simpl; lia.
Defined.

(** The file written by two saves. *)
Lemma fsGetHistory_order_witness :
  exists newestFirst,
    fsGetHistory joinSegments "data" "test-spec" "test-1" None None sampleStore
    = Success newestFirst
    /\ newestFirst ≡ₚ file_audit sampleFile
    /\ StronglySorted (fun a b => a_timestamp b <= a_timestamp a) newestFirst.
Proof.
  destruct (fsGetHistory_order joinSegments "data" "test-spec" "test-1" sampleStore
              sampleFile eq_refl)
    as (newestFirst & Hh & Hperm & Hsorted & _).
  by exists newestFirst.
Defined.

(** ** The file backend: query, and the service over files *)

Lemma elem_of_optional_filter {A : Type} (P : Z -> A -> Prop)
    `{!forall b x, Decision (P b x)} (o : option Z) (l : list A) (x : A) :
  x ∈ match o with
      | Some bound => filter (P bound) l
      | None => l
      end ->
  x ∈ l /\ forall bound, o = Some bound -> P bound x.
Proof.
  destruct o as [b|].
  - intros [HP Hin]%list_elem_of_filter. split; [done|]. by intros ? [= <-].
  - intros Hin. split; [done|]. by intros.
Qed.

Section ProceedStore.

Context {S : Type} `{StorageProviderApi S}.

Lemma proceedFrom_store (spec : ActorSpec) (currentState : ActorState)
    (command : ExecuteCommand) (env : Readings) (s : S) :
  fst (proceedFrom spec currentState command env s)
  = match exitOf (executeCommand spec currentState
                    {| event := cmd_event command; data := cmd_data command |}
                    (resultTime env)) with
    | Success result =>
        fst (save (cmd_actorType command) (cmd_actorId command)
               (buildNewState currentState result (startTime env))
               (buildAuditEntry command currentState result env) s)
    | _ => s
    end.
Proof.
  unfold proceedFrom, mbind, stored_bind, fromExit, mret, stored_ret.
  destruct (exitOf (executeCommand _ _ _ _)) as [r|e|d|]; [|done..].
  by destruct (save _ _ _ _ s) as [s' [[]|e|d|]].
Qed.

End ProceedStore.

Section FsJsonService.

Variable path_join : list string -> string.
Variable path_basename : string -> string -> string.
Variable clock : FsStore -> Z.
Variable scanned : FsStore -> string -> list string.
Variable basePath : string.

Lemma fsSave_file (actorType0 actorId : string) (st : ActorState)
    (audit : AuditEntry) (fs : FsStore) :
  fsSave path_join clock basePath actorType0 actorId st audit fs
  = (<[getFilePath path_join basePath actorType0 actorId :=
         Parses {| file_state := st;
                   file_audit :=
                     match fs !! getFilePath path_join basePath actorType0 actorId with
                     | Some (Parses old) => file_audit old
                     | _ => []
                     end ++ [audit];
                   savedAt := clock fs |}]> fs,
     Success ()).
Proof.
  unfold fsSave, loadFile.
  by destruct (fs !! getFilePath path_join basePath actorType0 actorId) as [[old|e]|].
Qed.

Lemma loadStates_omap (actorType0 : string) (fs : FsStore) (files : list string)
    (states0 : list ActorState) :
  loadStates path_join path_basename basePath actorType0 fs files states0
  = Success
      (states0
       ++ omap (fun file =>
                  match loadFile (getFilePath path_join basePath actorType0
                                    (path_basename file ".jsonc")) fs with
                  | Success content => Some (file_state content)
                  | _ => None
                  end) files).
Proof.
  revert states0. induction files as [|file rest IH]; intros states0.
  - by rewrite app_nil_r.
  - simpl.
    destruct (loadFile _ fs) as [content|e|d|] eqn:Hload; rewrite ?IH.
    + by rewrite <- app_assoc.
    + done.
    + unfold loadFile in Hload. by destruct (fs !! _) as [[content|e]|].
    + unfold loadFile in Hload. by destruct (fs !! _) as [[content|e]|].
Qed.

(** X27.  query of the file backend always succeeds; every state it
    returns is the state of a scanned file that parses (files that do not
    parse are skipped), has the wanted status when the filter gives a
    non-empty one, and lies within each date bound the filter gives; for
    a non-negative offset the result is no longer than a non-negative
    limit. *)
Theorem fsQuery_filters (actorType0 : string) (filter0 : option QueryFilter)
    (fs : FsStore) :
  exists result,
    fsQuery path_join path_basename scanned basePath actorType0 filter0 fs
    = Success result
    /\ (forall st, st ∈ result ->
          (exists file content,
              file ∈ scanned fs (path_join [basePath; actorType0])
              /\ fs !! getFilePath path_join basePath actorType0
                         (path_basename file ".jsonc") = Some (Parses content)
              /\ file_state content = st)
          /\ (forall wanted, filter0 ≫= q_status = Some wanted ->
                wanted <> EmptyString -> state st = wanted)
          /\ (forall bound, filter0 ≫= q_createdAfter = Some bound ->
                bound <= createdAt st)
          /\ (forall bound, filter0 ≫= q_createdBefore = Some bound ->
                createdAt st <= bound)
          /\ (forall bound, filter0 ≫= q_updatedAfter = Some bound ->
                bound <= updatedAt st)
          /\ (forall bound, filter0 ≫= q_updatedBefore = Some bound ->
                updatedAt st <= bound))
    /\ (forall n, filter0 ≫= q_limit = Some n -> 0 <= n ->
          0 <= default 0 (filter0 ≫= q_offset) ->
          (length result <= Z.to_nat n)%nat).
Proof.
  unfold fsQuery. cbv zeta. rewrite loadStates_omap.
  eexists. split; [reflexivity|]. unfold applyQueryFilter. cbv zeta. split.
  - intros st Hin. apply jsSlice_subseteq in Hin. cbn [app] in Hin.
    apply (elem_of_optional_filter (fun bound s => updatedAt s <= bound)) in Hin
      as [Hin Hub].
    apply (elem_of_optional_filter (fun bound s => bound <= updatedAt s)) in Hin
      as [Hin Hua].
    apply (elem_of_optional_filter (fun bound s => createdAt s <= bound)) in Hin
      as [Hin Hcb].
    apply (elem_of_optional_filter (fun bound s => bound <= createdAt s)) in Hin
      as [Hin Hca].
    assert (st ∈ omap (fun file =>
                         match loadFile (getFilePath path_join basePath actorType0
                                           (path_basename file ".jsonc")) fs with
                         | Success content => Some (file_state content)
                         | _ => None
                         end) (scanned fs (path_join [basePath; actorType0]))
            /\ forall wanted, filter0 ≫= q_status = Some wanted ->
                 wanted <> EmptyString -> state st = wanted) as [Hloaded Hstatus].
    { destruct (filter0 ≫= q_status) as [wanted|]; simpl in Hin; [|done].
      unfold truthy in Hin. destruct (String.eqb_spec wanted EmptyString) as [Heq|Hne].
      - split; [done|]. intros ? [= <-]. congruence.
      - apply list_elem_of_filter in Hin as [Hst Hin]. split; [done|].
        by intros ? [= <-]. }
    split; [|done].
    apply list_elem_of_omap in Hloaded as (file & Hfile & Hload).
    unfold loadFile in Hload.
    destruct (fs !! getFilePath path_join basePath actorType0
                      (path_basename file ".jsonc")) as [[content|e]|] eqn:Hlook;
      [|done..].
    injection Hload as <-. by exists file, content.
  - intros n Hn Hn0 Ho. rewrite Hn. cbn [default].
    rewrite jsSlice_page by done. rewrite length_take. apply Nat.le_min_l.
Qed.

(** X28.  execute over a file that does not parse: a command that succeeds
    is run from the initial state of the specification, and the file is
    overwritten with a state of version 1 and an audit trail of this one
    command; what the file held is gone. *)
Theorem fs_execute_over_unreadable_file (specs : JsRecord ActorSpec)
    (command : ExecuteCommand) (env : Readings) (fs fs' : FsStore)
    (spec : ActorSpec) (e : string) (result : TransitionResult) :
  SpecRegistry.get specs (cmd_actorType command) = Success spec ->
  fs !! getFilePath path_join basePath (cmd_actorType command) (cmd_actorId command)
  = Some (Throws e) ->
  @execute FsStore (makeFsJsonStorageProvider path_join clock basePath) specs
    command env fs = (fs', Success result) ->
  r_from result = initial spec
  /\ exists written,
       fs' !! getFilePath path_join basePath (cmd_actorType command)
                (cmd_actorId command) = Some (Parses written)
       /\ file_state written
          = buildNewState (initialState command spec (startTime env)) result
              (startTime env)
       /\ version (file_state written) = 1
       /\ file_audit written
          = [buildAuditEntry command (initialState command spec (startTime env))
               result env].
Proof.
  intros Hspec Hfile Hrun.
  rewrite (proj1 (execute_not_loaded (H := makeFsJsonStorageProvider path_join clock
                                             basePath)
                    specs command env fs spec
                    (StorageError "fs-json" op_load
                       (Some ("Failed to parse JSON: " +:+ e))) Hspec
                    ltac:(by simpl; unfold fsLoad, loadFile; rewrite Hfile))) in Hrun.
  apply proceedFrom_success in Hrun as [Hexec Hsave].
  split; [by apply executeCommand_success_from in Hexec|].
  simpl in Hsave. rewrite fsSave_file, Hfile in Hsave. injection Hsave as <-.
  eexists. rewrite lookup_insert_eq. split; [done|]. by simpl.
Qed.

(** X29.  On the file backend, execute keeps the store consistent: if
    every file parses and holds as many audit entries as its version says,
    the same is true after execute, whatever the command and its outcome. *)
Theorem fs_execute_consistent (specs : JsRecord ActorSpec)
    (command : ExecuteCommand) (env : Readings) (fs : FsStore) :
  FsConsistent fs ->
  FsConsistent
    (fst (@execute FsStore (makeFsJsonStorageProvider path_join clock basePath)
            specs command env fs)).
Proof.
  intros Hfs.
  set (provider := makeFsJsonStorageProvider path_join clock basePath).
  set (filePath := getFilePath path_join basePath (cmd_actorType command)
                     (cmd_actorId command)).
  destruct (SpecRegistry.get specs (cmd_actorType command)) as [spec|e|d|] eqn:Hspec.
  2,3,4: by unfold execute, mbind, stored_bind, fromExit; rewrite Hspec.
  assert (forall currentState,
             match fs !! filePath with
             | Some (Parses old) =>
                 version currentState = Z.of_nat (length (file_audit old))
             | Some (Throws _) => False
             | None => version currentState = 0
             end ->
             FsConsistent (fst (@proceedFrom FsStore provider spec currentState
                                  command env fs))) as Hstep.
  { intros currentState Hcur. rewrite proceedFrom_store.
    destruct (exitOf (executeCommand _ _ _ _)) as [result|e|d|]; [|done..].
    cbn [save provider makeFsJsonStorageProvider].
    rewrite fsSave_file. cbn [fst]. fold filePath.
    intros p c Hp. destruct (decide (p = filePath)) as [->|Hne].
    - rewrite lookup_insert_eq in Hp. injection Hp as <-.
      eexists. split; [done|]. cbn [file_state file_audit buildNewState version].
      rewrite length_app. cbn [length].
      destruct (fs !! filePath) as [[old|e]|]; [|done|]; cbn [length]; lia.
    - rewrite lookup_insert_ne in Hp by done. by apply (Hfs p). }
  destruct (@load FsStore provider (cmd_actorType command) (cmd_actorId command) fs)
    as [st|e|d|] eqn:Hl.
  - rewrite (proj1 (execute_loaded specs command env fs spec st Hspec Hl)).
    apply Hstep. cbn [load provider makeFsJsonStorageProvider] in Hl.
    unfold fsLoad, loadFile in Hl. fold filePath in Hl.
    destruct (fs !! filePath) as [[old|e]|] eqn:Hfile; [|done..].
    injection Hl as <-. destruct (Hfs _ _ Hfile) as (content & [= <-] & Hv). done.
  - rewrite (proj1 (execute_not_loaded specs command env fs spec e Hspec Hl)).
    apply Hstep. cbn [load provider makeFsJsonStorageProvider] in Hl.
    unfold fsLoad, loadFile in Hl. fold filePath in Hl.
    destruct (fs !! filePath) as [[old|e0]|] eqn:Hfile; [done| |done].
    by destruct (Hfs _ _ Hfile) as (content & [=] & _).
  - cbn [load provider makeFsJsonStorageProvider] in Hl.
    unfold fsLoad, loadFile in Hl.
    by destruct (fs !! _) as [[old|e0]|].
  - cbn [load provider makeFsJsonStorageProvider] in Hl.
    unfold fsLoad, loadFile in Hl.
    by destruct (fs !! _) as [[old|e0]|].
Qed.

End FsJsonService.

(** START over a store of one consistent file. *)
Lemma fs_execute_consistent_witness :
  FsConsistent
    (fst (@execute FsStore (makeFsJsonStorageProvider joinSegments (fun _ => 7) "data")
            (registryOf TestSpec.createTestSpec) startCommand testReadings
            sampleStore)).
Proof.
  apply (fs_execute_consistent joinSegments (fun _ => 7) "data").
  intros filePath c Hfile. unfold sampleStore in Hfile.
  apply lookup_singleton_Some in Hfile as [_ <-].
  exists sampleFile. split; reflexivity.
Defined.

(** START over a file that is not JSON. *)
Lemma fs_execute_over_unreadable_file_witness :
  exists (fs' : FsStore) (result : TransitionResult) (written : ActorFile),
    @execute FsStore (makeFsJsonStorageProvider joinSegments (fun _ => 7) "data")
      (registryOf TestSpec.createTestSpec) startCommand testReadings unreadableStore
    = (fs', Success result)
    /\ fs' !! "data/test-spec/test-1.jsonc" = Some (Parses written)
    /\ version (file_state written) = 1
    /\ length (file_audit written) = 1%nat.
Proof.
  destruct (@execute FsStore (makeFsJsonStorageProvider joinSegments (fun _ => 7) "data")
              (registryOf TestSpec.createTestSpec) startCommand testReadings
              unreadableStore) as [fs' [result|e|d|]] eqn:Hrun;
    [|vm_compute in Hrun; discriminate..].
  destruct (fs_execute_over_unreadable_file joinSegments (fun _ => 7) "data"
              (registryOf TestSpec.createTestSpec) startCommand testReadings
              unreadableStore fs' TestSpec.createTestSpec
              "SyntaxError: Unexpected end of JSON input" result
              eq_refl eq_refl Hrun)
    as (_ & written & Hfile & _ & Hv & Haudit).
  exists fs', result, written. split; [reflexivity|]. split; [exact Hfile|].
  split; [exact Hv|]. by rewrite Haudit.
Defined.
